(** * The change feed publisher (lib/publisher.js)

    A shallow embedding of the publisher module: the registry of listeners
    kept in [self.registrations] and [self.websockets], the websocket
    handlers [_register], [_end] and [_connectionReset], the bucket
    bootstrap [_setupBucket], the polling callbacks [_poll], [_record],
    [_noItems] installed by [start], [stop], [publish] and the two HTTP
    routes.

    Handlers are written in a small monad over the publisher object: they
    read and mutate [self], call out to the log, the websockets, the moray
    client and the event emitter (recorded as a list of effects, in program
    order), and may raise a JavaScript exception. The handlers run as
    callbacks of one event loop, which is modelled as a transition system
    over worlds. *)

From Stdlib Require Import DecimalString.
From stdpp Require Import gmap strings list fin_maps sorting.

Local Open Scope string_scope.
Local Open Scope list_scope.
Set Warnings "-register-all".

(** ** Data *)

(** Whatever else a producer puts into a change feed item or an operator
    into a resource description. The publisher never looks inside.
    [JCircular] is a reference back to an enclosing object, which
    [JSON.stringify] refuses. *)
Inductive Json : Type :=
| JCircular
| JNull
| JBool (b : bool)
| JNumber (n : Z)
| JString (s : string)
| JArray (items : list Json)
| JObject (fields : list (string * Json)).

(** [changeKind: { resource: ..., subResources: [...] }] *)
Record ChangeKind : Type := {
  resource : string;
  subResources : list string
}.

(** A registration, as the protocol has it:
    [{ instance: ..., changeKind: { resource: ..., subResources: [...] } }]. *)
Record Registration : Type := {
  instance : string;
  changeKind : ChangeKind
}.

(** [registration.changeKind] of a parsed handshake frame: an object of
    which either field may be missing. A field that is there is taken to
    have the type the protocol gives it: [resource] a string,
    [subResources] an array of strings. *)
Record Kind : Type := {
  kind_resource : option string;
  kind_subResources : option (list string)
}.

(** What [JSON.parse] made of a handshake frame that is not [null], as
    far as the publisher reads it. [frame_instance] is the property key
    that [registration.instance] stands for when it is used as an index
    (["undefined"] when the value has no [instance]); [frame_changeKind] is
    [None] when [registration.changeKind] is [undefined] or [null], as it is
    for a number, a string or an object without that field. *)
Record Frame : Type := {
  frame_instance : string;
  frame_changeKind : option Kind
}.

(** The frame of a registration. *)
Definition frame (r : Registration) : Frame :=
  {| frame_instance := instance r;
     frame_changeKind :=
       Some {| kind_resource := Some (resource (changeKind r));
               kind_subResources := Some (subResources (changeKind r)) |} |}.

(** The registration a frame is, when it has all its fields. *)
Definition registration_of (f : Frame) : option Registration :=
  match frame_changeKind f with
  | Some {| kind_resource := Some r; kind_subResources := Some subs |} =>
      Some {| instance := frame_instance f;
              changeKind := {| resource := r; subResources := subs |} |}
  | _ => None
  end.

(** The value of a change feed item in the moray bucket. *)
Record Value : Type := {
  value_changeKind : ChangeKind;
  published : string;
  payload : list (string * Json)
}.

(** A [record] event of a [findObjects] request. *)
Record MorayRecord : Type := {
  key : string;
  value : Value
}.

(** One element of [options.resources]. *)
Record Resource : Type := {
  resource_resource : string;
  resource_fields : list (string * Json)
}.

(** [self.morayBucket]: [{ name: ..., config: { index: { published: { type:
    'string' } } } }]; the index maps a field name to its type. *)
Record BucketConfig : Type := {
  index : list (string * string)
}.

Record Bucket : Type := {
  name : string;
  config : BucketConfig
}.

(** An error object as the publisher sees it: [err.name] and a message. *)
Record MorayError : Type := {
  err_name : string;
  err_message : string
}.

(** A Watershed connection. Watershed gives every connection it accepts
    an [_id] of its own, and the publisher tells connections apart by
    it. *)
Record WebSocket : Type := {
  _id : nat
}.

(** ** JavaScript objects used as maps

    [self.registrations] and [self.websockets] are plain objects indexed by
    whatever the handshake gave as instance. Such an object has its own
    properties, which [for ... in] lists in a fixed order, and a prototype,
    which an assignment under the key ["__proto__"] replaces instead of
    adding a property. *)
Record JsObject (X : Type) : Type := {
  own : gmap string X;
  order : list string;
  proto : option X
}.
Arguments own {X} _.
Arguments order {X} _.
Arguments proto {X} _.

(** [{}]: no property of its own, and [Object.prototype] as prototype
    ([proto] is [None]), which has no enumerable property. *)
Definition empty_object {X} : JsObject X :=
  {| own := ∅; order := []; proto := None |}.

(** [o[k] = x]. Under ["__proto__"] the inherited setter runs: [x], an
    object, becomes the prototype of [o] and no property is added.
    Otherwise [x] is stored as an own property; a new key goes to the end
    of the object's keys, a key that is there keeps its place. *)
Definition js_set {X} (k : string) (x : X) (o : JsObject X) : JsObject X :=
  if String.eqb k "__proto__" then
    {| own := own o; order := order o; proto := Some x |}
  else
    {| own := <[k := x]> (own o);
       order := match own o !! k with
                | Some _ => order o
                | None => order o ++ [k]
                end;
       proto := proto o |}.

(** [delete o[k]] removes an own property, if there is one. *)
Definition js_delete {X} (k : string) (o : JsObject X) : JsObject X :=
  {| own := delete k (own o);
     order := filter (λ k', k' ≠ k) (order o);
     proto := proto o |}.

(** A key that is the decimal numeral of an array index, [0] to
    [2^32 - 2], written without leading zeros. *)
Definition array_index (k : string) : option N :=
  match NilZero.uint_of_string k with
  | Some u =>
      let n := N.of_uint u in
      if String.eqb (NilZero.string_of_uint (N.to_uint n)) k
         && (n <? 4294967295)%N
      then Some n
      else None
  | None => None
  end.

Definition index_le (k1 k2 : string) : Prop :=
  (default 0 (array_index k1) ≤ default 0 (array_index k2))%N.

#[global] Instance index_le_dec : RelDecision index_le.
Proof. intros k1 k2. unfold index_le. apply _. Defined.

(** The order in which [for ... in] and [Object.keys] list own keys that
    were added in the order [keys]: array indices first, in ascending
    order, then the other keys, oldest first. *)
Definition own_keys (keys : list string) : list string :=
  merge_sort index_le (filter (λ k, is_Some (array_index k)) keys) ++
  filter (λ k, ¬ is_Some (array_index k)) keys.

(** The enumerable keys of a parsed frame that became a prototype, as far
    as the publisher reads the frame. Such a frame is an object with an
    [instance]; a missing [changeKind] is no key. The keys are listed as the
    protocol writes them, [instance] first; the loops over the registry stop
    at the first inherited key they meet, whichever it is. *)
Definition frame_keys (f : Frame) : list string :=
  "instance" ::
  match frame_changeKind f with
  | Some _ => ["changeKind"]
  | None => []
  end.

Definition proto_keys (o : JsObject Frame) : list string :=
  match proto o with
  | Some f => frame_keys f
  | None => []
  end.

(** The keys [for ... in] finds on the prototype: those that no own
    property hides. *)
Definition inherited (o : JsObject Frame) : list string :=
  filter (λ k, own o !! k = None) (proto_keys o).

(** The keys a [for ... in] loop over [o] sets out to visit: the own keys,
    then the inherited ones. *)
Definition for_in_list (o : JsObject Frame) : list string :=
  own_keys (order o) ++ inherited o.

(** [k in o]: an own property or one of the prototype. *)
Definition has_property (o : JsObject Frame) (k : string) : bool :=
  bool_decide (is_Some (own o !! k)) || bool_decide (k ∈ proto_keys o).

(** ** The publisher object *)

(** The fields of [self] that the handlers use. *)
Record Publisher : Type := {
  pollInterval : option nat;
  self_registrations : JsObject Frame;
  self_websockets : JsObject WebSocket;
  morayBucket : Bucket;
  resources : list Resource
}.

(** The own properties of [self.registrations] and of [self.websockets]:
    the entries of the registry. *)
Definition registrations (self : Publisher) : gmap string Frame :=
  own (self_registrations self).

Definition websockets (self : Publisher) : gmap string WebSocket :=
  own (self_websockets self).

Record Options : Type := {
  morayBucketName : string;
  options_resources : list Resource
}.

Definition set_pollInterval (h : option nat) (self : Publisher) : Publisher :=
  {| pollInterval := h;
     self_registrations := self_registrations self;
     self_websockets := self_websockets self;
     morayBucket := morayBucket self;
     resources := resources self |}.

Definition set_registrations (o : JsObject Frame) (self : Publisher)
  : Publisher :=
  {| pollInterval := pollInterval self;
     self_registrations := o;
     self_websockets := self_websockets self;
     morayBucket := morayBucket self;
     resources := resources self |}.

Definition set_websockets (o : JsObject WebSocket) (self : Publisher)
  : Publisher :=
  {| pollInterval := pollInterval self;
     self_registrations := self_registrations self;
     self_websockets := o;
     morayBucket := morayBucket self;
     resources := resources self |}.

Definition set_published (s : string) (v : Value) : Value :=
  {| value_changeKind := value_changeKind v;
     published := s;
     payload := payload v |}.

(** [self.registrations[k].changeKind], as the loop of [_record] reads it.
    For an own key it is the [changeKind] of the stored frame. Under an
    inherited key, [self.registrations[k]] is a field of the prototype: the
    instance or the [changeKind] object, neither of which has a
    [changeKind]. Under any other key there is nothing to read from. *)
Definition registrations_changeKind (self : Publisher) (k : string)
  : option (option Kind) :=
  match registrations self !! k with
  | Some f => Some (frame_changeKind f)
  | None =>
      if bool_decide (k ∈ proto_keys (self_registrations self))
      then Some None
      else None
  end.

(** A key of the registry with what the two objects hold under it:
    [self.websockets[k]] and [self.registrations[k].changeKind]. *)
Definition slot (self : Publisher) (k : string)
  : string * option WebSocket * option (option Kind) :=
  (k, websockets self !! k, registrations_changeKind self k).

(** ** Exceptions, effects and the handler monad *)

(** What can be thrown. The message of a [TypeError] that the engine
    raises is the engine's own; the model's text stands for it. *)
Inductive Exn : Type :=
| SyntaxError (message : string)
| TypeError (message : string)
| JsError (message : string).

Definition exn_message (e : Exn) : string :=
  match e with
  | SyntaxError m => m
  | TypeError m => m
  | JsError m => m
  end.

Inductive Outcome (A : Type) : Type :=
| Ok (a : A)
| Throw (e : Exn).
Arguments Ok {A} a.
Arguments Throw {A} e.

Inductive Level : Type := Info | Warn | Error.

Inductive LogArg : Type :=
| AStr (s : string)
| ANull
| AUndefined
| ARecord (r : MorayRecord)
| AValue (v : Value)
| AErr (e : MorayError).

(** What a handler does to the outside world: the calls it makes, with
    their arguments. A callback handed to the moray client is kept as the
    closure it is. [WsSend ws None] is the call [ws.send(null)]. *)
Inductive Effect : Type :=
| Log (level : Level) (msg : string) (args : list LogArg)
| Emit (event : string)
| WsSend (ws : WebSocket) (data : option string)
| SocketEnd
| SetInterval (handle : nat) (ms : Z)
| ClearInterval (handle : option nat)
| MorayClose
| MorayGetBucket (bucket : string)
    (cb : option MorayError → Publisher → Outcome unit * Publisher * list Effect)
| MorayCreateBucket (bucket : string) (cfg : BucketConfig)
    (cb : option MorayError → Publisher → Outcome unit * Publisher * list Effect)
| MorayFindObjects (bucket : string) (filter : string)
| MorayPutObject (bucket : string) (k : string) (v : Value)
    (cb : option MorayError → Publisher → Outcome unit * Publisher * list Effect)
| UserCallback (cb : nat) (err : option MorayError).

(** A handler: from the publisher object to an outcome, the publisher
    object as the handler left it (also when it threw), and what it did. *)
Definition M (A : Type) : Type :=
  Publisher → Outcome A * Publisher * list Effect.

Definition Callback : Type := option MorayError → M unit.

Definition ret {A} (a : A) : M A := λ self, (Ok a, self, []).

Definition bind {A B} (m : M A) (f : A → M B) : M B :=
  λ self,
    match m self with
    | (Ok a, self1, t1) =>
        match f a self1 with
        | (o, self2, t2) => (o, self2, t1 ++ t2)
        end
    | (Throw e, self1, t1) => (Throw e, self1, t1)
    end.

Notation "x <- m ;; k" := (bind m (λ x, k))
  (at level 100, m at next level, k at level 200, right associativity).
Notation "m ;;; k" := (bind m (λ _, k))
  (at level 100, k at level 200, right associativity).

Definition get : M Publisher := λ self, (Ok self, self, []).
Definition modify (f : Publisher → Publisher) : M unit :=
  λ self, (Ok tt, f self, []).
Definition tell (e : Effect) : M unit := λ self, (Ok tt, self, [e]).
Definition throw {A} (e : Exn) : M A := λ self, (Throw e, self, []).
Definition lift {A} (o : Outcome A) : M A := λ self, (o, self, []).

Definition outcome {A} (r : Outcome A * Publisher * list Effect) : Outcome A :=
  r.1.1.
Definition after {A} (r : Outcome A * Publisher * list Effect) : Publisher :=
  r.1.2.
Definition effects {A} (r : Outcome A * Publisher * list Effect) : list Effect :=
  r.2.

Arguments ret {A} a self /.
Arguments get self /.
Arguments modify f self /.
Arguments tell e self /.
Arguments throw {A} e self /.
Arguments lift {A} o self /.
Arguments outcome {A} !r /.
Arguments after {A} !r /.
Arguments effects {A} !r /.

(** [x.f] on a value that may be [undefined] or [null]. *)
Definition deref {A} (what : string) (x : option A) : M A :=
  match x with
  | Some a => ret a
  | None => throw (TypeError ("Cannot read property of undefined: " +:+ what))
  end.

(** [for (var k in self.registrations)]. The keys are those the object
    and its prototype have when the loop starts, own keys first; a key that
    is gone from both before its turn is not visited. *)
Fixpoint for_in_keys (keys : list string) (body : string → M unit) : M unit :=
  match keys with
  | [] => ret tt
  | k :: rest =>
      self <- get ;;
      (if has_property (self_registrations self) k then body k else ret tt) ;;;
      for_in_keys rest body
  end.

Definition for_in (body : string → M unit) : M unit :=
  self <- get ;;
  for_in_keys (for_in_list (self_registrations self)) body.

(** A loop over a list that was made beforehand. *)
Fixpoint for_each {X} (l : list X) (body : X → M unit) : M unit :=
  match l with
  | [] => ret tt
  | x :: rest => body x ;;; for_each rest body
  end.

(** ** The JavaScript runtime and Watershed *)

(** [JSON.parse] on a handshake frame and [JSON.stringify] on an item value
    and on a resource description. Each either returns or throws.
    [JSON.parse] returns [None] for the text [null]. *)
Class JSON : Type := {
  JSON_parse : string → Outcome (option Frame);
  JSON_stringify_value : Value → Outcome string;
  JSON_stringify_resource : Resource → Outcome string
}.

(** [send] of a Watershed connection takes a string (or a buffer). Called
    with [null] it throws; [send_null] is what it throws. *)
Class Watershed : Type := {
  send_null : Exn
}.

(** [Date.now().toString()]: the decimal digits of the clock reading. *)
Definition Date_toString (now : Z) : string :=
  NilZero.string_of_int (Z.to_int now).

(** [Array.prototype.indexOf] on an array of strings. *)
Fixpoint indexOf_from (l : list string) (x : string) (i : Z) : Z :=
  match l with
  | [] => -1
  | y :: rest => if String.eqb y x then i else indexOf_from rest x (i + 1)
  end.

Definition indexOf (l : list string) (x : string) : Z := indexOf_from l x 0.

(** [var pollTime = 2000;] *)
Definition pollTime : Z := 2000.

(** ** The publisher *)

(** [function Publisher(options)]: the fields as the constructor leaves
    them. *)
Definition new_Publisher (options : Options) : Publisher :=
  {| pollInterval := None;
     self_registrations := empty_object;
     self_websockets := empty_object;
     morayBucket :=
       {| name := morayBucketName options;
          config := {| index := [("published", "string")] |} |};
     resources := options_resources options |}.

Definition log_str (s : option string) : LogArg :=
  match s with
  | Some s => AStr s
  | None => ANull
  end.

(** A value that may be [undefined], as a log argument. *)
Definition log_opt (s : option string) : LogArg :=
  match s with
  | Some s => AStr s
  | None => AUndefined
  end.

Section Handlers.
Context `{JSON} `{Watershed}.

(** [websocket.send(data)] *)
Definition send (ws : WebSocket) (data : option string) : M unit :=
  tell (WsSend ws data) ;;;
  match data with
  | Some _ => ret tt
  | None => throw send_null
  end.

(** *** Bucket bootstrap *)

Definition _bucketSetupError : Callback := λ err,
  match err with
  | Some e => tell (Log Error "Bucket was not loaded" [AErr e])
  | None =>
      tell (Log Info "Bucket successfully loaded" []) ;;;
      tell (Emit "moray-ready")
  end.

Definition _createBucket (cb : Callback) : M unit :=
  self <- get ;;
  let bucket := morayBucket self in
  tell (MorayCreateBucket (name bucket) (config bucket) cb).

Definition _getBucket (cb : Callback) : M unit :=
  self <- get ;;
  tell (MorayGetBucket (name (morayBucket self)) cb).

(** The callback [_setupBucket] hands to [_getBucket]. After
    [self._createBucket(cb)] control leaves the [if] and reaches the final
    [return cb(err)]; the [else] branch returns on the spot. *)
Definition _getBucketError (cb : Callback) : Callback := λ err,
  match err with
  | Some e =>
      if String.eqb (err_name e) "BucketNotFoundError"
      then _createBucket cb ;;; cb err
      else cb err
  | None => cb err
  end.

Definition _setupBucket (cb : Callback) : M unit :=
  _getBucket (_getBucketError cb).

(** The [connect] listener. The [error] listener it attaches to the client
    only logs. *)
Definition _morayConnect : M unit :=
  tell (Log Info "moray: connected" []) ;;;
  tell (Emit "moray-connected") ;;;
  _setupBucket _bucketSetupError.

(** *** Websocket upgrade and registration *)

(** [accept] is what [shed.accept(req, socket, head)] did: it returned a
    connection or threw. On success the three listeners are attached to the
    connection and nothing else happens. *)
Definition _upgrade (accept : Outcome WebSocket) : M unit :=
  tell (Log Info "websocket upgrade taking place" []) ;;;
  match accept with
  | Ok websocket => ret tt
  | Throw ex =>
      tell (Log Error ("error: " +:+ exn_message ex) []) ;;;
      tell SocketEnd
  end.

(** The loop over [self.resources] in [_register]: every description whose
    resource equals the registration's is logged and becomes the response;
    the loop has no [break]. Each turn reads
    [registration.changeKind.resource], which throws when the frame has no
    [changeKind]. *)
Fixpoint scan_resources (rs : list Resource) (registration : Frame)
    (response : option Resource) : M (option Resource) :=
  match rs with
  | [] => ret response
  | r :: rest =>
      kind <- deref "resource" (frame_changeKind registration) ;;
      if bool_decide (kind_resource kind = Some (resource_resource r))
      then
        tell (Log Info "Accepting valid registration response" []) ;;;
        scan_resources rest registration (Some r)
      else scan_resources rest registration response
  end.

(** The listener for the first text frame. [registration.instance] throws
    when the frame is [null]; the two assignments come before anything is
    checked. *)
Definition _register (websocket : WebSocket) (text : string) : M unit :=
  parsed <- lift (JSON_parse text) ;;
  registration <- deref "instance" parsed ;;
  modify (λ self,
    set_websockets
      (js_set (frame_instance registration) websocket (self_websockets self))
      self) ;;;
  modify (λ self,
    set_registrations
      (js_set (frame_instance registration) registration
         (self_registrations self))
      self) ;;;
  self <- get ;;
  response <- scan_resources (resources self) registration None ;;
  match response with
  | Some r =>
      s <- lift (JSON_stringify_resource r) ;;
      send websocket (Some s)
  | None =>
      kind <- deref "resource" (frame_changeKind registration) ;;
      let regResource := kind_resource kind in
      tell (Log Warn "Invalid registration resource: %s" [log_opt regResource])
  end.

(** *** Cleaning up after a listener *)

(** The body of the loop in [_end] and, word for word, in
    [_connectionReset]. [self.websockets[instance]] is the connection
    stored under the key; under a key that [self.websockets] does not have
    of its own it is [undefined], and reading its [_id] throws (the
    prototype of [self.websockets], a connection when it was replaced, is
    taken to have no property named like a key of a handshake frame). *)
Definition collect (this : WebSocket) (instance : string) : M unit :=
  self <- get ;;
  ws <- deref "_id" (websockets self !! instance) ;;
  if Nat.eqb (_id this) (_id ws) then
    tell (Log Info "Collecting instance: %s" [AStr instance]) ;;;
    modify (λ self,
      set_websockets (js_delete instance (self_websockets self)) self) ;;;
    modify (λ self,
      set_registrations (js_delete instance (self_registrations self)) self)
  else ret tt.

Definition _end (this : WebSocket) : M unit :=
  for_in (collect this).

Definition _connectionReset (this : WebSocket) : M unit :=
  for_in (collect this).

(** *** Polling *)

Definition stop : M unit :=
  self <- get ;;
  tell (ClearInterval (pollInterval self)) ;;;
  tell MorayClose.

(** [handle] is what [setInterval] returned. *)
Definition start (handle : nat) : M unit :=
  tell (SetInterval handle pollTime) ;;;
  modify (set_pollInterval (Some handle)).

Definition _poll (bucketName : string) : M unit :=
  tell (MorayFindObjects bucketName "(published=no)").

Definition _reqErr (err : MorayError) : M unit :=
  tell (Log Warn EmptyString [AErr err]).

Definition _mark (k : string) : Callback := λ _,
  tell (Log Info "marking %s published" [AStr k]).

(** The inner loop of [_record] over the item's subResources: the first
    one that the registration also lists triggers the send, and [break]
    ends the loop. [regSubResources.indexOf] throws when the registration
    has no [subResources]. *)
Fixpoint scan_subResources (regWebsocket : option WebSocket)
    (regSubResources : option (list string)) (subResources : list string)
    (strValue : option string) : M unit :=
  match subResources with
  | [] => ret tt
  | sub :: rest =>
      l <- deref "indexOf" regSubResources ;;
      if negb (indexOf l sub =? -1)%Z then
        ws <- deref "send" regWebsocket ;;
        send ws strValue ;;;
        tell (Log Info "Published: %s" [log_str strValue]) ;;;
        tell (Emit "item-published")
      else scan_subResources regWebsocket regSubResources rest strValue
  end.

(** The body of the loop over [self.registrations] in [_record], once
    [self.websockets[instance]] and [self.registrations[instance].changeKind]
    have been read: [regChangeKind] is [None] when there was nothing to read
    [changeKind] from. *)
Definition match_entry (value : Value) (strValue : option string)
    (regWebsocket : option WebSocket) (regChangeKind : option (option Kind))
  : M unit :=
  regChangeKind <- deref "changeKind" regChangeKind ;;
  let resource' := resource (value_changeKind value) in
  kind <- deref "resource" regChangeKind ;;
  if bool_decide (kind_resource kind = Some resource') then
    let regSubResources := kind_subResources kind in
    let subResources' := subResources (value_changeKind value) in
    scan_subResources regWebsocket regSubResources subResources' strValue
  else tell (Log Info "No registrations for value: %j" [AValue value]).

(** The body of the loop over [self.registrations] in [_record]. As in
    [collect], [self.websockets[instance]] is [undefined] under a key that
    [self.websockets] does not have of its own. *)
Definition match_instance (value : Value) (strValue : option string)
    (instance : string) : M unit :=
  self <- get ;;
  let regWebsocket := websockets self !! instance in
  let regChangeKind := registrations_changeKind self instance in
  match_entry value strValue regWebsocket regChangeKind.

(** [try { strValue = JSON.stringify(value); } catch (ex) { log.error(...) }]
    with [strValue] initially [null]. *)
Definition serialize (value : Value) : M (option string) :=
  match JSON_stringify_value value with
  | Ok s => ret (Some s)
  | Throw ex =>
      tell (Log Error "Error serializing value: %s" [AStr (exn_message ex)]) ;;;
      ret None
  end.

(** [now] is what [Date.now()] returned. The item's value is one object:
    it is changed in place, then serialized, then written back. *)
Definition _record (bucketName : string) (record : MorayRecord) (now : Z)
  : M unit :=
  tell (Log Info EmptyString [ARecord record]) ;;;
  let value := set_published (Date_toString now) (value record) in
  strValue <- serialize value ;;
  for_in (match_instance value strValue) ;;;
  tell (MorayPutObject bucketName (key record) value (_mark (key record))).

Definition _noItems : M unit :=
  tell (Emit "no-items") ;;;
  tell (Log Info "findObjects ended" []).

(** *** Publishing *)

(** [uuid] is what [mod_libuuid.v4()] returned. *)
Definition _putObject (item : Value) (uuid : string) (cb : Callback) : M unit :=
  self <- get ;;
  tell (MorayPutObject (name (morayBucket self)) uuid item cb).

(** [cb] names the caller's callback. *)
Definition publish (item : Value) (uuid : string) (cb : nat) : M unit :=
  _putObject item uuid (λ err, tell (UserCallback cb err)).

(** *** The record callback over a copy of the registry

    What the specification asks of the match phase: take a copy of the
    registry's keys and values before iterating, and iterate over the
    copy. [_record_snapshot] is [_record] written that way, for comparison
    with [_record], which iterates over [self.registrations] itself. *)

(** The copy: every key the registry has, with what is under it. *)
Definition snapshot (self : Publisher)
  : list (string * option WebSocket * option (option Kind)) :=
  slot self <$>
  List.filter (has_property (self_registrations self))
    (for_in_list (self_registrations self)).


End Handlers.

(** ** The event loop

    The publisher runs as callbacks on one event loop. A world is the
    publisher object together with what Node, Watershed and the moray
    client hold on its behalf: the connections accepted so far ([_id]
    0, 1, ...), which of them still have their [once('text')] listener, the
    interval timers that are set, the [findObjects] requests and moray
    callbacks in flight, an exception that nobody caught, and everything
    the handlers did so far. [close()] on the moray client is taken not to
    withdraw what is in flight. *)
Record World : Type := {
  publisher : Publisher;
  accepted : nat;
  listening : gset nat;
  handles : nat;
  intervals : gset nat;
  queries : nat;
  callbacks : list Callback;
  uncaught : option Exn;
  history : list Effect
}.

(** What the event loop can dispatch: an [upgrade] request on the server
    (with the exception [shed.accept] throws, if it does), the [text],
    [end] and [connectionReset] events of connection [id], the [connect]
    event of the moray client, the completion of the [n]-th moray call in
    flight, a call of [start], [stop] or [publish] by the program that owns
    the publisher, an interval timer that fires, and the [record], [error]
    and [end] events of a [findObjects] request in flight ([now] is the
    clock when the record arrives). *)
Inductive Event : Type :=
| Upgrade (failure : option Exn)
| WsText (id : nat) (text : string)
| WsEnd (id : nat)
| WsConnectionReset (id : nat)
| MorayConnect
| MorayReply (n : nat) (err : option MorayError)
| CallStart
| CallStop
| CallPublish (item : Value) (uuid : string) (cb : nat)
| Tick (handle : nat)
| FindRecord (record : MorayRecord) (now : Z)
| FindError (err : MorayError)
| FindEnd.

Definition boot (options : Options) : World :=
  {| publisher := new_Publisher options;
     accepted := 0;
     listening := ∅;
     handles := 0;
     intervals := ∅;
     queries := 0;
     callbacks := [];
     uncaught := None;
     history := [] |}.

Definition with_publisher (p : Publisher) (w : World) : World :=
  {| publisher := p; accepted := accepted w; listening := listening w;
     handles := handles w; intervals := intervals w; queries := queries w;
     callbacks := callbacks w; uncaught := uncaught w; history := history w |}.

(** [shed.accept] returned a new connection, and the three listeners were
    attached to it. *)
Definition accept_connection (w : World) : World :=
  {| publisher := publisher w; accepted := S (accepted w);
     listening := {[accepted w]} ∪ listening w;
     handles := handles w; intervals := intervals w; queries := queries w;
     callbacks := callbacks w; uncaught := uncaught w; history := history w |}.

(** A [once] listener is detached before it runs. *)
Definition detach_text (id : nat) (w : World) : World :=
  {| publisher := publisher w; accepted := accepted w;
     listening := listening w ∖ {[id]};
     handles := handles w; intervals := intervals w; queries := queries w;
     callbacks := callbacks w; uncaught := uncaught w; history := history w |}.

Definition take_handle (w : World) : World :=
  {| publisher := publisher w; accepted := accepted w;
     listening := listening w;
     handles := S (handles w); intervals := intervals w; queries := queries w;
     callbacks := callbacks w; uncaught := uncaught w; history := history w |}.

Definition take_callback (n : nat) (w : World) : World :=
  {| publisher := publisher w; accepted := accepted w;
     listening := listening w;
     handles := handles w; intervals := intervals w; queries := queries w;
     callbacks := delete n (callbacks w); uncaught := uncaught w;
     history := history w |}.

(** A [findObjects] request ended, with [end] or with [error]. *)
Definition end_query (w : World) : World :=
  {| publisher := publisher w; accepted := accepted w;
     listening := listening w;
     handles := handles w; intervals := intervals w;
     queries := pred (queries w);
     callbacks := callbacks w; uncaught := uncaught w; history := history w |}.

Definition crash (ex : Exn) (w : World) : World :=
  {| publisher := publisher w; accepted := accepted w;
     listening := listening w;
     handles := handles w; intervals := intervals w; queries := queries w;
     callbacks := callbacks w; uncaught := Some ex; history := history w |}.

(** What the outside world does with one effect of a handler. *)
Definition absorb (w : World) (e : Effect) : World :=
  {| publisher := publisher w;
     accepted := accepted w;
     listening := listening w;
     handles := handles w;
     intervals :=
       match e with
       | SetInterval h _ => {[h]} ∪ intervals w
       | ClearInterval (Some h) => intervals w ∖ {[h]}
       | _ => intervals w
       end;
     queries :=
       match e with
       | MorayFindObjects _ _ => S (queries w)
       | _ => queries w
       end;
     callbacks :=
       match e with
       | MorayGetBucket _ cb => callbacks w ++ [cb]
       | MorayCreateBucket _ _ cb => callbacks w ++ [cb]
       | MorayPutObject _ _ _ cb => callbacks w ++ [cb]
       | _ => callbacks w
       end;
     uncaught := uncaught w;
     history := history w ++ [e] |}.

Section EventLoop.
Context `{JSON} `{Watershed}.

(** The listener an event reaches, if one is attached, and the world as
    the event leaves it before the listener runs. *)
Definition listener (w : World) (ev : Event) : option (World * M unit) :=
  let bucketName := name (morayBucket (publisher w)) in
  match ev with
  | Upgrade None =>
      Some (accept_connection w, _upgrade (Ok {| _id := accepted w |}))
  | Upgrade (Some ex) => Some (w, _upgrade (Throw ex))
  | WsText id text =>
      if decide (id ∈ listening w)
      then Some (detach_text id w, _register {| _id := id |} text)
      else None
  | WsEnd id =>
      if decide (id < accepted w) then Some (w, _end {| _id := id |}) else None
  | WsConnectionReset id =>
      if decide (id < accepted w)
      then Some (w, _connectionReset {| _id := id |})
      else None
  | MorayConnect => Some (w, _morayConnect)
  | MorayReply n err =>
      match callbacks w !! n with
      | Some cb => Some (take_callback n w, cb err)
      | None => None
      end
  | CallStart => Some (take_handle w, start (handles w))
  | CallStop => Some (w, stop)
  | CallPublish item uuid cb => Some (w, publish item uuid cb)
  | Tick handle =>
      if decide (handle ∈ intervals w) then Some (w, _poll bucketName) else None
  | FindRecord record now =>
      if decide (0 < queries w)
      then Some (w, _record bucketName record now)
      else None
  | FindError err =>
      if decide (0 < queries w) then Some (end_query w, _reqErr err) else None
  | FindEnd =>
      if decide (0 < queries w) then Some (end_query w, _noItems) else None
  end.

(** What the listener for [ev] does when it runs in world [w]: its
    outcome, the publisher object afterwards, and its effects. *)
Definition reaction (w : World) (ev : Event)
  : option (World * (Outcome unit * Publisher * list Effect)) :=
  match uncaught w with
  | Some _ => None
  | None =>
      match listener w ev with
      | None => None
      | Some (w1, handler) => Some (w1, handler (publisher w1))
      end
  end.

(** One turn of the event loop. An exception that leaves a handler ends
    the process: nothing runs after it. *)
Definition step (w : World) (ev : Event) : World :=
  match reaction w ev with
  | None => w
  | Some (w1, (o, p, t)) =>
      let w2 := foldl absorb (with_publisher p w1) t in
      match o with
      | Ok _ => w2
      | Throw ex => crash ex w2
      end
  end.

Definition run (w : World) (evs : list Event) : World := foldl step w evs.

(** The effects of the listener for [ev] in world [w]; none when no
    listener runs. *)
Definition done_by (w : World) (ev : Event) : list Effect :=
  match reaction w ev with
  | None => []
  | Some (_, r) => effects r
  end.

End EventLoop.

(** ** What a record callback delivers *)

(** The value of [strValue] after the [try] in [_record]: the wire string,
    or [null] when [JSON.stringify] threw. *)
Definition strValue_of `{JSON} (v : Value) : option string :=
  match JSON_stringify_value v with
  | Ok s => Some s
  | Throw _ => None
  end.

(** Some subResource of the item is also one of the registration's. *)
Definition intersects (regSubResources subResources : list string) : bool :=
  existsb (λ sub, negb (indexOf regSubResources sub =? -1)%Z) subResources.

(** The entries of the registry in the order [for ... in] visits them:
    instance, stored frame, and the connection stored for the instance. *)
Definition entry_of (p : Publisher) (k : string)
  : option (string * Frame * option WebSocket) :=
  (λ f, (k, f, websockets p !! k)) <$> registrations p !! k.

Definition entries (p : Publisher) : list (string * Frame * option WebSocket) :=
  omap (entry_of p) (own_keys (order (self_registrations p))).

(** The item is due to the listener of the frame: the frame is a
    registration with the item's resource and a subResource of the item. *)
Definition due (v : Value) (f : Frame) : bool :=
  match registration_of f with
  | Some r =>
      String.eqb (resource (changeKind r)) (resource (value_changeKind v)) &&
      intersects (subResources (changeKind r)) (subResources (value_changeKind v))
  | None => false
  end.

(** What the body of the loop in [_record] does for an entry that is a
    registration, when it does not throw. *)
Definition deliver (v : Value) (strValue : option string)
    (entry : string * Frame * option WebSocket) : list Effect :=
  match registration_of entry.1.2 with
  | Some r =>
      let regChangeKind := changeKind r in
      if String.eqb (resource regChangeKind) (resource (value_changeKind v)) then
        if intersects (subResources regChangeKind)
             (subResources (value_changeKind v))
        then
          match entry.2 with
          | Some ws =>
              [WsSend ws strValue; Log Info "Published: %s" [log_str strValue];
               Emit "item-published"]
          | None => []
          end
        else []
      else [Log Info "No registrations for value: %j" [AValue v]]
  | None => []
  end.

Definition is_send (e : Effect) : bool :=
  match e with
  | WsSend _ _ => true
  | _ => false
  end.

Definition is_send_to (ws : WebSocket) (e : Effect) : bool :=
  match e with
  | WsSend ws' _ => Nat.eqb (_id ws') (_id ws)
  | _ => false
  end.

Definition is_emit (event : string) (e : Effect) : bool :=
  match e with
  | Emit event' => String.eqb event' event
  | _ => false
  end.

Fixpoint count (f : Effect → bool) (t : list Effect) : nat :=
  match t with
  | [] => 0
  | e :: rest => (if f e then 1 else 0) + count f rest
  end.

(** ** Properties of handlers and of worlds *)

(** A handler that leaves the publisher object as it found it. *)
Definition readonly {A} (m : M A) : Prop := ∀ p, after (m p) = p.

(** A handler that keeps a property of the publisher object, whether it
    returns or throws. *)
Definition preserves {A} (I : Publisher → Prop) (m : M A) : Prop :=
  ∀ p, I p → I (after (m p)).

(** A handler all of whose effects satisfy [Q]. *)
Definition emits {A} (Q : Effect → Prop) (m : M A) : Prop :=
  ∀ p, Forall Q (effects (m p)).

(** What [serialize] logs. *)
Definition serialize_log `{JSON} (v : Value) : list Effect :=
  match JSON_stringify_value v with
  | Ok _ => []
  | Throw ex => [Log Error "Error serializing value: %s" [AStr (exn_message ex)]]
  end.

(** The two objects of the registry go together: they have the same keys
    of their own, which they got in the same order, and
    [self.registrations] lists each of its keys once. *)
Record registry_wf (p : Publisher) : Prop := {
  wf_dom : dom (registrations p) = dom (websockets p);
  wf_order : ∀ k, k ∈ order (self_registrations p) ↔
                  is_Some (registrations p !! k);
  wf_nodup : NoDup (order (self_registrations p));
  wf_same : order (self_websockets p) = order (self_registrations p)
}.

(** The registry is in order, with [n] connections accepted so far and
    [L] the connections whose first text frame is still to come: the two
    objects go together, every stored connection is an accepted one that
    has had its first frame, and no connection is stored twice. *)
Record registry_ok (n : nat) (L : gset nat) (p : Publisher) : Prop := {
  ok_wf : registry_wf p;
  ok_ids : ∀ i ws, websockets p !! i = Some ws → _id ws < n ∧ _id ws ∉ L;
  ok_inj : ∀ i j ws,
    websockets p !! i = Some ws → websockets p !! j = Some ws → i = j
}.

(** Every entry of the registry is a registration. *)
Definition registered (p : Publisher) : Prop :=
  map_Forall (λ _ f, is_Some (registration_of f)) (registrations p).

#[global] Instance registered_dec p : Decision (registered p).
Proof. unfold registered. apply _. Defined.

(** The registry is as the protocol means it to be: every entry is a
    registration, and the loops over [self.registrations] meet no inherited
    key. *)
Definition tidy (p : Publisher) : Prop :=
  registered p ∧ inherited (self_registrations p) = [].

#[global] Instance tidy_dec p : Decision (tidy p).
Proof. unfold tidy. apply _. Defined.

(** Nothing but [start] touches the poll interval, and nothing touches
    the bucket or the resources. *)
Definition settings (p : Publisher) : Bucket * list Resource :=
  (morayBucket p, resources p).

(** The callbacks the publisher hands to the moray client. *)
Definition known (cb : Callback) : Prop :=
  cb = _bucketSetupError ∨
  cb = _getBucketError _bucketSetupError ∨
  (∃ k, cb = _mark k) ∨
  (∃ n, cb = λ err, tell (UserCallback n err)).

Definition known_effect (e : Effect) : Prop :=
  match e with
  | MorayGetBucket _ cb => known cb
  | MorayCreateBucket _ _ cb => known cb
  | MorayPutObject _ _ _ cb => known cb
  | _ => True
  end.

Record world_ok (options : Options) (w : World) : Prop := {
  w_registry : registry_ok (accepted w) (listening w) (publisher w);
  w_listening : ∀ id, id ∈ listening w → id < accepted w;
  w_bucket : morayBucket (publisher w) = morayBucket (new_Publisher options);
  w_resources : resources (publisher w) = options_resources options;
  w_callbacks : Forall known (callbacks w)
}.

(** What a listener must do for the world to stay in order. *)
Definition keeps_order (options : Options) (w1 : World) (handler : M unit)
  : Prop :=
  registry_ok (accepted w1) (listening w1) (after (handler (publisher w1))) ∧
  (∀ id, id ∈ listening w1 → id < accepted w1) ∧
  settings (after (handler (publisher w1))) = settings (new_Publisher options) ∧
  Forall known (callbacks w1) ∧
  Forall known_effect (effects (handler (publisher w1))).

(** An effect other than [setInterval]. *)
Definition sets_no_interval (e : Effect) : Prop :=
  match e with
  | SetInterval _ _ => False
  | _ => True
  end.

(** A handler that leaves [self.pollInterval] alone. *)
Definition keeps_pollInterval {A} (m : M A) : Prop :=
  ∀ p, pollInterval (after (m p)) = pollInterval p.

(** Interval [h] was handed out and is not set. *)
Definition cleared (h : nat) (w : World) : Prop :=
  h < handles w ∧ h ∉ intervals w.

(** The callbacks of a query or a write that is already under way. *)
Definition in_flight (ev : Event) : bool :=
  match ev with
  | FindRecord _ _ | FindError _ | FindEnd | MorayReply _ _ => true
  | _ => false
  end.

(** ** The HTTP routes *)

(** The body of the reply of [/change-feeds/stats]. *)
Record Stats : Type := {
  listeners : nat;
  stats_registrations : option (gmap string Frame)
}.

(** What a route does with its request: [res.send(body)] and [next()]. *)
Inductive Reply : Type :=
| SendStats (body : Stats)
| SendResources (body : list Resource)
| Next.

(** [self.registrations] is an object from the constructor on, so the
    test [if (this.registrations)] always passes. [Object.keys] lists the
    own keys. *)
Definition _getStats (self : Publisher) : list Reply :=
  let listenerCount := size (registrations self) in
  let listenerRegistrations := Some (registrations self) in
  [SendStats {| listeners := listenerCount;
                stats_registrations := listenerRegistrations |};
   Next].

Definition _getResources (self : Publisher) : list Reply :=
  [SendResources (resources self); Next].

(** ** More properties of handlers and of worlds *)

(** The two assignments of [_register]:
    [self.websockets[instance] = websocket] and
    [self.registrations[instance] = registration]. *)
Definition store (websocket : WebSocket) (registration : Frame)
    (self : Publisher) : Publisher :=
  set_registrations
    (js_set (frame_instance registration) registration (self_registrations self))
    (set_websockets
       (js_set (frame_instance registration) websocket (self_websockets self))
       self).

(** The two deletions of [_end] and [_connectionReset]. *)
Definition discard (instance : string) (self : Publisher) : Publisher :=
  set_registrations (js_delete instance (self_registrations self))
    (set_websockets (js_delete instance (self_websockets self)) self).

(** The test in the loop of [_end]: the connection stored for an instance
    is the one that ended. *)
Definition collects (this : WebSocket) (stored : option WebSocket) : bool :=
  match stored with
  | Some ws => Nat.eqb (_id this) (_id ws)
  | None => false
  end.

(** The keys under which connection [this] is stored, in the order the
    loop of [_end] meets them. *)
Definition collected (this : WebSocket) (p : Publisher) : list string :=
  List.filter (λ k, collects this (websockets p !! k))
    (own_keys (order (self_registrations p))).

(** The resources a registration matches, in configuration order. *)
Definition matching (rs : list Resource) (registration : Registration)
  : list Resource :=
  List.filter
    (λ r, String.eqb (resource_resource r) (resource (changeKind registration)))
    rs.


(** A handler that leaves both objects of the registry alone. *)
Definition keeps_registry {A} (m : M A) : Prop :=
  ∀ p, self_registrations (after (m p)) = self_registrations p ∧
       self_websockets (after (m p)) = self_websockets p.

(** Connection [id] was accepted and has had its first text frame. *)
Definition heard (id : nat) (w : World) : Prop :=
  id < accepted w ∧ id ∉ listening w.

(** No registry entry holds connection [id]. *)
Definition unlisted (id : nat) (p : Publisher) : Prop :=
  ∀ k ws, websockets p !! k = Some ws → _id ws ≠ id.


(** An effect that hands no callback to the moray client and makes no
    query. *)
Definition no_request (e : Effect) : Prop :=
  match e with
  | MorayGetBucket _ _ => False
  | MorayCreateBucket _ _ _ => False
  | MorayPutObject _ _ _ _ => False
  | MorayFindObjects _ _ => False
  | SetInterval _ _ => False
  | ClearInterval _ => False
  | _ => True
  end.

(** An effect of a publisher that was never started: no interval, no
    query, and no signal but those of the bootstrap. *)
Definition dormant (e : Effect) : Prop :=
  match e with
  | SetInterval _ _ => False
  | MorayFindObjects _ _ => False
  | Emit event => event = "moray-connected" ∨ event = "moray-ready"
  | _ => True
  end.

(** A world in which polling has not begun. *)
Definition asleep (w : World) : Prop :=
  intervals w = ∅ ∧ queries w = 0 ∧ pollInterval (publisher w) = None ∧
  Forall dormant (history w).

(** ** A runtime and a deployment for worked examples *)

Module Demo.

Fixpoint circular (d : Json) : bool :=
  match d with
  | JCircular => true
  | JArray items => existsb circular items
  | JObject fields => existsb (λ f, match f with (_, d') => circular d' end) fields
  | _ => false
  end.

Definition show_changeKind (c : ChangeKind) : string :=
  "{resource:" +:+ resource c +:+ ",subResources:["
    +:+ String.concat "," (subResources c) +:+ "]}".

Definition vm_nics : Registration :=
  {| instance := "i1";
     changeKind := {| resource := "vm"; subResources := ["nics"] |} |}.

Definition vm_tags : Registration :=
  {| instance := "i2";
     changeKind := {| resource := "vm"; subResources := ["tags"; "nics"] |} |}.

Definition net_any : Registration :=
  {| instance := "i3";
     changeKind := {| resource := "network"; subResources := ["nics"] |} |}.

(** A registration whose instance is the key [__proto__]. *)
Definition vm_proto : Registration :=
  {| instance := "__proto__";
     changeKind := {| resource := "vm"; subResources := ["nics"] |} |}.

(** An object with an instance and nothing else. *)
Definition stray : Frame :=
  {| frame_instance := "i9"; frame_changeKind := None |}.

(** The number [5]: it has no [instance] and no [changeKind]. *)
Definition five : Frame :=
  {| frame_instance := "undefined"; frame_changeKind := None |}.

Definition text_i1 : string :=
  "{instance:i1,changeKind:{resource:vm,subResources:[nics]}}".
Definition text_i2 : string :=
  "{instance:i2,changeKind:{resource:vm,subResources:[tags,nics]}}".
Definition text_i3 : string :=
  "{instance:i3,changeKind:{resource:network,subResources:[nics]}}".
Definition text_proto : string :=
  "{instance:__proto__,changeKind:{resource:vm,subResources:[nics]}}".
Definition text_stray : string := "{instance:i9}".
Definition text_five : string := "5".
Definition text_null : string := "null".

(** The frames this runtime can parse; every other text is a syntax
    error. *)
Definition frames : list (string * option Frame) :=
  [(text_i1, Some (frame vm_nics));
   (text_i2, Some (frame vm_tags));
   (text_i3, Some (frame net_any));
   (text_proto, Some (frame vm_proto));
   (text_stray, Some stray);
   (text_five, Some five);
   (text_null, None)].

Fixpoint parse (table : list (string * option Frame)) (text : string)
  : Outcome (option Frame) :=
  match table with
  | [] => Throw (SyntaxError "Unexpected token")
  | (t, r) :: rest => if String.eqb t text then Ok r else parse rest text
  end.

Definition runtime : JSON :=
  {| JSON_parse := parse frames;
     JSON_stringify_value v :=
       if existsb (λ f, circular f.2) (payload v)
       then Throw (TypeError "Converting circular structure to JSON")
       else Ok ("{changeKind:" +:+ show_changeKind (value_changeKind v)
                  +:+ ",published:" +:+ published v +:+ "}");
     JSON_stringify_resource r := Ok ("{resource:" +:+ resource_resource r +:+ "}")
  |}.

(** A Watershed, with the error its [send] has for [null]. *)
Definition shed : Watershed :=
  {| send_null := JsError "send: data is neither a string nor a buffer" |}.

Definition options : Options :=
  {| morayBucketName := "change_feed_bucket";
     options_resources :=
       [{| resource_resource := "vm";
           resource_fields :=
             [("subResources", JArray [JString "nics"; JString "metadata"])] |}]
  |}.

Definition item : MorayRecord :=
  {| key := "k1";
     value :=
       {| value_changeKind :=
            {| resource := "vm"; subResources := ["nics"; "tags"] |};
          published := "no";
          payload := [("uuid", JString "vm-1")] |} |}.

(** An item whose value refers to itself. *)
Definition knot : MorayRecord :=
  {| key := "k2";
     value :=
       {| value_changeKind :=
            {| resource := "vm"; subResources := ["nics"] |};
          published := "no";
          payload := [("self", JCircular)] |} |}.

(** An item that no listener of the examples asks for. *)
Definition other : MorayRecord :=
  {| key := "k3";
     value :=
       {| value_changeKind :=
            {| resource := "image"; subResources := ["tags"] |};
          published := "no";
          payload := [] |} |}.

Definition clock : Z := 1446000000000.

Definition ws0 : WebSocket := {| _id := 0 |}.

(** Listener [i1] has registered, [start()] was called, and the interval
    has fired once: the query of that tick is in flight. *)
Definition polling : list Event :=
  [Upgrade None; WsText 0 text_i1; CallStart; Tick 0].

(** As [polling], but a second connection has sent a handshake with the
    instance [__proto__] before [start()]. *)
Definition polluted : list Event :=
  [Upgrade None; WsText 0 text_i1; Upgrade None; WsText 1 text_proto;
   CallStart; Tick 0].

(** Listener [i1] has registered and [start()] was called twice; the
    second interval has fired once, so that a query is in flight, and then
    [stop()] was called. *)
Definition stopped : list Event :=
  [Upgrade None; WsText 0 text_i1; CallStart; CallStart; Tick 1; CallStop].

(** Two errors of the moray client. *)
Definition missing : MorayError :=
  {| err_name := "BucketNotFoundError"; err_message := "no such bucket" |}.
Definition refused : MorayError :=
  {| err_name := "ConnectionClosedError"; err_message := "closed" |}.

End Demo.

(** * Properties of the publisher *)

(** ** Reasoning about handlers *)

Lemma bind_run {A B} (m : M A) (f : A → M B) p :
  bind m f p =
    match m p with
    | (Ok a, p1, t1) =>
        (outcome (f a p1), after (f a p1), t1 ++ effects (f a p1))
    | (Throw e, p1, t1) => (Throw e, p1, t1)
    end.
Proof.
  unfold bind. destruct (m p) as [[[a|e] p1] t1]; [|done].
  by destruct (f a p1) as [[o p2] t2].
Qed.

(** Runs a handler through its binds, as far as it is known. *)
Ltac run_binds := repeat (rewrite bind_run; simpl).

Lemma readonly_ret {A} (a : A) : readonly (ret a).
Proof. done. Qed.

Lemma readonly_get : readonly get.
Proof. done. Qed.

Lemma readonly_tell e : readonly (tell e).
Proof. done. Qed.

Lemma readonly_throw {A} e : readonly (@throw A e).
Proof. done. Qed.

Lemma readonly_lift {A} (o : Outcome A) : readonly (lift o).
Proof. done. Qed.

Lemma readonly_deref {A} what (x : option A) : readonly (deref what x).
Proof. by destruct x. Qed.

Lemma readonly_bind {A B} (m : M A) (f : A → M B) :
  readonly m → (∀ a, readonly (f a)) → readonly (bind m f).
Proof.
  intros Hm Hf p. rewrite bind_run. specialize (Hm p).
  destruct (m p) as [[[a|e] p1] t1]; simpl in *; subst; [apply Hf | done].
Qed.

Lemma readonly_preserves {A} I (m : M A) : readonly m → preserves I m.
Proof. intros Hm p Hp. by rewrite Hm. Qed.

Lemma preserves_bind {A B} I (m : M A) (f : A → M B) :
  preserves I m → (∀ a, preserves I (f a)) → preserves I (bind m f).
Proof.
  intros Hm Hf p Hp. rewrite bind_run. specialize (Hm p Hp).
  destruct (m p) as [[[a|e] p1] t1]; simpl in *; [by apply Hf | done].
Qed.

Lemma emits_ret {A} Q (a : A) : emits Q (ret a).
Proof. intros p. constructor. Qed.

Lemma emits_get Q : emits Q get.
Proof. intros p. constructor. Qed.

Lemma emits_modify Q f : emits Q (modify f).
Proof. intros p. constructor. Qed.

Lemma emits_throw {A} Q e : emits Q (@throw A e).
Proof. intros p. constructor. Qed.

Lemma emits_lift {A} Q (o : Outcome A) : emits Q (lift o).
Proof. intros p. constructor. Qed.

Lemma emits_deref {A} Q what (x : option A) : emits Q (deref what x).
Proof. destruct x; intros p; constructor. Qed.

Lemma emits_tell (Q : Effect → Prop) e : Q e → emits Q (tell e).
Proof. intros He p. by repeat constructor. Qed.

Lemma emits_bind {A B} Q (m : M A) (f : A → M B) :
  emits Q m → (∀ a, emits Q (f a)) → emits Q (bind m f).
Proof.
  intros Hm Hf p. rewrite bind_run. specialize (Hm p).
  destruct (m p) as [[[a|e] p1] t1]; simpl in *; [|done].
  apply Forall_app. split; [done | apply Hf].
Qed.

Lemma readonly_for_in_keys keys body :
  (∀ k, readonly (body k)) → readonly (for_in_keys keys body).
Proof.
  intros Hbody. induction keys as [|k keys IH]; [done|].
  simpl. apply readonly_bind; [done | intros self].
  apply readonly_bind; [|done]. by destruct (has_property _ _).
Qed.

Lemma preserves_for_in_keys I keys body :
  (∀ k, preserves I (body k)) → preserves I (for_in_keys keys body).
Proof.
  intros Hbody. induction keys as [|k keys IH]; [by intros p|].
  simpl. apply preserves_bind; [by intros p | intros self].
  apply preserves_bind; [|done]. destruct (has_property _ _); [done | by intros p].
Qed.

Lemma emits_for_in_keys Q keys body :
  (∀ k, emits Q (body k)) → emits Q (for_in_keys keys body).
Proof.
  intros Hbody. induction keys as [|k keys IH]; [apply emits_ret|].
  simpl. apply emits_bind; [apply emits_get | intros self].
  apply emits_bind; [|done]. destruct (has_property _ _); [done | apply emits_ret].
Qed.

Lemma readonly_for_in body :
  (∀ k, readonly (body k)) → readonly (for_in body).
Proof.
  intros Hbody. apply readonly_bind; [done | intros self].
  by apply readonly_for_in_keys.
Qed.

Lemma preserves_for_in I body :
  (∀ k, preserves I (body k)) → preserves I (for_in body).
Proof.
  intros Hbody. apply preserves_bind; [by intros p | intros self].
  by apply preserves_for_in_keys.
Qed.

Lemma emits_for_in Q body :
  (∀ k, emits Q (body k)) → emits Q (for_in body).
Proof.
  intros Hbody. apply emits_bind; [apply emits_get | intros self].
  by apply emits_for_in_keys.
Qed.

Lemma for_in_keys_app keys1 keys2 body p :
  for_in_keys (keys1 ++ keys2) body p =
    (for_in_keys keys1 body ;;; for_in_keys keys2 body) p.
Proof.
  revert p. induction keys1 as [|k keys1 IH]; intros p; simpl.
  - rewrite bind_run. simpl. by destruct (for_in_keys keys2 body p) as [[o q] t].
  - rewrite !bind_run. simpl. rewrite !bind_run.
    destruct ((if has_property (self_registrations p) k then body k else ret tt) p)
      as [[[[]|ex] q] t]; simpl; [|done].
    rewrite IH, !bind_run.
    destruct (for_in_keys keys1 body q) as [[[[]|ex] q1] t1]; simpl; [|done].
    by rewrite app_assoc.
Qed.

(** A loop whose body leaves the publisher alone is a loop over the keys
    that the object has at the outset. *)
Lemma for_in_keys_readonly keys body p :
  (∀ k, readonly (body k)) →
  for_in_keys keys body p =
    for_each (List.filter (has_property (self_registrations p)) keys) body p.
Proof.
  intros Hbody. induction keys as [|k keys IH]; [done|].
  simpl. rewrite bind_run. simpl. rewrite bind_run.
  destruct (has_property (self_registrations p) k) eqn:Hk; simpl.
  - rewrite bind_run. pose proof (Hbody k p) as Hro.
    destruct (body k p) as [[[[]|ex] q] t]; simpl in *; subst; [|done].
    by rewrite IH.
  - rewrite IH. by destruct (for_each _ body p) as [[o q] t].
Qed.

Lemma for_each_fmap {X Y} (g : X → Y) (l : list X) (body : Y → M unit) p :
  for_each (g <$> l) body p = for_each l (λ x, body (g x)) p.
Proof.
  revert p. induction l as [|x l IH]; intros p; [done|].
  rewrite fmap_cons. simpl. rewrite !bind_run.
  destruct (body (g x) p) as [[[[]|ex] q] t]; simpl; [|done]. by rewrite IH.
Qed.

Lemma for_each_ext {X} (l : list X) (body body' : X → M unit) p :
  (∀ x, x ∈ l → body x p = body' x p) →
  (∀ x, readonly (body x)) →
  for_each l body p = for_each l body' p.
Proof.
  intros Heq Hro. induction l as [|x l IH]; [done|].
  simpl. rewrite !bind_run. rewrite <-(Heq x) by left.
  pose proof (Hro x p) as Hx.
  destruct (body x p) as [[[[]|ex] q] t]; simpl in *; subst; [|done].
  rewrite IH; [done|]. intros y Hy. apply Heq. by right.
Qed.

(** A loop over a list whose bodies all return and leave the publisher
    alone. *)
Lemma for_each_reports {X} (l : list X) (body : X → M unit) p
    (f : X → list Effect) :
  (∀ x, x ∈ l → body x p = (Ok tt, p, f x)) →
  for_each l body p = (Ok tt, p, flat_map f l).
Proof.
  induction l as [|x l IH]; intros Hbody; [done|].
  simpl. rewrite bind_run, Hbody by left. simpl.
  rewrite IH; [done|]. intros y Hy. apply Hbody. by right.
Qed.

(** A loop that stops at the first body that throws. *)
Lemma for_each_throws {X} (l1 l2 : list X) x (body : X → M unit) p
    (f : X → list Effect) ex t :
  (∀ y, y ∈ l1 → body y p = (Ok tt, p, f y)) →
  body x p = (Throw ex, p, t) →
  for_each (l1 ++ x :: l2) body p = (Throw ex, p, flat_map f l1 ++ t).
Proof.
  induction l1 as [|y l1 IH]; intros Hbody Hx; simpl.
  - by rewrite bind_run, Hx.
  - rewrite bind_run, Hbody by left. simpl.
    rewrite IH; [simpl; by rewrite app_assoc | | done].
    intros z Hz. apply Hbody. by right.
Qed.

Lemma count_app f t1 t2 : count f (t1 ++ t2) = count f t1 + count f t2.
Proof. induction t1 as [|e t1 IH]; simpl; [done | rewrite IH; lia]. Qed.

Lemma count_zero f t : (∀ e, e ∈ t → f e = false) → count f t = 0.
Proof.
  induction t as [|e t IH]; intros Hf; [done|].
  simpl. rewrite (Hf e) by left. apply IH. intros e' He'. apply Hf. by right.
Qed.

Lemma count_flat_map_zero {K} f (g : K → list Effect) l :
  (∀ k, k ∈ l → count f (g k) = 0) → count f (flat_map g l) = 0.
Proof.
  induction l as [|k l IH]; intros Hg; [done|].
  simpl. rewrite count_app, Hg by left. apply IH. intros k' Hk'. apply Hg. by right.
Qed.

Lemma count_flat_map_one {K} f (g : K → list Effect) l k0 :
  NoDup l → k0 ∈ l → count f (g k0) = 1 →
  (∀ k, k ∈ l → k ≠ k0 → count f (g k) = 0) →
  count f (flat_map g l) = 1.
Proof.
  intros Hnd Hk0 H1 H0.
  apply list_elem_of_split in Hk0 as (l1 & l2 & ->).
  apply NoDup_app in Hnd as (_ & Hl1 & [Hl2 _]%NoDup_cons).
  rewrite flat_map_app. simpl. rewrite !count_app, H1.
  rewrite !count_flat_map_zero; [done | |].
  - intros k Hk. apply H0; [set_solver|]. by intros ->.
  - intros k Hk. apply H0; [set_solver|]. intros ->. apply (Hl1 k0); [done | left].
Qed.

(** ** Keys and their order *)

Lemma own_keys_Permutation keys : own_keys keys ≡ₚ keys.
Proof.
  unfold own_keys. rewrite merge_sort_Permutation.
  apply filter_app_complement.
Qed.

Lemma elem_of_own_keys k keys : k ∈ own_keys keys ↔ k ∈ keys.
Proof. by rewrite own_keys_Permutation. Qed.

Lemma NoDup_own_keys keys : NoDup keys → NoDup (own_keys keys).
Proof. by rewrite own_keys_Permutation. Qed.

Lemma elem_of_inherited o k :
  k ∈ inherited o ↔ own o !! k = None ∧ k ∈ proto_keys o.
Proof. unfold inherited. by rewrite list_elem_of_filter. Qed.

Lemma has_property_own o k :
  is_Some (own o !! k) → has_property o k = true.
Proof.
  intros Hk. unfold has_property. by rewrite bool_decide_eq_true_2.
Qed.

Lemma has_property_inherited o k : k ∈ inherited o → has_property o k = true.
Proof.
  intros [_ Hk]%elem_of_inherited. unfold has_property.
  rewrite (bool_decide_eq_true_2 (k ∈ proto_keys o)) by done.
  apply orb_true_r.
Qed.

Lemma registration_of_frame r : registration_of (frame r) = Some r.
Proof. by destruct r as [i [res subs]]. Qed.

Lemma registration_of_Some f r :
  registration_of f = Some r →
  f = frame r ∧ instance r = frame_instance f.
Proof.
  destruct f as [i [[[res|] [subs|]]|]]; simpl; try done.
  by intros [= <-].
Qed.

(** ** The record callback *)

Lemma indexOf_from_spec l x i :
  (0 ≤ i)%Z →
  (indexOf_from l x i = (-1)%Z ∧ x ∉ l) ∨ ((i ≤ indexOf_from l x i)%Z ∧ x ∈ l).
Proof.
  revert i. induction l as [|y l IH]; intros i Hi; simpl.
  - left. split; [done | apply not_elem_of_nil].
  - destruct (String.eqb_spec y x) as [->|Hne].
    + right. split; [lia | left].
    + destruct (IH (i + 1)%Z) as [[-> Hx]|[Hle Hx]]; [lia | |].
      * left. split; [done|]. by intros [?|?]%elem_of_cons.
      * right. split; [lia | by right].
Qed.

Lemma indexOf_found l x : negb (indexOf l x =? -1)%Z = true ↔ x ∈ l.
Proof.
  unfold indexOf. rewrite negb_true_iff, Z.eqb_neq.
  destruct (indexOf_from_spec l x 0) as [[-> Hx]|[Hle Hx]]; [lia | | ]; split;
    try done; lia.
Qed.

Lemma intersects_true regSubResources subResources :
  intersects regSubResources subResources = true ↔
  ∃ sub, sub ∈ regSubResources ∧ sub ∈ subResources.
Proof.
  unfold intersects. rewrite existsb_exists. split.
  - intros (sub & Hin%list_elem_of_In & Hfound%indexOf_found). by exists sub.
  - intros (sub & Hreg%indexOf_found & Hsub%list_elem_of_In). by exists sub.
Qed.

Lemma due_true v f :
  due v f = true ↔
  ∃ r, f = frame r ∧ instance r = frame_instance f ∧
       resource (changeKind r) = resource (value_changeKind v) ∧
       ∃ sub, sub ∈ subResources (changeKind r) ∧
              sub ∈ subResources (value_changeKind v).
Proof.
  unfold due. split.
  - destruct (registration_of f) as [r|] eqn:Hr; [|done].
    intros [Hres%String.eqb_eq Hint%intersects_true]%andb_true_iff.
    apply registration_of_Some in Hr as [-> Hi]. by exists r.
  - intros (r & -> & _ & Hres & Hint%intersects_true).
    rewrite registration_of_frame. apply andb_true_iff. split; [|done].
    by apply String.eqb_eq.
Qed.

Section Record.
Context `{JSON} `{Watershed}.

Lemma send_run ws data p :
  send ws data p =
    match data with
    | Some s => (Ok tt, p, [WsSend ws (Some s)])
    | None => (Throw send_null, p, [WsSend ws None])
    end.
Proof. unfold send. rewrite bind_run. simpl. by destruct data. Qed.

Lemma readonly_send ws data : readonly (send ws data).
Proof. intros p. rewrite send_run. by destruct data. Qed.

Lemma emits_send (Q : Effect → Prop) ws data :
  Q (WsSend ws data) → emits Q (send ws data).
Proof.
  intros HQ p. rewrite send_run. destruct data; by apply Forall_singleton.
Qed.

Lemma scan_subResources_run regWebsocket regSubResources subResources strValue p :
  scan_subResources regWebsocket (Some regSubResources) subResources strValue p =
    if intersects regSubResources subResources then
      match regWebsocket with
      | Some ws =>
          match strValue with
          | Some s =>
              (Ok tt, p,
               [WsSend ws strValue; Log Info "Published: %s" [log_str strValue];
                Emit "item-published"])
          | None => (Throw send_null, p, [WsSend ws None])
          end
      | None =>
          (Throw (TypeError "Cannot read property of undefined: send"), p, [])
      end
    else (Ok tt, p, []).
Proof.
  unfold intersects.
  induction subResources as [|sub rest IH]; simpl; [done|].
  rewrite bind_run. simpl.
  destruct (negb (indexOf regSubResources sub =? -1)%Z); simpl.
  - destruct regWebsocket as [ws|]; simpl; [|done].
    rewrite bind_run. simpl. rewrite bind_run, send_run.
    destruct strValue; simpl; [|done]. by run_binds.
  - rewrite IH. destruct (existsb _ rest); [|done].
    destruct regWebsocket; [|done]. by destruct strValue.
Qed.

Lemma readonly_scan_subResources regWebsocket regSubResources subResources
    strValue :
  readonly (scan_subResources regWebsocket regSubResources subResources strValue).
Proof.
  induction subResources as [|sub rest IH]; [done|].
  simpl. apply readonly_bind; [apply readonly_deref | intros l].
  destruct (negb _); [|done].
  apply readonly_bind; [apply readonly_deref | intros ws].
  apply readonly_bind; [apply readonly_send | intros _].
  apply readonly_bind; [done | by intros _].
Qed.

Lemma readonly_match_entry v strValue regWebsocket regChangeKind :
  readonly (match_entry v strValue regWebsocket regChangeKind).
Proof.
  apply readonly_bind; [apply readonly_deref | intros ck].
  apply readonly_bind; [apply readonly_deref | intros kind].
  cbv zeta. case_bool_decide; [apply readonly_scan_subResources | done].
Qed.

Lemma readonly_match_instance v strValue instance :
  readonly (match_instance v strValue instance).
Proof.
  apply readonly_bind; [done | intros self]. apply readonly_match_entry.
Qed.

Lemma readonly_serialize v : readonly (serialize v).
Proof. unfold serialize. by destruct (JSON_stringify_value v). Qed.

Lemma readonly_record bucketName record now :
  readonly (_record bucketName record now).
Proof.
  apply readonly_bind; [done | intros _].
  apply readonly_bind; [apply readonly_serialize | intros strValue].
  apply readonly_bind; [|done].
  apply readonly_for_in, readonly_match_instance.
Qed.

Lemma serialize_run v p :
  serialize v p = (Ok (strValue_of v), p, serialize_log v).
Proof.
  unfold serialize, strValue_of, serialize_log.
  by destruct (JSON_stringify_value v).
Qed.

(** The loop of [_record] is a loop over a copy of the registry made
    when it starts. *)
Lemma for_in_snapshot v strValue p :
  for_in (match_instance v strValue) p =
    for_each (snapshot p)
      (λ entry, match_entry v strValue entry.1.2 entry.2) p.
Proof.
  unfold for_in. rewrite bind_run. simpl.
  rewrite for_in_keys_readonly by apply readonly_match_instance.
  unfold snapshot. rewrite for_each_fmap. simpl.
  destruct (for_each _ (match_instance v strValue) p) as [[o q] t] eqn:Hrun.
  simpl. rewrite <-Hrun. apply for_each_ext.
  - intros k _. unfold match_instance. rewrite bind_run. simpl.
    by destruct (match_entry _ _ _ _ p) as [[o' q'] t'].
  - apply readonly_match_instance.
Qed.

(** The body of the loop on an entry that is a registration. *)
Lemma match_entry_run v strValue k f regWebsocket p :
  is_Some (registration_of f) →
  (due v f = true → is_Some regWebsocket ∧ is_Some strValue) →
  match_entry v strValue regWebsocket (Some (frame_changeKind f)) p =
    (Ok tt, p, deliver v strValue (k, f, regWebsocket)).
Proof.
  intros [r Hr] Hdue. unfold match_entry, deliver, due in *. simpl.
  rewrite Hr in *. apply registration_of_Some in Hr as [-> _]. simpl.
  run_binds.
  destruct (String.eqb_spec (resource (changeKind r))
              (resource (value_changeKind v))) as [Heq|Hne].
  - rewrite bool_decide_eq_true_2 by (by rewrite Heq).
    rewrite scan_subResources_run.
    destruct (intersects _ _) eqn:Hint; [|done].
    destruct Hdue as [[ws ->] [s ->]]; done.
  - rewrite bool_decide_eq_false_2; [done|]. by intros [= ?].
Qed.

(** The body of the loop on an entry that is due the item, when the value
    did not serialize: [send(null)] throws. *)
Lemma match_entry_null v f ws p :
  due v f = true →
  match_entry v None (Some ws) (Some (frame_changeKind f)) p =
    (Throw send_null, p, [WsSend ws None]).
Proof.
  intros (r & -> & _ & Hres & Hint%intersects_true)%due_true.
  unfold match_entry. simpl. run_binds.
  rewrite bool_decide_eq_true_2 by (by rewrite Hres).
  rewrite scan_subResources_run. by rewrite Hint.
Qed.

(** The body of the loop on an inherited key. *)
Lemma match_entry_inherited v strValue regWebsocket p :
  match_entry v strValue regWebsocket (Some None) p =
    (Throw (TypeError "Cannot read property of undefined: resource"), p, []).
Proof. done. Qed.

End Record.

Lemma filter_all {X} (f : X → bool) (l : list X) :
  (∀ x, x ∈ l → f x = true) → List.filter f l = l.
Proof.
  induction l as [|x l IH]; intros Hf; [done|].
  simpl. rewrite Hf by left. f_equal. apply IH. intros y Hy. apply Hf. by right.
Qed.

(** Where the first element with a property is. *)
Lemma first_such {X} (P : X → bool) (l : list X) x :
  x ∈ l → P x = true →
  ∃ l1 y l2, l = l1 ++ y :: l2 ∧ P y = true ∧ ∀ z, z ∈ l1 → P z = false.
Proof.
  induction l as [|a l IH]; intros Hx HP; [by apply elem_of_nil in Hx|].
  destruct (P a) eqn:Ha.
  - exists [], a, l. split_and!; [done..|]. by intros z ?%elem_of_nil.
  - apply elem_of_cons in Hx as [->|Hx]; [congruence|].
    destruct (IH Hx HP) as (l1 & y & l2 & -> & Hy & Hl1).
    exists (a :: l1), y, l2. split_and!; [done..|].
    intros z [->|Hz]%elem_of_cons; auto.
Qed.

Lemma elem_of_entries p k f o :
  (k, f, o) ∈ entries p ↔
  k ∈ order (self_registrations p) ∧
  registrations p !! k = Some f ∧ o = websockets p !! k.
Proof.
  unfold entries, entry_of. rewrite list_elem_of_omap. split.
  - intros (k' & Hk' & Hf). rewrite elem_of_own_keys in Hk'.
    destruct (registrations p !! k') as [f'|] eqn:Hlook; [|done].
    simpl in Hf. injection Hf as -> -> ->. done.
  - intros (Hk & Hf & ->). exists k. rewrite elem_of_own_keys, Hf. done.
Qed.

Lemma NoDup_entries p :
  NoDup (order (self_registrations p)) → NoDup (entries p).
Proof.
  intros Hnd. apply NoDup_own_keys in Hnd. unfold entries.
  induction Hnd as [|k l Hk Hnd IH]; [constructor|].
  simpl. unfold entry_of at 1.
  destruct (registrations p !! k) as [f|]; simpl; [|done].
  constructor; [|done].
  rewrite list_elem_of_omap. intros (k' & Hk' & Heq). unfold entry_of in Heq.
  destruct (registrations p !! k'); [|done]. simpl in Heq.
  injection Heq as -> _. done.
Qed.

Section Callback.
Context `{JSON} `{Watershed}.

(** The copy of a registry whose keys are all there: the entries, then
    the inherited keys. *)
Lemma snapshot_wf p :
  (∀ k, k ∈ order (self_registrations p) → is_Some (registrations p !! k)) →
  snapshot p =
    (slot p <$> own_keys (order (self_registrations p))) ++
    (slot p <$> inherited (self_registrations p)).
Proof.
  intros Hwf. unfold snapshot, for_in_list.
  rewrite List.filter_app, fmap_app. f_equal; f_equal; apply filter_all.
  - intros k Hk. rewrite elem_of_own_keys in Hk.
    by apply has_property_own, Hwf.
  - intros k Hk. by apply has_property_inherited.
Qed.

Lemma slot_own p k f :
  registrations p !! k = Some f →
  slot p k = (k, websockets p !! k, Some (frame_changeKind f)).
Proof.
  intros Hk. unfold slot, registrations_changeKind. by rewrite Hk.
Qed.

Lemma slot_inherited p k :
  k ∈ inherited (self_registrations p) →
  slot p k = (k, websockets p !! k, Some None).
Proof.
  intros [Hk Hp]%elem_of_inherited. unfold slot, registrations_changeKind.
  unfold registrations. rewrite Hk. by rewrite bool_decide_eq_true_2.
Qed.

Lemma flat_map_slots {Y} (g : string * Frame * option WebSocket → list Y) p l :
  flat_map (λ s : string * option WebSocket * option (option Kind),
              flat_map g (option_list (entry_of p s.1.1))) (slot p <$> l) =
  flat_map g (omap (entry_of p) l).
Proof.
  induction l as [|k l IH]; [done|].
  rewrite fmap_cons. simpl. rewrite IH.
  destruct (entry_of p k); simpl; [|done]. by rewrite app_nil_r.
Qed.

(** The loop over the entries, when each of them is a registration and
    none makes the body throw. *)
Lemma for_each_entries v strValue p keys :
  (∀ k, k ∈ keys → ∃ f, registrations p !! k = Some f ∧
     is_Some (registration_of f) ∧
     (due v f = true → is_Some (websockets p !! k) ∧ is_Some strValue)) →
  for_each (slot p <$> keys)
    (λ entry, match_entry v strValue entry.1.2 entry.2) p =
  (Ok tt, p, flat_map (deliver v strValue) (omap (entry_of p) keys)).
Proof.
  intros Hkeys. rewrite for_each_fmap.
  rewrite (for_each_reports _ _ _
             (λ k, flat_map (deliver v strValue) (option_list (entry_of p k)))).
  - f_equal. clear Hkeys. induction keys as [|k keys IH]; [done|].
    simpl. rewrite IH. destruct (entry_of p k); simpl; [|done].
    by rewrite app_nil_r.
  - intros k (f & Hf & Hreg & Hdue)%Hkeys. rewrite (slot_own _ _ f) by done.
    simpl. unfold entry_of. rewrite Hf. simpl. rewrite app_nil_r.
    by apply match_entry_run.
Qed.

(** What makes the loop of [_record] safe on the entries: the registry is
    well formed, every entry is a registration, and the value serialized
    unless no entry is due the item. *)
Lemma entries_safe v (strValue : option string) p k :
  registry_wf p → registered p →
  (∀ entry, entry ∈ entries p → due v entry.1.2 = true → is_Some strValue) →
  k ∈ own_keys (order (self_registrations p)) →
  ∃ f, registrations p !! k = Some f ∧
       is_Some (registration_of f) ∧
       (due v f = true → is_Some (websockets p !! k) ∧ is_Some strValue).
Proof.
  intros [Hdom Horder Hnd _] Hreg Hstr Hk. rewrite elem_of_own_keys in Hk.
  pose proof (proj1 (Horder k) Hk) as [f Hf]. exists f. split_and!; [done| |].
  - by apply (Hreg k f).
  - intros Hdue. split.
    + apply elem_of_dom. rewrite <-Hdom. apply elem_of_dom. eauto.
    + apply (Hstr (k, f, websockets p !! k)); [|done].
      by apply elem_of_entries.
Qed.

Lemma for_in_run v (strValue : option string) p :
  registry_wf p → registered p →
  (∀ entry, entry ∈ entries p → due v entry.1.2 = true → is_Some strValue) →
  for_in (match_instance v strValue) p =
    (match inherited (self_registrations p) with
     | [] => Ok tt
     | _ :: _ =>
         Throw (TypeError "Cannot read property of undefined: resource")
     end, p, flat_map (deliver v strValue) (entries p)).
Proof.
  intros Hwf Hreg Hstr. rewrite for_in_snapshot, snapshot_wf.
  2: { intros k Hk. by apply (wf_order p Hwf). }
  pose proof (for_each_entries v strValue p
                (own_keys (order (self_registrations p)))) as Hown.
  destruct (inherited (self_registrations p)) as [|k ks] eqn:Hin.
  - rewrite fmap_nil, app_nil_r. apply Hown.
    intros k Hk. by apply entries_safe.
  - rewrite fmap_cons.
    assert (Hk : k ∈ inherited (self_registrations p)) by (rewrite Hin; left).
    rewrite (slot_inherited p k Hk).
    rewrite (for_each_throws _ _ _ _ _
               (λ s, flat_map (deliver v strValue)
                       (option_list (entry_of p s.1.1)))
               (TypeError "Cannot read property of undefined: resource") []).
    + rewrite app_nil_r. do 2 f_equal. apply flat_map_slots.
    + intros s (k' & -> & Hk')%list_elem_of_fmap.
      destruct (entries_safe v strValue p k' Hwf Hreg Hstr Hk')
        as (f & Hf & Hr & Hdue).
      rewrite (slot_own _ _ f) by done. simpl. unfold entry_of. rewrite Hf.
      simpl. rewrite app_nil_r. by apply match_entry_run.
    + done.
Qed.

(** The record callback on a registry whose entries are registrations:
    it logs the record, stamps the value, serializes it, delivers to the
    entries in their order and, unless an inherited key stops it, writes the
    stamped value back under the record's key. *)
Lemma record_run bucketName record now p :
  let v := set_published (Date_toString now) (value record) in
  registry_wf p → registered p →
  (∀ entry, entry ∈ entries p → due v entry.1.2 = true →
     is_Some (strValue_of v)) →
  _record bucketName record now p =
    match inherited (self_registrations p) with
    | [] =>
        (Ok tt, p,
         Log Info EmptyString [ARecord record] :: serialize_log v ++
         flat_map (deliver v (strValue_of v)) (entries p) ++
         [MorayPutObject bucketName (key record) v (_mark (key record))])
    | _ :: _ =>
        (Throw (TypeError "Cannot read property of undefined: resource"), p,
         Log Info EmptyString [ARecord record] :: serialize_log v ++
         flat_map (deliver v (strValue_of v)) (entries p))
    end.
Proof.
  intros v Hwf Hreg Hstr. unfold _record. fold v.
  rewrite bind_run. simpl. rewrite bind_run, serialize_run.
  rewrite bind_run, for_in_run by done.
  by destruct (inherited (self_registrations p)).
Qed.

(** The record callback when the value did not serialize and an entry is
    due the item: it stops at the first such entry, where [send(null)]
    throws. *)
Lemma record_run_null bucketName record now p l1 k f ws l2 :
  let v := set_published (Date_toString now) (value record) in
  registry_wf p → registered p →
  strValue_of v = None →
  entries p = l1 ++ (k, f, Some ws) :: l2 →
  (∀ entry, entry ∈ l1 → due v entry.1.2 = false) →
  due v f = true →
  _record bucketName record now p =
    (Throw send_null, p,
     Log Info EmptyString [ARecord record] :: serialize_log v ++
     flat_map (deliver v None) l1 ++ [WsSend ws None]).
Proof.
  intros v Hwf Hreg Hnull Hsplit Hl1 Hdue. unfold _record. fold v.
  rewrite bind_run. simpl. rewrite bind_run, serialize_run, Hnull.
  rewrite bind_run, for_in_snapshot, snapshot_wf.
  2: { intros k' Hk'. by apply (wf_order p Hwf). }
  unfold entries in Hsplit.
  remember (own_keys (order (self_registrations p))) as keys eqn:Hkeys.
  assert (Hall : ∀ k', k' ∈ keys → ∃ f', registrations p !! k' = Some f' ∧
                                        is_Some (registration_of f')).
  { intros k' Hk'. subst keys. rewrite elem_of_own_keys in Hk'.
    pose proof (proj1 (wf_order p Hwf k') Hk') as [f' Hf']. exists f'.
    split; [done|]. by apply (Hreg k' f'). }
  clear Hkeys.
  assert (Hloop : ∀ rest,
    for_each ((slot p <$> keys) ++ rest)
      (λ entry, match_entry v None entry.1.2 entry.2) p =
    (Throw send_null, p, flat_map (deliver v None) l1 ++ [WsSend ws None])).
  { revert l1 Hsplit Hl1. induction keys as [|k' keys IH];
      intros l1 Hsplit Hl1 rest.
    { by destruct l1. }
    destruct (Hall k') as (f' & Hf' & Hr'); [left|].
    simpl in Hsplit. unfold entry_of at 1 in Hsplit. rewrite Hf' in Hsplit.
    simpl in Hsplit. rewrite fmap_cons. simpl. rewrite bind_run.
    assert (Hck : registrations_changeKind p k' = Some (frame_changeKind f'))
      by (unfold registrations_changeKind; by rewrite Hf').
    rewrite Hck.
    destruct l1 as [|entry l1]; simpl in Hsplit.
    - injection Hsplit as ? ? Hws ?. subst. rewrite Hws.
      by rewrite match_entry_null.
    - injection Hsplit as <- Hsplit.
      rewrite (match_entry_run v None k' f' (websockets p !! k') p); [|done|].
      + simpl. rewrite (IH (λ k'' Hk'', Hall k'' (list_elem_of_further _ _ _ Hk''))
                          l1 Hsplit); [simpl; by rewrite app_assoc|].
        intros e He. apply Hl1. by right.
      + rewrite (Hl1 (k', f', websockets p !! k')) by left. done. }
  by rewrite Hloop.
Qed.

End Callback.

(** ** The registry across the event loop *)

Lemma registry_wf_empty options : registry_wf (new_Publisher options).
Proof.
  split; simpl.
  - done.
  - intros k. unfold registrations. simpl. rewrite lookup_empty. split.
    + by intros ?%elem_of_nil.
    + by intros [? ?].
  - constructor.
  - done.
Qed.

Lemma registry_wf_store ws f p : registry_wf p → registry_wf (store ws f p).
Proof.
  intros [Hdom Horder Hnd Hsame].
  unfold store, js_set, registrations, websockets in *.
  destruct (String.eqb _ _); simpl; [by split|].
  split; unfold registrations, websockets; simpl.
  - by rewrite !dom_insert_L, Hdom.
  - intros k. specialize (Horder k).
    destruct (decide (k = frame_instance f)) as [->|Hne].
    + rewrite lookup_insert_eq.
      destruct (own (self_registrations p) !! frame_instance f) eqn:Hlook.
      * rewrite Horder. split; eauto.
      * rewrite elem_of_app, list_elem_of_singleton. split; eauto.
    + rewrite lookup_insert_ne by done.
      destruct (own (self_registrations p) !! frame_instance f).
      * done.
      * rewrite elem_of_app, list_elem_of_singleton, Horder.
        split; [by intros [?|?] | by left].
  - destruct (own (self_registrations p) !! frame_instance f) eqn:Hlook; [done|].
    apply NoDup_app. split_and!; [done | | apply NoDup_singleton].
    intros k Hk ->%list_elem_of_singleton.
    apply Horder in Hk as [? Hk]. congruence.
  - rewrite Hsame.
    assert (Hiff : own (self_websockets p) !! frame_instance f = None ↔
                   own (self_registrations p) !! frame_instance f = None).
    { rewrite <-!(not_elem_of_dom (D := gset string)). by rewrite Hdom. }
    destruct (own (self_websockets p) !! frame_instance f) eqn:Hw,
             (own (self_registrations p) !! frame_instance f) eqn:Hr;
      try done.
    + by pose proof (proj2 Hiff eq_refl).
    + by pose proof (proj1 Hiff eq_refl).
Qed.

Lemma registry_wf_discard k p : registry_wf p → registry_wf (discard k p).
Proof.
  intros [Hdom Horder Hnd Hsame].
  unfold discard, js_delete, registrations, websockets in *.
  split; unfold registrations, websockets; simpl.
  - by rewrite !dom_delete_L, Hdom.
  - intros j. rewrite list_elem_of_filter, Horder.
    destruct (decide (j = k)) as [->|Hne].
    + rewrite lookup_delete_eq. split; [by intros [? _] | by intros [? ?]].
    + rewrite lookup_delete_ne by done. split; [by intros [_ ?] | done].
  - by apply NoDup_filter.
  - by rewrite Hsame.
Qed.

Lemma registry_ok_empty n L options : registry_ok n L (new_Publisher options).
Proof.
  split; [apply registry_wf_empty | |]; intros *; unfold websockets; simpl;
    by rewrite lookup_empty.
Qed.

Lemma websockets_store ws f p :
  websockets (store ws f p) =
    if String.eqb (frame_instance f) "__proto__" then websockets p
    else <[frame_instance f := ws]> (websockets p).
Proof.
  unfold store, websockets, js_set. simpl. by destruct (String.eqb _ _).
Qed.

Lemma registrations_store ws f p :
  registrations (store ws f p) =
    if String.eqb (frame_instance f) "__proto__" then registrations p
    else <[frame_instance f := f]> (registrations p).
Proof.
  unfold store, registrations, js_set. simpl. by destruct (String.eqb _ _).
Qed.

Lemma websockets_discard k p :
  websockets (discard k p) = delete k (websockets p).
Proof. done. Qed.

Lemma registrations_discard k p :
  registrations (discard k p) = delete k (registrations p).
Proof. done. Qed.

Lemma registry_ok_discard n L p instance :
  registry_ok n L p → registry_ok n L (discard instance p).
Proof.
  intros [Hwf Hids Hinj]. split.
  - by apply registry_wf_discard.
  - intros i ws. rewrite websockets_discard.
    intros [_ Hi]%lookup_delete_Some. eauto.
  - intros i j ws. rewrite websockets_discard.
    intros [_ Hi]%lookup_delete_Some [_ Hj]%lookup_delete_Some. eauto.
Qed.

Lemma registry_ok_listening n L L' p :
  registry_ok n L p → L' ⊆ L → registry_ok n L' p.
Proof.
  intros [Hwf Hids Hinj] HL. split; [done | | done].
  intros i ws Hi. destruct (Hids _ _ Hi) as [Hlt Hnot]. split; [done|].
  intros Hin. by apply Hnot, HL.
Qed.

Lemma registry_ok_store n L p id f :
  registry_ok n L p → id ∈ L → id < n →
  registry_ok n (L ∖ {[id]}) (store {| _id := id |} f p).
Proof.
  intros Hok HL Hn.
  assert (Hless : registry_ok n (L ∖ {[id]}) p).
  { apply (registry_ok_listening n L); [done|].
    by intros x [Hx _]%elem_of_difference. }
  destruct Hok as [Hwf Hids Hinj]. split.
  - by apply registry_wf_store.
  - intros i ws. rewrite websockets_store.
    destruct (String.eqb _ _); [apply (ok_ids _ _ _ Hless)|].
    intros [[_ <-]|[_ Hi]]%lookup_insert_Some; simpl.
    + split; [done|]. intros [_ Hnot]%elem_of_difference.
      by apply Hnot, elem_of_singleton.
    + by apply (ok_ids _ _ _ Hless i).
  - intros i j ws. rewrite websockets_store.
    destruct (String.eqb _ _); [apply Hinj|].
    intros [[<- <-]|[Hne Hi]]%lookup_insert_Some
           [[<- Hj]|[Hne' Hj]]%lookup_insert_Some; try done.
    + by destruct (Hids _ _ Hj) as [_ []].
    + subst ws. by destruct (Hids _ _ Hi) as [_ []].
    + eauto.
Qed.

Lemma registry_ok_accept n L p :
  registry_ok n L p → (∀ id, id ∈ L → id < n) →
  registry_ok (S n) ({[n]} ∪ L) p.
Proof.
  intros [Hwf Hids Hinj] HL. split; [done | | done].
  intros i ws Hi. destruct (Hids _ _ Hi) as [Hlt Hnot]. split; [lia|].
  intros [Heq%elem_of_singleton|?]%elem_of_union; [lia | done].
Qed.

(** *** The end of a connection *)

Lemma collect_run this k q ws :
  websockets q !! k = Some ws →
  collect this k q =
    if Nat.eqb (_id this) (_id ws) then
      (Ok tt, discard k q, [Log Info "Collecting instance: %s" [AStr k]])
    else (Ok tt, q, []).
Proof.
  intros Hws. unfold collect. rewrite bind_run. simpl. rewrite Hws. simpl.
  rewrite bind_run. simpl. destruct (_id this =? _id ws)%nat; run_binds; done.
Qed.

Lemma collect_none this k q :
  websockets q !! k = None →
  collect this k q =
    (Throw (TypeError "Cannot read property of undefined: _id"), q, []).
Proof.
  intros Hws. unfold collect. rewrite bind_run. simpl. by rewrite Hws.
Qed.

Lemma collect_cases this k q :
  collect this k q =
    (Throw (TypeError "Cannot read property of undefined: _id"), q, []) ∨
  collect this k q = (Ok tt, q, []) ∨
  collect this k q =
    (Ok tt, discard k q, [Log Info "Collecting instance: %s" [AStr k]]).
Proof.
  destruct (websockets q !! k) as [ws|] eqn:Hws.
  - rewrite (collect_run _ _ _ ws Hws). destruct (_ =? _)%nat; auto.
  - left. by apply collect_none.
Qed.

Lemma collect_registry n L this instance :
  preserves (registry_ok n L) (collect this instance).
Proof.
  intros p Hp. destruct (collect_cases this instance p) as [->|[->| ->]];
    simpl; [done..|]. by apply registry_ok_discard.
Qed.

Lemma collect_settings c this instance :
  preserves (λ p, settings p = c) (collect this instance).
Proof.
  intros p Hp. by destruct (collect_cases this instance p) as [->|[->| ->]].
Qed.

Lemma emits_collect Q this instance :
  (∀ level msg args, Q (Log level msg args)) →
  emits Q (collect this instance).
Proof.
  intros HQ p. destruct (collect_cases this instance p) as [->|[->| ->]];
    simpl; by repeat constructor.
Qed.

Lemma emits_collecting this k :
  emits (λ e, ∃ k', e = Log Info "Collecting instance: %s" [AStr k'])
    (collect this k).
Proof.
  intros p. destruct (collect_cases this k p) as [->|[->| ->]];
    simpl; repeat constructor. by exists k.
Qed.

(** Discarding a list of keys. *)
Lemma websockets_discard_all p l j :
  websockets (foldl (λ q k, discard k q) p l) !! j =
    if bool_decide (j ∈ l) then None else websockets p !! j.
Proof.
  revert p. induction l as [|k l IH]; intros p; [done|].
  simpl. rewrite IH, websockets_discard.
  destruct (decide (j = k)) as [->|Hne].
  - rewrite lookup_delete_eq. rewrite (bool_decide_eq_true_2 (k ∈ k :: l)) by left.
    by case_bool_decide.
  - rewrite lookup_delete_ne by done.
    case_bool_decide as Hj.
    + rewrite bool_decide_eq_true_2; [done | by right].
    + rewrite bool_decide_eq_false_2; [done|].
      by intros [?|?]%elem_of_cons.
Qed.

Lemma registrations_discard_all p l j :
  registrations (foldl (λ q k, discard k q) p l) !! j =
    if bool_decide (j ∈ l) then None else registrations p !! j.
Proof.
  revert p. induction l as [|k l IH]; intros p; [done|].
  simpl. rewrite IH, registrations_discard.
  destruct (decide (j = k)) as [->|Hne].
  - rewrite lookup_delete_eq. rewrite (bool_decide_eq_true_2 (k ∈ k :: l)) by left.
    by case_bool_decide.
  - rewrite lookup_delete_ne by done.
    case_bool_decide as Hj.
    + rewrite bool_decide_eq_true_2; [done | by right].
    + rewrite bool_decide_eq_false_2; [done|].
      by intros [?|?]%elem_of_cons.
Qed.

Lemma discard_all_frame p l :
  let p' := foldl (λ q k, discard k q) p l in
  pollInterval p' = pollInterval p ∧ settings p' = settings p ∧
  proto (self_registrations p') = proto (self_registrations p) ∧
  proto (self_websockets p') = proto (self_websockets p).
Proof.
  revert p. induction l as [|k l IH]; intros p; [done|].
  simpl. by destruct (IH (discard k p)) as (-> & -> & -> & ->).
Qed.

Lemma registry_wf_discard_all p l :
  registry_wf p → registry_wf (foldl (λ q k, discard k q) p l).
Proof.
  revert p. induction l as [|k l IH]; intros p Hp; [done|].
  simpl. by apply IH, registry_wf_discard.
Qed.

(** The loop of [_end] over the entries. *)
Lemma for_in_keys_collect this ks q :
  NoDup ks →
  dom (registrations q) = dom (websockets q) →
  (∀ k, k ∈ ks → is_Some (websockets q !! k)) →
  for_in_keys ks (collect this) q =
    (Ok tt,
     foldl (λ q k, discard k q) q
       (List.filter (λ k, collects this (websockets q !! k)) ks),
     (λ k, Log Info "Collecting instance: %s" [AStr k]) <$>
       List.filter (λ k, collects this (websockets q !! k)) ks).
Proof.
  intros Hnd. revert q. induction Hnd as [|k ks Hk Hnd IH]; intros q Hdom Hall;
    [done|].
  destruct (Hall k) as [ws Hws]; [left|].
  simpl. rewrite bind_run. simpl. rewrite bind_run.
  rewrite has_property_own.
  2: { apply elem_of_dom. fold (registrations q). rewrite Hdom.
       apply elem_of_dom. eauto. }
  rewrite (collect_run _ _ _ ws Hws). rewrite Hws. simpl.
  assert (Hrest : ∀ k', k' ∈ ks → k' ≠ k).
  { intros k' Hk' ->. done. }
  destruct (_id this =? _id ws)%nat eqn:Hid; simpl.
  - rewrite IH.
    + simpl.
      assert (Hfilter :
        List.filter (λ k0, collects this (websockets (discard k q) !! k0)) ks =
        List.filter (λ k0, collects this (websockets q !! k0)) ks).
      { apply List.filter_ext_in. intros k' Hk'%list_elem_of_In.
        rewrite websockets_discard, lookup_delete_ne; [done|].
        apply not_eq_sym. by apply Hrest. }
      by rewrite Hfilter.
    + by rewrite registrations_discard, websockets_discard, !dom_delete_L, Hdom.
    + intros k' Hk'. rewrite websockets_discard, lookup_delete_ne.
      * apply Hall. by right.
      * apply not_eq_sym. by apply Hrest.
  - rewrite IH; [done | done |]. intros k' Hk'. apply Hall. by right.
Qed.

(** The loop of [_end] over the inherited keys: the first one makes the
    body throw. *)
Lemma for_in_keys_inherited this ks q :
  (∀ k, k ∈ ks → has_property (self_registrations q) k = true ∧
                 websockets q !! k = None) →
  for_in_keys ks (collect this) q =
    (match ks with
     | [] => Ok tt
     | _ :: _ => Throw (TypeError "Cannot read property of undefined: _id")
     end, q, []).
Proof.
  destruct ks as [|k ks]; [done|]. intros Hall.
  destruct (Hall k) as [Hhas Hnone]; [left|].
  simpl. rewrite bind_run. simpl. rewrite bind_run, Hhas.
  by rewrite collect_none.
Qed.

(** [_end], in full, on a well formed registry: it discards the keys
    under which the connection is stored and logs each; then an inherited
    key, if there is one, makes it throw. *)
Lemma end_run this p :
  registry_wf p →
  _end this p =
    (match inherited (self_registrations p) with
     | [] => Ok tt
     | _ :: _ => Throw (TypeError "Cannot read property of undefined: _id")
     end,
     foldl (λ q k, discard k q) p (collected this p),
     (λ k, Log Info "Collecting instance: %s" [AStr k]) <$> collected this p).
Proof.
  intros Hwf. pose proof Hwf as [Hdom Horder Hnd _].
  unfold _end, for_in, for_in_list. rewrite bind_run. simpl.
  rewrite for_in_keys_app, bind_run.
  rewrite for_in_keys_collect; [|by apply NoDup_own_keys | done |].
  2: { intros k Hk. rewrite elem_of_own_keys in Hk.
       apply elem_of_dom. rewrite <-Hdom. apply elem_of_dom. by apply Horder. }
  fold (collected this p). simpl.
  rewrite for_in_keys_inherited.
  - simpl. rewrite app_nil_r. by destruct (inherited (self_registrations p)).
  - intros k [Hk Hp]%elem_of_inherited.
    destruct (discard_all_frame p (collected this p)) as (_ & _ & Hproto & _).
    split.
    + unfold has_property, proto_keys. rewrite Hproto.
      fold (proto_keys (self_registrations p)).
      rewrite (bool_decide_eq_true_2 (k ∈ proto_keys (self_registrations p)))
        by done.
      apply orb_true_r.
    + rewrite websockets_discard_all.
      assert (websockets p !! k = None) as ->; [|by case_bool_decide].
      apply not_elem_of_dom. rewrite <-Hdom. by apply not_elem_of_dom.
Qed.

Lemma elem_of_collected this p k :
  registry_wf p →
  k ∈ collected this p ↔ collects this (websockets p !! k) = true.
Proof.
  intros [Hdom Horder Hnd _]. unfold collected.
  rewrite list_elem_of_In, List.filter_In, <-list_elem_of_In, elem_of_own_keys.
  split; [by intros [_ ?]|]. intros Hc. split; [|done].
  apply Horder. apply elem_of_dom. rewrite Hdom. apply elem_of_dom.
  by destruct (websockets p !! k).
Qed.

(** *** Registration *)

Lemma readonly_scan_resources rs registration response :
  readonly (scan_resources rs registration response).
Proof.
  revert response. induction rs as [|r rs IH]; intros response; [done|].
  simpl. apply readonly_bind; [apply readonly_deref | intros kind].
  case_bool_decide; [|done].
  apply readonly_bind; [done | by intros _].
Qed.

Lemma emits_scan_resources Q rs registration response :
  (∀ level msg args, Q (Log level msg args)) →
  emits Q (scan_resources rs registration response).
Proof.
  intros HQ. revert response.
  induction rs as [|r rs IH]; intros response; [apply emits_ret|].
  simpl. apply emits_bind; [apply emits_deref | intros kind].
  case_bool_decide; [|done].
  apply emits_bind; [by apply emits_tell | by intros _].
Qed.

(** The loop over the resources for a frame that is a registration. *)
Lemma scan_resources_run rs registration response p :
  scan_resources rs (frame registration) response p =
    (Ok (from_option Some response (last (matching rs registration))), p,
     replicate (length (matching rs registration))
       (Log Info "Accepting valid registration response" [])).
Proof.
  revert response. induction rs as [|r rs IH]; intros response; [done|].
  simpl. unfold matching in *. simpl. rewrite bind_run. simpl.
  destruct (String.eqb_spec (resource_resource r)
              (resource (changeKind registration))) as [Heq|Hne].
  - rewrite bool_decide_eq_true_2 by (by rewrite Heq).
    rewrite bind_run. simpl. rewrite IH. simpl. rewrite last_cons.
    by destruct (last _).
  - rewrite bool_decide_eq_false_2 by (intros [= ?]; congruence).
    rewrite IH. done.
Qed.

(** The loop over the resources for a frame without a [changeKind]. *)
Lemma scan_resources_stray r rs f response p :
  frame_changeKind f = None →
  scan_resources (r :: rs) f response p =
    (Throw (TypeError "Cannot read property of undefined: resource"), p, []).
Proof. intros Hf. simpl. rewrite bind_run. simpl. by rewrite Hf. Qed.

Section Loop.
Context `{JSON} `{Watershed}.

Lemma register_after websocket text p :
  after (_register websocket text p) =
    match JSON_parse text with
    | Ok (Some f) => store websocket f p
    | _ => p
    end.
Proof.
  unfold _register. rewrite bind_run. simpl.
  destruct (JSON_parse text) as [[f|]|ex]; [|done..].
  simpl. do 3 (rewrite bind_run; simpl).
  match goal with |- after (?m ?q) = _ => enough (readonly m) by done end.
  apply readonly_bind; [done | intros self].
  apply readonly_bind; [apply readonly_scan_resources | intros [r|]].
  - apply readonly_bind; [done | intros s]. apply readonly_send.
  - apply readonly_bind; [apply readonly_deref | by intros kind].
Qed.

Lemma emits_register Q websocket text :
  (∀ level msg args, Q (Log level msg args)) →
  (∀ data, Q (WsSend websocket data)) →
  emits Q (_register websocket text).
Proof.
  intros HLog HSend.
  apply emits_bind; [apply emits_lift | intros parsed].
  apply emits_bind; [apply emits_deref | intros registration].
  apply emits_bind; [apply emits_modify | intros _].
  apply emits_bind; [apply emits_modify | intros _].
  apply emits_bind; [apply emits_get | intros self].
  apply emits_bind; [by apply emits_scan_resources | intros [r|]].
  - apply emits_bind; [apply emits_lift | intros s]. by apply emits_send.
  - apply emits_bind; [apply emits_deref | intros kind]. by apply emits_tell.
Qed.

Lemma emits_scan_subResources Q regWebsocket regSubResources subResources
    strValue :
  (∀ level msg args, Q (Log level msg args)) →
  (∀ event, Q (Emit event)) →
  (∀ ws, regWebsocket = Some ws → Q (WsSend ws strValue)) →
  emits Q (scan_subResources regWebsocket regSubResources subResources strValue).
Proof.
  intros HLog HEmit HSend.
  induction subResources as [|sub rest IH]; [apply emits_ret|].
  simpl. apply emits_bind; [apply emits_deref | intros l].
  destruct (negb _); [|done].
  destruct regWebsocket as [ws|]; simpl;
    [|intros p; constructor].
  intros p. rewrite bind_run. simpl. revert p.
  change (emits Q (send ws strValue ;;;
                   tell (Log Info "Published: %s" [log_str strValue]) ;;;
                   tell (Emit "item-published"))).
  apply emits_bind; [|intros _].
  - apply emits_send. auto.
  - apply emits_bind; [by apply emits_tell | intros _]. by apply emits_tell.
Qed.

Lemma emits_match_entry Q v strValue regWebsocket regChangeKind :
  (∀ level msg args, Q (Log level msg args)) →
  (∀ event, Q (Emit event)) →
  (∀ ws, regWebsocket = Some ws → Q (WsSend ws strValue)) →
  emits Q (match_entry v strValue regWebsocket regChangeKind).
Proof.
  intros HLog HEmit HSend.
  apply emits_bind; [apply emits_deref | intros ck].
  apply emits_bind; [apply emits_deref | intros kind].
  cbv zeta. case_bool_decide.
  - by apply emits_scan_subResources.
  - by apply emits_tell.
Qed.

Lemma emits_match_instance Q v strValue instance :
  (∀ level msg args, Q (Log level msg args)) →
  (∀ event, Q (Emit event)) →
  (∀ ws, Q (WsSend ws strValue)) →
  emits Q (match_instance v strValue instance).
Proof.
  intros HLog HEmit HSend.
  apply emits_bind; [apply emits_get | intros self].
  apply emits_match_entry; auto.
Qed.

(** Whatever the registry holds, and whether or not the callback throws:
    every call of [send] it makes carries the one [strValue], and the only
    write it asks for is that of the stamped value under the record's
    key. *)
Lemma emits_record Q bucketName record now :
  let v := set_published (Date_toString now) (value record) in
  (∀ level msg args, Q (Log level msg args)) →
  (∀ event, Q (Emit event)) →
  (∀ ws, Q (WsSend ws (strValue_of v))) →
  Q (MorayPutObject bucketName (key record) v (_mark (key record))) →
  emits Q (_record bucketName record now).
Proof.
  intros v HLog HEmit HSend HPut. unfold _record. fold v.
  apply emits_bind; [by apply emits_tell | intros _].
  intros p. rewrite bind_run, serialize_run. simpl.
  apply Forall_app. split.
  { unfold serialize_log. destruct (JSON_stringify_value v); by repeat constructor. }
  revert p. apply emits_bind; [|intros _; by apply emits_tell].
  apply emits_for_in. intros instance. by apply emits_match_instance.
Qed.

Lemma known_readonly cb err : known cb → readonly (cb err).
Proof.
  intros [->|[->|[[k ->]|[n ->]]]]; try done.
  - by destruct err.
  - destruct err as [e|]; simpl; [|done].
    by destruct (String.eqb _ _).
Qed.

Lemma known_emits cb err : known cb → emits known_effect (cb err).
Proof.
  assert (Hsetup : ∀ err, emits known_effect (_bucketSetupError err)).
  { intros [e|] p; repeat constructor. }
  intros [->|[->|[[k ->]|[n ->]]]]; try done.
  - destruct err as [e|]; [|apply (Hsetup None)].
    unfold _getBucketError.
    destruct (String.eqb _ _); [|apply (Hsetup (Some e))].
    apply emits_bind; [|intros _; apply (Hsetup (Some e))].
    intros p. repeat constructor.
  - intros p. by repeat constructor.
  - intros p. by repeat constructor.
Qed.

Lemma foldl_absorb_fixed w t :
  publisher (foldl absorb w t) = publisher w ∧
  accepted (foldl absorb w t) = accepted w ∧
  listening (foldl absorb w t) = listening w ∧
  uncaught (foldl absorb w t) = uncaught w ∧
  handles (foldl absorb w t) = handles w ∧
  history (foldl absorb w t) = history w ++ t.
Proof.
  revert w. induction t as [|e t IH]; intros w; simpl.
  - by rewrite app_nil_r.
  - destruct (IH (absorb w e)) as (-> & -> & -> & -> & -> & ->). simpl.
    by rewrite <-app_assoc.
Qed.

Lemma foldl_absorb_callbacks w t :
  Forall known (callbacks w) → Forall known_effect t →
  Forall known (callbacks (foldl absorb w t)).
Proof.
  revert w. induction t as [|e t IH]; intros w Hw Ht; [done|].
  apply Forall_cons in Ht as [He Ht]. simpl. apply IH; [|done].
  destruct e; simpl; try done; apply Forall_app; split; try done;
    by apply Forall_singleton.
Qed.

Lemma world_ok_boot options : world_ok options (boot options).
Proof.
  split; simpl; try done. apply registry_ok_empty.
Qed.

Lemma world_ok_after options w1 handler :
  keeps_order options w1 handler →
  world_ok options
    (match handler (publisher w1) with
     | (o, p, t) =>
         let w2 := foldl absorb (with_publisher p w1) t in
         match o with
         | Ok _ => w2
         | Throw ex => crash ex w2
         end
     end).
Proof.
  unfold keeps_order.
  destruct (handler (publisher w1)) as [[o p] t]. simpl.
  intros (Hreg & Hlis & [= Hbucket Hres] & Hcbs & Ht).
  pose proof (foldl_absorb_fixed (with_publisher p w1) t)
    as (Hp & Ha & Hl & _).
  pose proof (foldl_absorb_callbacks (with_publisher p w1) t Hcbs Ht) as Hk.
  assert (Hok : world_ok options (foldl absorb (with_publisher p w1) t)).
  { split; rewrite ?Hp, ?Ha, ?Hl; simpl; done. }
  destruct o; [done|]. destruct Hok. by split.
Qed.

Lemma readonly_keeps_order options w1 handler :
  readonly handler → emits known_effect handler →
  world_ok options w1 →
  keeps_order options w1 handler.
Proof.
  intros Hro Hem [Hreg Hlis Hbucket Hres Hcbs]. unfold keeps_order.
  rewrite Hro. split_and!; try done. unfold settings. by rewrite Hbucket, Hres.
Qed.

Lemma listener_keeps_order options w ev w1 handler :
  world_ok options w →
  listener w ev = Some (w1, handler) →
  keeps_order options w1 handler.
Proof.
  intros Hw Hl. pose proof Hw as [Hreg Hlis Hbucket Hres Hcbs].
  assert (Hset : settings (publisher w) = settings (new_Publisher options)).
  { unfold settings. by rewrite Hbucket, Hres. }
  destruct ev as [[ex|]|id text|id|id| |n err| | |item uuid cb|handle
                 |record now|err|]; simpl in Hl.
  - (* upgrade, accept throws *)
    injection Hl as <- <-. apply readonly_keeps_order; [| |done].
    + apply readonly_bind; [done | intros _].
      apply readonly_bind; [done | by intros _].
    + intros p. by repeat constructor.
  - (* upgrade *)
    injection Hl as <- <-. unfold keeps_order. simpl. split_and!; try done.
    + by apply registry_ok_accept.
    + intros id [->%elem_of_singleton|?%Hlis]%elem_of_union; lia.
    + by repeat constructor.
  - (* first text frame *)
    case_decide as Hid; [|done]. injection Hl as <- <-.
    unfold keeps_order. rewrite register_after. simpl. split_and!; try done.
    + destruct (JSON_parse text) as [[f|]|ex].
      * apply registry_ok_store; auto.
      * eapply registry_ok_listening; [done|].
        by intros x [Hx _]%elem_of_difference.
      * eapply registry_ok_listening; [done|].
        by intros x [Hx _]%elem_of_difference.
    + intros id' [Hid' _]%elem_of_difference. by apply Hlis.
    + by destruct (JSON_parse text) as [[f|]|ex].
    + by apply emits_register.
  - (* end *)
    case_decide; [|done]. injection Hl as <- <-. unfold keeps_order.
    split_and!; try done.
    + apply (preserves_for_in (registry_ok (accepted w) (listening w)));
        [|done]. intros k. apply collect_registry.
    + apply (preserves_for_in (λ p, settings p = _)); [|done].
      intros k. apply collect_settings.
    + apply emits_for_in. intros k. by apply emits_collect.
  - (* connection reset *)
    case_decide; [|done]. injection Hl as <- <-. unfold keeps_order.
    split_and!; try done.
    + apply (preserves_for_in (registry_ok (accepted w) (listening w)));
        [|done]. intros k. apply collect_registry.
    + apply (preserves_for_in (λ p, settings p = _)); [|done].
      intros k. apply collect_settings.
    + apply emits_for_in. intros k. by apply emits_collect.
  - (* moray connected *)
    injection Hl as <- <-. apply readonly_keeps_order; [done| |done].
    intros p. simpl. repeat (apply Forall_cons; split; [done|]).
    apply Forall_singleton. right. by left.
  - (* a moray callback *)
    destruct (callbacks w !! n) as [cb|] eqn:Hcb; [|done].
    injection Hl as <- <-.
    assert (Hknown : known cb) by (eapply Forall_lookup_1; eauto).
    apply readonly_keeps_order;
      [by apply known_readonly | by apply known_emits |].
    split; try done. simpl. by apply Forall_delete.
  - (* start *)
    injection Hl as <- <-. unfold keeps_order. simpl. split_and!; try done.
    + destruct Hreg as [[Hd Ho Hn] Hi Hj]. by split; [split|..].
    + by repeat constructor.
  - (* stop *)
    injection Hl as <- <-. apply readonly_keeps_order; [done| |done].
    intros p. by repeat constructor.
  - (* publish *)
    injection Hl as <- <-. apply readonly_keeps_order; [done| |done].
    intros p. apply Forall_singleton. do 3 right. by exists cb.
  - (* the interval fires *)
    case_decide; [|done]. injection Hl as <- <-.
    apply readonly_keeps_order; [done| |done].
    intros p. by repeat constructor.
  - (* a record *)
    case_decide; [|done]. injection Hl as <- <-.
    apply readonly_keeps_order; [apply readonly_record| |done].
    apply emits_record; try done. simpl. do 2 right. left. by eexists.
  - (* the query failed *)
    case_decide; [|done]. injection Hl as <- <-.
    apply readonly_keeps_order; [done| |done].
    intros p. by repeat constructor.
  - (* the query ended *)
    case_decide; [|done]. injection Hl as <- <-.
    apply readonly_keeps_order; [done| |done].
    intros p. by repeat constructor.
Qed.

Lemma step_ok options w ev : world_ok options w → world_ok options (step w ev).
Proof.
  intros Hw. unfold step, reaction. destruct (uncaught w); [done|].
  destruct (listener w ev) as [[w1 handler]|] eqn:Hl; [|done].
  by apply world_ok_after, (listener_keeps_order options w ev).
Qed.

(** Every world the event loop can reach from the constructor is in
    order. *)
Lemma run_ok options evs : world_ok options (run (boot options) evs).
Proof.
  unfold run. generalize (world_ok_boot options).
  generalize (boot options). induction evs as [|ev evs IH]; intros w Hw; [done|].
  simpl. by apply IH, step_ok.
Qed.

Lemma run_wf options evs : registry_wf (publisher (run (boot options) evs)).
Proof. by destruct (run_ok options evs) as [[Hwf _ _] _ _ _ _]. Qed.

End Loop.

(** ** Intervals *)

Lemma readonly_keeps_pollInterval {A} (m : M A) :
  readonly m → keeps_pollInterval m.
Proof. intros Hm p. by rewrite Hm. Qed.

Lemma collect_pollInterval this instance :
  keeps_pollInterval (collect this instance).
Proof.
  intros p. by destruct (collect_cases this instance p) as [->|[->| ->]].
Qed.

Lemma for_in_pollInterval body :
  (∀ k, keeps_pollInterval (body k)) → keeps_pollInterval (for_in body).
Proof.
  intros Hbody p.
  apply (preserves_for_in (λ q, pollInterval q = pollInterval p)); [|done].
  intros k q Hq. by rewrite Hbody.
Qed.

Lemma known_sets_no_interval cb err :
  known cb → emits sets_no_interval (cb err).
Proof.
  assert (Hsetup : ∀ err, emits sets_no_interval (_bucketSetupError err)).
  { intros [e|] p; by repeat constructor. }
  intros [->|[->|[[k ->]|[n ->]]]]; try done.
  - destruct err as [e|]; [|apply (Hsetup None)].
    unfold _getBucketError.
    destruct (String.eqb _ _); [|apply (Hsetup (Some e))].
    apply emits_bind; [|intros _; apply (Hsetup (Some e))].
    intros p. by repeat constructor.
  - intros p. by repeat constructor.
  - intros p. by repeat constructor.
Qed.

Lemma foldl_absorb_intervals w t h :
  Forall sets_no_interval t →
  h ∉ intervals w → h ∉ intervals (foldl absorb w t).
Proof.
  revert w. induction t as [|e t IH]; intros w Ht Hh; [done|].
  apply Forall_cons in Ht as [He Ht]. simpl. apply IH; [done|].
  destruct e as [| | | | |[h'|]| | | | | |]; simpl; try done.
  by intros [? _]%elem_of_difference.
Qed.

Lemma start_or_not ev : ev = CallStart ∨ ev ≠ CallStart.
Proof. destruct ev; (by left) || (by right). Qed.

Section Intervals.
Context `{JSON} `{Watershed}.

(** Only [start] sets an interval or assigns [self.pollInterval]. *)
Lemma listener_intervals w ev w1 handler :
  Forall known (callbacks w) →
  listener w ev = Some (w1, handler) →
  ev ≠ CallStart →
  handles w1 = handles w ∧ intervals w1 = intervals w ∧
  emits sets_no_interval handler ∧ keeps_pollInterval handler.
Proof.
  intros Hcbs Hl Hev.
  assert (Hlog : ∀ level msg args, sets_no_interval (Log level msg args))
    by done.
  destruct ev as [[ex|]|id text|id|id| |n err| | |item uuid cb|handle
                 |record now|err|]; simpl in Hl; try done;
    repeat case_decide; try done.
  - injection Hl as <- <-. split_and!; try done. intros p. by repeat constructor.
  - injection Hl as <- <-. split_and!; try done. intros p. by repeat constructor.
  - injection Hl as <- <-. split_and!; try done.
    + by apply emits_register.
    + intros p. rewrite register_after. by destruct (JSON_parse text) as [[f|]|].
  - injection Hl as <- <-. split_and!; try done.
    + apply emits_for_in. intros k. by apply emits_collect.
    + apply for_in_pollInterval, collect_pollInterval.
  - injection Hl as <- <-. split_and!; try done.
    + apply emits_for_in. intros k. by apply emits_collect.
    + apply for_in_pollInterval, collect_pollInterval.
  - injection Hl as <- <-. split_and!; try done. intros p. by repeat constructor.
  - destruct (callbacks w !! n) as [cb|] eqn:Hcb; [|done].
    injection Hl as <- <-.
    assert (Hknown : known cb) by (eapply Forall_lookup_1; eauto).
    split_and!; try done.
    + by apply known_sets_no_interval.
    + by apply readonly_keeps_pollInterval, known_readonly.
  - injection Hl as <- <-. split_and!; try done. intros p. by repeat constructor.
  - injection Hl as <- <-. split_and!; try done. intros p. by repeat constructor.
  - injection Hl as <- <-. split_and!; try done. intros p. by repeat constructor.
  - injection Hl as <- <-. split_and!; try done.
    + by apply emits_record.
    + apply readonly_keeps_pollInterval, readonly_record.
  - injection Hl as <- <-. split_and!; try done. intros p. by repeat constructor.
  - injection Hl as <- <-. split_and!; try done. intros p. by repeat constructor.
Qed.

Lemma step_cleared h w ev :
  Forall known (callbacks w) → cleared h w → cleared h (step w ev).
Proof.
  intros Hcbs [Hlt Hh]. unfold step, reaction.
  destruct (uncaught w); [done|].
  destruct (listener w ev) as [[w1 handler]|] eqn:Hl; [|done].
  assert (Hcl : ∀ o p t,
            handler (publisher w1) = (o, p, t) →
            cleared h (foldl absorb (with_publisher p w1) t)).
  { intros o p t Hrun. destruct (start_or_not ev) as [->|Hev].
    - simpl in Hl. injection Hl as <- <-. injection Hrun as <- <- <-.
      split; simpl; [lia|].
      intros [Heq%elem_of_singleton|?]%elem_of_union; [lia | done].
    - destruct (listener_intervals w ev w1 handler Hcbs Hl Hev)
        as (Hhandles & Hintervals & Hemits & _).
      specialize (Hemits (publisher w1)). rewrite Hrun in Hemits.
      unfold cleared.
      destruct (foldl_absorb_fixed (with_publisher p w1) t)
        as (_ & _ & _ & _ & -> & _).
      split; simpl; [lia|].
      apply foldl_absorb_intervals; [done|]. simpl. by rewrite Hintervals. }
  destruct (handler (publisher w1)) as [[o p] t].
  specialize (Hcl o p t eq_refl). by destruct o.
Qed.

(** In a world that is in order, an interval that was cleared stays
    cleared, whatever happens next. *)
Lemma run_cleared options h w evs :
  world_ok options w → cleared h w → cleared h (run w evs).
Proof.
  unfold run. revert w. induction evs as [|ev evs IH]; intros w Hw Hh; [done|].
  simpl. apply IH; [by apply step_ok|].
  apply step_cleared; [by destruct Hw | done].
Qed.

(** The handle in [self.pollInterval] is one that [setInterval] has
    handed out. *)
Lemma run_pollInterval options evs h :
  pollInterval (publisher (run (boot options) evs)) = Some h →
  h < handles (run (boot options) evs).
Proof.
  unfold run.
  assert (Hboot : ∀ h, pollInterval (publisher (boot options)) = Some h →
                       h < handles (boot options)) by done.
  revert h. generalize (world_ok_boot options) Hboot.
  generalize (boot options). clear Hboot.
  induction evs as [|ev evs IH]; intros w Hw Hh; [done|].
  simpl. apply IH; [by apply step_ok|].
  intros h. unfold step, reaction. destruct (uncaught w); [by apply Hh|].
  destruct (listener w ev) as [[w1 handler]|] eqn:Hl; [|by apply Hh].
  assert (Hcl : ∀ o p t,
            handler (publisher w1) = (o, p, t) →
            pollInterval p = Some h →
            h < handles (foldl absorb (with_publisher p w1) t)).
  { intros o p t Hrun Hp.
    destruct (foldl_absorb_fixed (with_publisher p w1) t)
      as (_ & _ & _ & _ & -> & _). simpl.
    destruct (start_or_not ev) as [->|Hev].
    - simpl in Hl. injection Hl as <- <-. injection Hrun as <- <- <-.
      simpl in Hp. injection Hp as <-. simpl. lia.
    - destruct (listener_intervals w ev w1 handler (w_callbacks _ _ Hw) Hl Hev)
        as (-> & _ & _ & Hkeep).
      specialize (Hkeep (publisher w1)). rewrite Hrun in Hkeep. simpl in Hkeep.
      apply Hh. rewrite <-Hp, Hkeep.
      destruct ev; simpl in Hl; repeat case_match; try done;
        by injection Hl as <- <-. }
  destruct (handler (publisher w1)) as [[o p] t].
  intros Hp. specialize (Hcl o p t eq_refl).
  destruct (foldl_absorb_fixed (with_publisher p w1) t) as [Heq _].
  destruct o; simpl in *; rewrite Heq in Hp; by apply Hcl.
Qed.

End Intervals.

Lemma Date_toString_not_no now : Date_toString now ≠ "no".
Proof.
  unfold Date_toString. by destruct (Z.to_int now) as [[]|[]].
Qed.

Lemma WebSocket_eq ws ws' : _id ws = _id ws' → ws = ws'.
Proof. destruct ws, ws'. simpl. by intros ->. Qed.

(** ** Deliveries *)

Lemma deliver_send v strValue entry ws data :
  WsSend ws data ∈ deliver v strValue entry →
  entry.2 = Some ws ∧ data = strValue ∧ due v entry.1.2 = true.
Proof.
  unfold deliver, due. destruct (registration_of entry.1.2) as [r|];
    [|by intros ?%elem_of_nil].
  simpl.
  destruct (String.eqb_spec (resource (changeKind r))
              (resource (value_changeKind v))) as [Heq|Hne].
  - destruct (intersects _ _); [|by intros ?%elem_of_nil].
    destruct entry.2 as [ws'|]; [|by intros ?%elem_of_nil].
    intros Hin. repeat apply elem_of_cons in Hin as [Hin|Hin]; try done.
    + by injection Hin as -> ->.
    + by apply elem_of_nil in Hin.
  - intros Hin. apply elem_of_cons in Hin as [Hin|Hin]; [done|].
    by apply elem_of_nil in Hin.
Qed.

Lemma deliver_due v strValue k f ws :
  due v f = true →
  deliver v strValue (k, f, Some ws) =
    [WsSend ws strValue; Log Info "Published: %s" [log_str strValue];
     Emit "item-published"].
Proof.
  unfold deliver, due. simpl. destruct (registration_of f) as [r|]; [|done].
  simpl. by intros [-> ->]%andb_true_iff.
Qed.

Lemma deliver_not_due v strValue entry :
  due v entry.1.2 = false →
  deliver v strValue entry = [] ∨
  deliver v strValue entry =
    [Log Info "No registrations for value: %j" [AValue v]].
Proof.
  unfold deliver, due. destruct (registration_of entry.1.2) as [r|]; [|by left].
  simpl. destruct (String.eqb _ _); [|by right].
  simpl. intros ->. by left.
Qed.

Lemma deliver_put v strValue entry bucket k v' cb :
  MorayPutObject bucket k v' cb ∉ deliver v strValue entry.
Proof.
  unfold deliver. destruct (registration_of entry.1.2) as [r|];
    [|by intros ?%elem_of_nil].
  simpl. destruct (String.eqb _ _).
  - destruct (intersects _ _); [|by intros ?%elem_of_nil].
    destruct entry.2; [|by intros ?%elem_of_nil].
    intros Hin. repeat apply elem_of_cons in Hin as [Hin|Hin]; try done.
    by apply elem_of_nil in Hin.
  - intros Hin. apply elem_of_cons in Hin as [Hin|Hin]; [done|].
    by apply elem_of_nil in Hin.
Qed.

Lemma count_deliver_emit v strValue entry :
  count (is_emit "item-published") (deliver v strValue entry) =
  count is_send (deliver v strValue entry).
Proof.
  unfold deliver. destruct (registration_of _); [|done]. simpl.
  destruct (String.eqb _ _); [|done].
  destruct (intersects _ _); [|done]. by destruct entry.2.
Qed.

Lemma count_flat_map_ext {K} f f' (g : K → list Effect) l :
  (∀ k, count f (g k) = count f' (g k)) →
  count f (flat_map g l) = count f' (flat_map g l).
Proof.
  intros Hg. induction l as [|k l IH]; [done|].
  simpl. by rewrite !count_app, Hg, IH.
Qed.

Lemma elem_of_flat_map {K} (g : K → list Effect) l e :
  e ∈ flat_map g l ↔ ∃ k, k ∈ l ∧ e ∈ g k.
Proof.
  rewrite list_elem_of_In, in_flat_map. split; intros (k & Hk & He); exists k.
  - by rewrite !list_elem_of_In.
  - by rewrite <-!list_elem_of_In.
Qed.

Section Deliveries.
Context `{JSON} `{Watershed}.

Lemma count_serialize_log f v :
  (∀ level msg args, f (Log level msg args) = false) →
  count f (serialize_log v) = 0.
Proof.
  intros Hf. unfold serialize_log. destruct (JSON_stringify_value v); [done|].
  simpl. by rewrite Hf.
Qed.

Lemma elem_of_serialize_log e v :
  e ∈ serialize_log v → ∃ msg args, e = Log Error msg args.
Proof.
  unfold serialize_log. destruct (JSON_stringify_value v).
  - by intros ?%elem_of_nil.
  - intros ->%list_elem_of_singleton. eauto.
Qed.

(** What the loop of [_record] sends, whatever the registry holds: a send
    goes to the connection stored under an own key whose frame is a
    registration that is due the item. *)
Lemma match_entry_send v strValue regWebsocket regChangeKind p ws data :
  WsSend ws data ∈
    effects (match_entry v strValue regWebsocket regChangeKind p) →
  regWebsocket = Some ws ∧ data = strValue ∧
  ∃ subs,
    regChangeKind =
      Some (Some {| kind_resource := Some (resource (value_changeKind v));
                    kind_subResources := Some subs |}) ∧
    intersects subs (subResources (value_changeKind v)) = true.
Proof.
  unfold match_entry.
  destruct regChangeKind as [[[res subs]|]|]; simpl;
    [|by intros ?%elem_of_nil..].
  run_binds. case_bool_decide as Hres; simpl in Hres.
  - subst res. destruct subs as [subs|].
    + rewrite scan_subResources_run.
      destruct (intersects _ _) eqn:Hint; [|by intros ?%elem_of_nil].
      destruct regWebsocket as [ws'|]; [|by intros ?%elem_of_nil].
      destruct strValue as [s|]; simpl; intros Hin;
        repeat apply elem_of_cons in Hin as [Hin|Hin]; try done;
        try (by apply elem_of_nil in Hin);
        injection Hin as -> ->; eauto.
    + destruct (subResources (value_changeKind v)); simpl;
        by intros ?%elem_of_nil.
  - simpl. intros Hin. apply elem_of_cons in Hin as [Hin|Hin]; [done|].
    by apply elem_of_nil in Hin.
Qed.

Lemma for_each_effects {X} (l : list X) (body : X → M unit) p e :
  (∀ x, readonly (body x)) →
  e ∈ effects (for_each l body p) → ∃ x, x ∈ l ∧ e ∈ effects (body x p).
Proof.
  intros Hro. induction l as [|x l IH]; simpl; [by intros ?%elem_of_nil|].
  rewrite bind_run. pose proof (Hro x p) as Hx.
  destruct (body x p) as [[[[]|ex] q] t] eqn:Hrun; simpl in *; subst q.
  - intros [Hin|Hin]%elem_of_app.
    + exists x. rewrite Hrun. split; [left | done].
    + destruct (IH Hin) as (y & Hy & He). exists y. split; [by right | done].
  - intros Hin. exists x. rewrite Hrun. split; [left | done].
Qed.

Lemma record_sends_stored bucketName record now p ws data :
  let v := set_published (Date_toString now) (value record) in
  WsSend ws data ∈ effects (_record bucketName record now p) →
  ∃ k subs,
    websockets p !! k = Some ws ∧
    registrations_changeKind p k =
      Some (Some {| kind_resource := Some (resource (value_changeKind v));
                    kind_subResources := Some subs |}) ∧
    intersects subs (subResources (value_changeKind v)) = true ∧
    data = strValue_of v.
Proof.
  intros v. unfold _record. fold v.
  rewrite bind_run. simpl. rewrite bind_run, serialize_run.
  rewrite bind_run, for_in_snapshot.
  intros Hin. apply elem_of_cons in Hin as [Hin|Hin]; [done|].
  simpl in Hin. apply elem_of_app in Hin as [Hin|Hin].
  { by apply elem_of_serialize_log in Hin as (msg & args & ?). }
  assert (Hloop : WsSend ws data ∈
            effects (for_each (snapshot p)
                       (λ entry, match_entry v (strValue_of v) entry.1.2 entry.2)
                       p)).
  { destruct (for_each _ _ p) as [[[[]|ex] q] t]; simpl in *; [|done].
    apply elem_of_app in Hin as [Hin|Hin]; [done|].
    apply list_elem_of_singleton in Hin. done. }
  apply for_each_effects in Hloop as ([[k o] c] & Hk & Hsend).
  2: { intros x. apply readonly_match_entry. }
  unfold snapshot in Hk. apply list_elem_of_fmap in Hk as (k' & [= -> -> ->] & _).
  apply match_entry_send in Hsend as (Ho & -> & subs & Hc & Hint).
  by exists k', subs.
Qed.

End Deliveries.

(** ** The record callback and the registry *)

Section Marking.
Context `{JSON} `{Watershed}.

Lemma record_effects_unmarked v record l e :
  e ∈ Log Info EmptyString [ARecord record] :: serialize_log v ++
      flat_map (deliver v (strValue_of v)) l →
  ∀ bucket k v' cb, e ≠ MorayPutObject bucket k v' cb.
Proof.
  intros Hin bucket k v' cb ->.
  apply elem_of_cons in Hin as [Hin|Hin]; [done|].
  apply elem_of_app in Hin as [Hin|Hin].
  - by apply elem_of_serialize_log in Hin as (msg & args & ?).
  - apply elem_of_flat_map in Hin as (entry & _ & Hin).
    by apply deliver_put in Hin.
Qed.

(** C1. After a handshake whose instance is [__proto__] the loops over
    [self.registrations] meet inherited keys. In a reachable state where
    that is so, the record callback for a value that serializes delivers to
    the entries of the registry and then reads [changeKind.resource] under
    an inherited key, where there is no [changeKind]: it throws a
    [TypeError] and never reaches [putObject], so the item stays
    unpublished in the bucket. *)
Theorem record_stops_at_inherited_key options evs bucketName record now :
  let w := run (boot options) evs in
  let v := set_published (Date_toString now) (value record) in
  let r := _record bucketName record now (publisher w) in
  registered (publisher w) →
  is_Some (strValue_of v) →
  inherited (self_registrations (publisher w)) ≠ [] →
  outcome r = Throw (TypeError "Cannot read property of undefined: resource") ∧
  effects r =
    Log Info EmptyString [ARecord record] ::
    flat_map (deliver v (strValue_of v)) (entries (publisher w)) ∧
  (∀ bucket k v' cb, MorayPutObject bucket k v' cb ∉ effects r).
Proof.
  intros w v r Hreg Hstr Hinh.
  pose proof (run_wf options evs) as Hwf. fold w in Hwf.
  assert (Hrun : r =
    (Throw (TypeError "Cannot read property of undefined: resource"),
     publisher w,
     Log Info EmptyString [ARecord record] :: serialize_log v ++
     flat_map (deliver v (strValue_of v)) (entries (publisher w)))).
  { unfold r. rewrite record_run by done. fold v.
    by destruct (inherited (self_registrations (publisher w))). }
  rewrite Hrun. simpl. split_and!; [done| |].
  - f_equal. unfold serialize_log, strValue_of in *.
    destruct (JSON_stringify_value v); [done|]. by destruct Hstr.
  - intros bucket k v' cb Hin.
    by eapply record_effects_unmarked in Hin.
Qed.

(** C6. With inherited keys in [self.registrations], as after a handshake
    whose instance is [__proto__], the record callback for an item that no
    entry of the registry is due sends nothing, throws a [TypeError] at the
    first inherited key and never reaches [putObject]: the item is not
    marked. *)
Theorem unmatched_record_is_not_marked options evs bucketName record now :
  let w := run (boot options) evs in
  let v := set_published (Date_toString now) (value record) in
  let r := _record bucketName record now (publisher w) in
  registered (publisher w) →
  (∀ instance registration,
     registrations (publisher w) !! instance = Some (frame registration) →
     ¬ (resource (changeKind registration) =
          resource (value_changeKind (value record)) ∧
        ∃ sub, sub ∈ subResources (changeKind registration) ∧
               sub ∈ subResources (value_changeKind (value record)))) →
  inherited (self_registrations (publisher w)) ≠ [] →
  outcome r = Throw (TypeError "Cannot read property of undefined: resource") ∧
  after r = publisher w ∧
  (∀ ws data, WsSend ws data ∉ effects r) ∧
  (∀ bucket k v' cb, MorayPutObject bucket k v' cb ∉ effects r).
Proof.
  intros w v r Hreg Hnone Hinh.
  pose proof (run_wf options evs) as Hwf. fold w in Hwf.
  assert (Hquiet : ∀ entry, entry ∈ entries (publisher w) →
                            due v entry.1.2 = false).
  { intros [[k f] o] (_ & Hk & _)%elem_of_entries. simpl.
    destruct (due v f) eqn:Hdue; [|done].
    apply due_true in Hdue as (reg & -> & _ & Hres & Hsub).
    by destruct (Hnone k reg Hk). }
  assert (Hrun : r =
    (Throw (TypeError "Cannot read property of undefined: resource"),
     publisher w,
     Log Info EmptyString [ARecord record] :: serialize_log v ++
     flat_map (deliver v (strValue_of v)) (entries (publisher w)))).
  { unfold r. rewrite record_run; [|done..|].
    - fold v. by destruct (inherited (self_registrations (publisher w))).
    - fold v. intros entry Hentry Hdue. by rewrite Hquiet in Hdue. }
  rewrite Hrun. simpl. split_and!; [done..| |].
  - intros ws data Hin. apply elem_of_cons in Hin as [Hin|Hin]; [done|].
    apply elem_of_app in Hin as [Hin|Hin].
    + by apply elem_of_serialize_log in Hin as (msg & args & ?).
    + apply elem_of_flat_map in Hin as (entry & Hentry & Hin).
      apply deliver_send in Hin as (_ & _ & Hdue).
      by rewrite Hquiet in Hdue.
  - intros bucket k v' cb Hin.
    by eapply record_effects_unmarked in Hin.
Qed.

(** C4. When [JSON.stringify] throws on the value, the callback logs the
    error and goes on into the loop with [strValue] still [null]. In a
    reachable state whose entries are registrations, as soon as the loop
    comes to an entry that is due the item it calls [send(null)] on its
    connection, which throws: the exception leaves the callback, no frame
    with a payload is sent, [item-published] is not emitted and
    [putObject] is never reached, so the record is not marked. *)
Theorem unserializable_value_reaches_send options evs bucketName record now ex
    instance registration :
  let w := run (boot options) evs in
  let v := set_published (Date_toString now) (value record) in
  let r := _record bucketName record now (publisher w) in
  registered (publisher w) →
  JSON_stringify_value v = Throw ex →
  registrations (publisher w) !! instance = Some (frame registration) →
  resource (changeKind registration) =
    resource (value_changeKind (value record)) →
  (∃ sub, sub ∈ subResources (changeKind registration) ∧
          sub ∈ subResources (value_changeKind (value record))) →
  outcome r = Throw send_null ∧
  after r = publisher w ∧
  Log Error "Error serializing value: %s" [AStr (exn_message ex)] ∈ effects r ∧
  (∃ ws, last (effects r) = Some (WsSend ws None)) ∧
  (∀ ws s, WsSend ws (Some s) ∉ effects r) ∧
  (Emit "item-published" ∉ effects r) ∧
  (∀ bucket k v' cb, MorayPutObject bucket k v' cb ∉ effects r).
Proof.
  intros w v r Hreg Hthrow Hk Hres Hsub.
  pose proof (run_wf options evs) as Hwf. fold w in Hwf.
  assert (Hnull : strValue_of v = None)
    by (unfold strValue_of; by rewrite Hthrow).
  assert (Hdue : due v (frame registration) = true).
  { apply due_true. exists registration. by split_and!. }
  assert (is_Some (websockets (publisher w) !! instance)) as [ws0 Hws0].
  { apply elem_of_dom. rewrite <-(wf_dom _ Hwf). apply elem_of_dom. eauto. }
  assert (Hentry : (instance, frame registration, Some ws0) ∈
                   entries (publisher w)).
  { apply elem_of_entries. split_and!; [|done..].
    apply (wf_order _ Hwf). eauto. }
  destruct (first_such (λ entry, due v entry.1.2) _ _ Hentry Hdue)
    as (l1 & [[k f] o] & l2 & Hsplit & Hy & Hl1). simpl in Hy.
  assert (Hin : (k, f, o) ∈ entries (publisher w)).
  { rewrite Hsplit, elem_of_app. right. left. }
  apply elem_of_entries in Hin as (_ & Hf & Ho).
  assert (is_Some (websockets (publisher w) !! k)) as [ws Hws].
  { apply elem_of_dom. rewrite <-(wf_dom _ Hwf). apply elem_of_dom. eauto. }
  rewrite Hws in Ho. subst o.
  assert (Hrun : r =
    (Throw send_null, publisher w,
     Log Info EmptyString [ARecord record] :: serialize_log v ++
     flat_map (deliver v None) l1 ++ [WsSend ws None])).
  { unfold r. by apply (record_run_null _ _ _ _ l1 k f ws l2). }
  assert (Hlog : serialize_log v =
            [Log Error "Error serializing value: %s" [AStr (exn_message ex)]]).
  { unfold serialize_log. by rewrite Hthrow. }
  assert (Hquiet : ∀ e, e ∈ flat_map (deliver v None) l1 →
                        ∃ level msg args, e = Log level msg args).
  { intros e (entry & Hentry' & He)%elem_of_flat_map.
    destruct (deliver_not_due v None entry (Hl1 entry Hentry')) as [Hd|Hd];
      rewrite Hd in He.
    - by apply elem_of_nil in He.
    - apply list_elem_of_singleton in He as ->. eauto. }
  assert (Hall : ∀ e, e ∈ effects r →
                      (∃ level msg args, e = Log level msg args) ∨
                      e = WsSend ws None).
  { rewrite Hrun, Hlog. simpl. intros e Hin.
    apply elem_of_cons in Hin as [->|Hin]; [eauto|].
    apply elem_of_cons in Hin as [->|Hin]; [eauto|].
    apply elem_of_app in Hin as [Hin|Hin]; [left; by apply Hquiet|].
    apply list_elem_of_singleton in Hin. by right. }
  split_and!.
  - by rewrite Hrun.
  - by rewrite Hrun.
  - rewrite Hrun, Hlog. simpl. right. left.
  - exists ws. rewrite Hrun. simpl. rewrite Hlog. simpl.
    by rewrite last_cons, last_snoc.
  - intros ws' s [(l & m & a & ?)|?]%Hall; done.
  - intros [(l & m & a & ?)|?]%Hall; done.
  - intros bucket k' v' cb [(l & m & a & ?)|?]%Hall; done.
Qed.

(** C10. The record callback stamps the value before it serializes it:
    [strValue] is the serialization of the value whose [published] field
    already holds the timestamp string, which is never ["no"]. Whatever the
    registry holds, every call of [send] the callback makes carries that
    [strValue], so every payload is the serialization of the stamped
    value; the only write the callback asks for is that of the same stamped
    value, in the bucket and under the record's key; and it asks for that
    write whenever it runs to its end. *)
Theorem record_one_value bucketName record now p :
  let v := set_published (Date_toString now) (value record) in
  let r := _record bucketName record now p in
  published v = Date_toString now ∧
  published v ≠ "no" ∧
  (∀ ws data, WsSend ws data ∈ effects r →
     data = strValue_of v ∧
     ∀ s, data = Some s → JSON_stringify_value v = Ok s) ∧
  (∀ bucket k v' cb, MorayPutObject bucket k v' cb ∈ effects r →
     bucket = bucketName ∧ k = key record ∧ v' = v) ∧
  (outcome r = Ok tt →
     MorayPutObject bucketName (key record) v (_mark (key record)) ∈ effects r).
Proof.
  intros v r.
  pose (Q := λ e : Effect,
          match e with
          | WsSend _ data => data = strValue_of v
          | MorayPutObject bucket k v' _ =>
              bucket = bucketName ∧ k = key record ∧ v' = v
          | _ => True
          end).
  assert (HQ : Forall Q (effects r)).
  { apply (emits_record Q); done. }
  rewrite Forall_forall in HQ.
  split_and!; try done.
  - apply Date_toString_not_no.
  - intros ws data Hin%HQ. simpl in Hin. subst data. split; [done|].
    intros s. unfold strValue_of.
    destruct (JSON_stringify_value v); [|done]. by intros [= ->].
  - intros bucket k v' cb Hin%HQ. done.
  - unfold r, _record. fold v. rewrite bind_run. simpl.
    rewrite bind_run, serialize_run. rewrite bind_run.
    destruct (for_in _ _) as [[[[]|ex] q] t]; simpl; [|done].
    intros _. right. rewrite !elem_of_app. right. right. left.
Qed.


End Marking.

(** ** The end of a connection *)

Lemma with_publisher_id w : with_publisher (publisher w) w = w.
Proof. by destruct w. Qed.

Lemma readonly_keeps_registry {A} (m : M A) : readonly m → keeps_registry m.
Proof. intros Hm p. by rewrite Hm. Qed.

Lemma collect_unlisted id this instance :
  preserves (unlisted id) (collect this instance).
Proof.
  intros p Hp. destruct (collect_cases this instance p) as [->|[->| ->]];
    [done..|].
  intros k ws'. simpl. rewrite websockets_discard.
  intros [_ Hk]%lookup_delete_Some. by apply (Hp k).
Qed.

Lemma store_unlisted id id' f p :
  id ≠ id' → unlisted id p → unlisted id (store {| _id := id' |} f p).
Proof.
  intros Hne Hun k ws. rewrite websockets_store.
  destruct (String.eqb _ _); [apply Hun|].
  intros [[_ <-]|[_ Hk]]%lookup_insert_Some; [done|]. by apply (Hun k).
Qed.

Section Unregister.
Context `{JSON} `{Watershed}.

Lemma end_frame this p :
  pollInterval (after (_end this p)) = pollInterval p ∧
  settings (after (_end this p)) = settings p.
Proof.
  split.
  - apply for_in_pollInterval, collect_pollInterval.
  - apply (preserves_for_in (λ q, settings q = settings p)); [|done].
    intros k. apply collect_settings.
Qed.

(** The registry after [_end]: the entries that held the connection are
    gone, the others are as they were. *)
Lemma end_after this p :
  registry_wf p →
  let p' := after (_end this p) in
  (∀ j, websockets p' !! j =
        if collects this (websockets p !! j) then None else websockets p !! j) ∧
  (∀ j, registrations p' !! j =
        if collects this (websockets p !! j) then None
        else registrations p !! j).
Proof.
  intros Hwf p'. unfold p'. rewrite end_run by done. simpl.
  split; intros j.
  - rewrite websockets_discard_all.
    case_bool_decide as Hj.
    + apply elem_of_collected in Hj; [|done]. by rewrite Hj.
    + destruct (collects this (websockets p !! j)) eqn:Hc; [|done].
      destruct Hj. by apply elem_of_collected.
  - rewrite registrations_discard_all.
    case_bool_decide as Hj.
    + apply elem_of_collected in Hj; [|done]. by rewrite Hj.
    + destruct (collects this (websockets p !! j)) eqn:Hc; [|done].
      destruct Hj. by apply elem_of_collected.
Qed.

(** X1. On a registry whose two objects go together, [_end] removes
    every entry that holds the connection that ended; the entries of other
    connections, their registrations, the poll interval and the settings are
    as they were; the two objects still go together; all the handler does
    besides is log the instances it collects. It returns when the loop meets
    no inherited key; when it meets one, it throws a [TypeError] there,
    after the entries were removed. [_connectionReset] does the same. *)
Theorem end_removes_connection this p :
  registry_wf p →
  let p' := after (_end this p) in
  outcome (_end this p) =
    match inherited (self_registrations p) with
    | [] => Ok tt
    | _ :: _ => Throw (TypeError "Cannot read property of undefined: _id")
    end ∧
  _connectionReset this p = _end this p ∧
  unlisted (_id this) p' ∧
  (∀ j ws, websockets p !! j = Some ws → _id ws ≠ _id this →
     websockets p' !! j = Some ws ∧
     registrations p' !! j = registrations p !! j) ∧
  dom (registrations p') = dom (websockets p') ∧
  registry_wf p' ∧
  (∀ e, e ∈ effects (_end this p) →
     ∃ k, e = Log Info "Collecting instance: %s" [AStr k]) ∧
  pollInterval p' = pollInterval p ∧
  settings p' = settings p.
Proof.
  intros Hwf p'. destruct (end_after this p Hwf) as [Hws Hrs].
  destruct (end_frame this p) as [Hpoll Hset].
  assert (Hemit : Forall (λ e, ∃ k, e = Log Info "Collecting instance: %s" [AStr k])
                    (effects (_end this p))).
  { apply emits_for_in. intros k. apply emits_collecting. }
  rewrite Forall_forall in Hemit.
  assert (Hwf' : registry_wf p').
  { unfold p'. rewrite end_run by done. simpl.
    by apply registry_wf_discard_all. }
  split_and!; try done.
  - by rewrite end_run.
  - intros j ws. unfold p'. rewrite Hws.
    destruct (websockets p !! j) as [ws'|] eqn:Hj; simpl; [|done].
    destruct (_id this =? _id ws')%nat eqn:Hid; [done|].
    intros [= ->] Heq. apply Nat.eqb_neq in Hid. congruence.
  - intros j ws Hj Hne. unfold p'. rewrite Hws, Hrs, Hj. simpl.
    apply not_eq_sym, Nat.eqb_neq in Hne. by rewrite Hne.
  - by destruct Hwf'.
Qed.

(** An [end] event of an accepted connection. *)
Lemma step_end w id :
  uncaught w = None → id < accepted w →
  publisher (step w (WsEnd id)) = after (_end {| _id := id |} (publisher w)) ∧
  step w (WsConnectionReset id) = step w (WsEnd id).
Proof.
  intros Hun Hid. split; [|reflexivity].
  unfold step, reaction. rewrite Hun. simpl. rewrite decide_True by done.
  destruct (_end {| _id := id |} (publisher w)) as [[o p] t]. simpl.
  destruct (foldl_absorb_fixed (with_publisher p w) t) as [Hp _].
  by destruct o.
Qed.

(** X2. In a world the event loop can reach, the [end] of a connection
    that is stored in the registry removes exactly the one entry that holds
    it, from both halves of the registry, and the listener count that
    [/change-feeds/stats] reports goes down by one. [connectionReset] does
    the same. *)
Theorem end_unregisters_one options evs id instance :
  let w := run (boot options) evs in
  uncaught w = None →
  websockets (publisher w) !! instance = Some {| _id := id |} →
  let w' := step w (WsEnd id) in
  registrations (publisher w') = delete instance (registrations (publisher w)) ∧
  websockets (publisher w') = delete instance (websockets (publisher w)) ∧
  (∃ n,
     _getStats (publisher w) =
       [SendStats {| listeners := S n;
                     stats_registrations := Some (registrations (publisher w)) |};
        Next] ∧
     _getStats (publisher w') =
       [SendStats {| listeners := n;
                     stats_registrations :=
                       Some (delete instance (registrations (publisher w))) |};
        Next]) ∧
  step w (WsConnectionReset id) = w'.
Proof.
  intros w Hun Hws w'.
  destruct (run_ok options evs) as [[Hwf Hids Hinj] _ _ _ _].
  fold w in Hwf, Hids, Hinj. pose proof (wf_dom _ Hwf) as Hdom.
  destruct (Hids _ _ Hws) as [Hid _]. simpl in Hid.
  destruct (step_end w id Hun Hid) as (Hp & Hreset).
  destruct (end_after {| _id := id |} (publisher w) Hwf) as (Hw & Hr).
  assert (Hc : ∀ j, collects {| _id := id |} (websockets (publisher w) !! j)
                    = bool_decide (j = instance)).
  { intros j. destruct (websockets (publisher w) !! j) as [ws|] eqn:Hj; simpl.
    - case_bool_decide as Hji.
      + subst j. rewrite Hws in Hj. injection Hj as <-. apply Nat.eqb_refl.
      + apply Nat.eqb_neq. intros Heq. apply Hji, (Hinj _ _ ws); [done|].
        rewrite Hws. f_equal. by apply WebSocket_eq.
    - case_bool_decide as Hji; [|done]. subst j. by rewrite Hws in Hj. }
  assert (Hregs : registrations (publisher w') =
                  delete instance (registrations (publisher w))).
  { unfold w'. rewrite Hp. apply map_eq. intros j. rewrite Hr, Hc.
    case_bool_decide as Hj.
    - subst j. by rewrite lookup_delete_eq.
    - by rewrite lookup_delete_ne. }
  split_and!; try done.
  - unfold w'. rewrite Hp. apply map_eq. intros j. rewrite Hw, Hc.
    case_bool_decide as Hj.
    + subst j. by rewrite lookup_delete_eq.
    + by rewrite lookup_delete_ne.
  - assert (is_Some (registrations (publisher w) !! instance)) as Hsome.
    { apply elem_of_dom. rewrite Hdom. apply elem_of_dom. eauto. }
    exists (pred (size (registrations (publisher w)))).
    unfold _getStats. rewrite Hregs, map_size_delete_Some by done.
    split; [|done]. do 3 f_equal.
    destruct Hsome as [r Hr'].
    assert (size (registrations (publisher w)) ≠ 0); [|lia].
    intros Hz%map_size_empty_inv. by rewrite Hz, lookup_empty in Hr'.
Qed.

(** X3. In a world the event loop can reach and whose registry has no
    inherited key, the [end] of an accepted connection that no registry
    entry holds (it never sent its frame, or its instance was taken over by
    another connection) changes nothing at all and is not even logged. *)
Theorem end_of_unlisted_connection options evs id :
  let w := run (boot options) evs in
  id < accepted w →
  unlisted id (publisher w) →
  inherited (self_registrations (publisher w)) = [] →
  step w (WsEnd id) = w ∧ step w (WsConnectionReset id) = w.
Proof.
  intros w Hid Hun Hinh.
  pose proof (run_wf options evs) as Hwf. fold w in Hwf.
  destruct (uncaught w) eqn:Hcrash.
  { split; unfold step, reaction; by rewrite Hcrash. }
  enough (step w (WsEnd id) = w) by done.
  assert (Hnone : collected {| _id := id |} (publisher w) = []).
  { destruct (collected _ _) as [|k l] eqn:Hc; [done|].
    assert (Hk : k ∈ collected {| _id := id |} (publisher w))
      by (rewrite Hc; left).
    apply elem_of_collected in Hk; [|done].
    destruct (websockets (publisher w) !! k) as [ws|] eqn:Hws; [|done].
    simpl in Hk. apply Nat.eqb_eq in Hk. by destruct (Hun _ _ Hws). }
  assert (Hrun : _end {| _id := id |} (publisher w) = (Ok tt, publisher w, [])).
  { rewrite end_run by done. by rewrite Hinh, Hnone. }
  unfold step, reaction. rewrite Hcrash. simpl. rewrite decide_True by done.
  rewrite Hrun. simpl. apply with_publisher_id.
Qed.

End Unregister.

(** ** Connections *)

Section Connections.
Context `{JSON} `{Watershed}.


Lemma run_crashed w evs : is_Some (uncaught w) → run w evs = w.
Proof.
  intros [ex Hex]. induction evs as [|ev evs IH]; [done|].
  change (run (step w ev) evs = w).
  replace (step w ev) with w; [done|].
  unfold step, reaction. by rewrite Hex.
Qed.

(** What a turn of the event loop does to the connections that were
    accepted and to those still to be heard. *)
Lemma step_connections w ev :
  (accepted (step w ev) = accepted w ∧ listening (step w ev) = listening w) ∨
  (ev = Upgrade None ∧ accepted (step w ev) = S (accepted w) ∧
   listening (step w ev) = {[accepted w]} ∪ listening w) ∨
  (∃ id text, ev = WsText id text ∧ id ∈ listening w ∧
     accepted (step w ev) = accepted w ∧
     listening (step w ev) = listening w ∖ {[id]}).
Proof.
  destruct (uncaught w) as [ex|] eqn:Hun.
  { left. unfold step, reaction. by rewrite Hun. }
  destruct (listener w ev) as [[w1 handler]|] eqn:Hl.
  2: { left. unfold step, reaction. by rewrite Hun, Hl. }
  assert (Hfix : accepted (step w ev) = accepted w1 ∧
                 listening (step w ev) = listening w1).
  { unfold step, reaction. rewrite Hun, Hl.
    destruct (handler (publisher w1)) as [[o p] t].
    destruct (foldl_absorb_fixed (with_publisher p w1) t) as (_ & Ha & Hli & _).
    by destruct o. }
  destruct Hfix as [-> ->].
  destruct ev as [[ex|]|id text|id|id| |n err| | |item uuid cb|handle
                 |record now|err|]; simpl in Hl;
    repeat case_decide; try done;
    try (injection Hl as <- <-; by left).
  - injection Hl as <- <-. right. by left.
  - injection Hl as <- <-. right. right. by exists id, text.
  - destruct (callbacks w !! n); [|done]. injection Hl as <- <-. by left.
Qed.

Lemma step_heard id w ev : heard id w → heard id (step w ev).
Proof.
  intros [Hlt Hnot]. unfold heard.
  destruct (step_connections w ev)
    as [[-> ->]|[(_ & -> & ->)|(id' & text & _ & _ & -> & ->)]].
  - done.
  - split; [lia|].
    intros [Heq%elem_of_singleton|?]%elem_of_union; [lia | done].
  - split; [done|]. by intros [? _]%elem_of_difference.
Qed.

Lemma run_heard id w evs : heard id w → heard id (run w evs).
Proof.
  revert w. induction evs as [|ev evs IH]; intros w Hw; [done|].
  simpl. by apply IH, step_heard.
Qed.

Lemma step_text_heard w id text :
  uncaught w = None → id ∈ listening w → id < accepted w →
  heard id (step w (WsText id text)).
Proof.
  intros Hw Hid Hlt. unfold step, reaction. rewrite Hw. simpl.
  rewrite decide_True by done.
  destruct (_register {| _id := id |} text (publisher (detach_text id w)))
    as [[o p] t].
  destruct (foldl_absorb_fixed (with_publisher p (detach_text id w)) t)
    as (_ & Ha & Hl & _).
  assert (Hnot : id ∉ listening w ∖ {[id]}).
  { intros [_ Hn]%elem_of_difference. by apply Hn, elem_of_singleton. }
  unfold heard. destruct o; simpl; by rewrite Ha, Hl.
Qed.

(** X6. The registration handshake is heard once. After the first text
    frame of a connection has reached the handler, whatever it held and
    whatever happens afterwards, a further text frame from that connection
    reaches no handler: the world is untouched by it. *)
Theorem text_frame_heard_once options evs id text later text' :
  let w := run (boot options) evs in
  id ∈ listening w →
  let w1 := run (step w (WsText id text)) later in
  step w1 (WsText id text') = w1.
Proof.
  intros w Hid w1.
  destruct (run_ok options evs) as [_ Hlis _ _ _]. fold w in Hlis.
  destruct (uncaught w1) as [ex|] eqn:Hun.
  { unfold step, reaction. by rewrite Hun. }
  destruct (uncaught w) as [ex|] eqn:Hw.
  { assert (Hw1 : w1 = w).
    { unfold w1. replace (step w (WsText id text)) with w.
      - apply run_crashed. rewrite Hw. eauto.
      - unfold step, reaction. by rewrite Hw. }
    rewrite Hw1 in Hun. congruence. }
  assert (Hheard : heard id w1).
  { apply run_heard, step_text_heard; auto. }
  unfold step, reaction. rewrite Hun. simpl.
  destruct Hheard as [_ Hnot]. by rewrite decide_False.
Qed.

End Connections.

(** ** Who is sent to *)

Section Recipients.
Context `{JSON} `{Watershed}.

(** X7. A record callback sends to nobody else: in a world the event loop
    can reach, every frame it sends goes to the connection stored for an
    instance whose registration has the item's resource and a subResource
    in common with the item, and carries the item's [strValue]. *)
Theorem record_sends_only_to_matching options evs bucketName record now ws data :
  let w := run (boot options) evs in
  let v := set_published (Date_toString now) (value record) in
  WsSend ws data ∈ effects (_record bucketName record now (publisher w)) →
  ∃ instance registration,
    registrations (publisher w) !! instance = Some (frame registration) ∧
    websockets (publisher w) !! instance = Some ws ∧
    resource (changeKind registration) =
      resource (value_changeKind (value record)) ∧
    (∃ sub, sub ∈ subResources (changeKind registration) ∧
            sub ∈ subResources (value_changeKind (value record))) ∧
    data = strValue_of v.
Proof.
  intros w v Hin.
  pose proof (run_wf options evs) as Hwf. fold w in Hwf.
  apply record_sends_stored in Hin
    as (k & subs & Hws & Hck & Hint%intersects_true & Hd).
  assert (is_Some (registrations (publisher w) !! k)) as [f Hf].
  { apply elem_of_dom. rewrite (wf_dom _ Hwf). apply elem_of_dom. eauto. }
  unfold registrations_changeKind in Hck. rewrite Hf in Hck.
  injection Hck as Hck.
  exists k,
    {| instance := frame_instance f;
       changeKind :=
         {| resource := resource (value_changeKind (value record));
            subResources := subs |} |}.
  split_and!; try done.
  rewrite Hf. f_equal. destruct f as [i c]. simpl in *. by subst c.
Qed.

(** The handlers that leave the registry alone: all but the three
    listeners of a connection. *)
Lemma listener_keeps_registry w ev w1 handler :
  Forall known (callbacks w) →
  listener w ev = Some (w1, handler) →
  (∀ id text, ev ≠ WsText id text) →
  (∀ id, ev ≠ WsEnd id) →
  (∀ id, ev ≠ WsConnectionReset id) →
  keeps_registry handler.
Proof.
  intros Hcbs Hl Htext Hend Hreset.
  destruct ev as [[ex|]|id text|id|id| |n err| | |item uuid cb|handle
                 |record now|err|]; simpl in Hl;
    try (by destruct (Htext id text));
    try (by destruct (Hend id)); try (by destruct (Hreset id));
    repeat case_decide; try done;
    try (injection Hl as <- <-; by apply readonly_keeps_registry).
  - destruct (callbacks w !! n) as [cb|] eqn:Hcb; [|done].
    injection Hl as <- <-. apply readonly_keeps_registry, known_readonly.
    eapply Forall_lookup_1; eauto.
  - injection Hl as <- <-. by intros p.
  - injection Hl as <- <-. apply readonly_keeps_registry, readonly_record.
Qed.

Lemma listener_publisher w ev w1 handler :
  listener w ev = Some (w1, handler) → publisher w1 = publisher w.
Proof.
  destruct ev as [[ex|]|id text|id|id| |n err| | |item uuid cb|handle
                 |record now|err|]; simpl;
    repeat case_decide; try done; try (by intros [= <- <-]).
  destruct (callbacks w !! n); [|done]. by intros [= <- <-].
Qed.

Lemma connection_event ev :
  (∃ id text, ev = WsText id text) ∨
  (∃ id, ev = WsEnd id ∨ ev = WsConnectionReset id) ∨
  ((∀ id text, ev ≠ WsText id text) ∧ (∀ id, ev ≠ WsEnd id) ∧
   (∀ id, ev ≠ WsConnectionReset id)).
Proof. destruct ev; eauto 6; by do 2 right. Qed.

(** Once a connection has been heard and no entry holds it, no entry will
    hold it again. *)
Lemma step_unlisted options id w ev :
  world_ok options w → heard id w → unlisted id (publisher w) →
  unlisted id (publisher (step w ev)).
Proof.
  intros Hw [Hlt Hnot] Hun. unfold step, reaction.
  destruct (uncaught w); [done|].
  destruct (listener w ev) as [[w1 handler]|] eqn:Hl; [|done].
  pose proof (listener_publisher w ev w1 handler Hl) as Hpub.
  assert (Hafter : unlisted id (after (handler (publisher w1)))).
  { destruct (connection_event ev)
      as [(id' & text & ->)|[(id' & [->| ->])|(Htext & Hend & Hreset)]].
    - simpl in Hl. case_decide as Hid'; [|done]. injection Hl as <- <-.
      rewrite register_after. simpl.
      destruct (JSON_parse text) as [[f|]|ex]; [|done..].
      apply store_unlisted; [|done]. by intros ->.
    - simpl in Hl. case_decide; [|done]. injection Hl as <- <-.
      apply (preserves_for_in (unlisted id)); [|done].
      intros k. apply collect_unlisted.
    - simpl in Hl. case_decide; [|done]. injection Hl as <- <-.
      apply (preserves_for_in (unlisted id)); [|done].
      intros k. apply collect_unlisted.
    - destruct (listener_keeps_registry w ev w1 handler
                  (w_callbacks _ _ Hw) Hl Htext Hend Hreset (publisher w1))
        as [_ Hws].
      unfold unlisted, websockets. rewrite Hws, Hpub. apply Hun. }
  destruct (handler (publisher w1)) as [[o p] t]. simpl in Hafter.
  destruct (foldl_absorb_fixed (with_publisher p w1) t) as [Hp _].
  destruct o; simpl; by rewrite Hp.
Qed.

Lemma run_unlisted options id w evs :
  world_ok options w → heard id w → unlisted id (publisher w) →
  world_ok options (run w evs) ∧ unlisted id (publisher (run w evs)).
Proof.
  revert w. induction evs as [|ev evs IH]; intros w Hw Hh Hu; [done|].
  apply IH; [by apply step_ok | by apply step_heard |].
  by apply (step_unlisted options).
Qed.

(** X8. Unregistration lasts. Once a connection that has had its text
    frame ends, no registry entry holds it any more, whatever happens
    afterwards, and no record callback ever sends to it again. *)
Theorem ended_connection_gets_nothing options evs id later record now data :
  let w := run (boot options) evs in
  uncaught w = None →
  heard id w →
  let w1 := run (step w (WsEnd id)) later in
  unlisted id (publisher w1) ∧
  WsSend {| _id := id |} data ∉ done_by w1 (FindRecord record now).
Proof.
  intros w Hun Hheard w1.
  pose proof (run_ok options evs) as Hw. fold w in Hw.
  pose proof (run_wf options evs) as Hwf. fold w in Hwf.
  destruct Hheard as [Hlt Hnot].
  destruct (step_end w id Hun Hlt) as (Hp & _).
  assert (Hgone : unlisted id (publisher (step w (WsEnd id)))).
  { rewrite Hp.
    destruct (end_after {| _id := id |} (publisher w) Hwf) as (Hws & _).
    intros k ws. rewrite Hws.
    destruct (websockets (publisher w) !! k) as [ws'|]; simpl; [|done].
    destruct (Nat.eqb_spec id (_id ws')) as [Heq|Hne]; [done|].
    intros [= ->]. congruence. }
  destruct (run_unlisted options id (step w (WsEnd id)) later)
    as [Hok Hun1]; [by apply step_ok | by apply step_heard | done |].
  fold w1 in Hok, Hun1. split; [done|].
  unfold done_by, reaction. destruct (uncaught w1); [apply not_elem_of_nil|].
  simpl. case_decide; [|apply not_elem_of_nil]. simpl.
  intros Hin. apply record_sends_stored in Hin as (k & subs & Hws & _).
  by apply Hun1 in Hws.
Qed.

End Recipients.

(** ** A whole tick *)


Section Tick.
Context `{JSON} `{Watershed}.





(** X10. A query that fails is only logged. After the interval has fired
    and the query has ended in [error], the warning is all there is: no
    signal, no frame, no write; the publisher object is as it was, the
    interval is still set, and its next firing makes the same query
    again. *)
Theorem failed_query_is_logged w h err :
  uncaught w = None →
  h ∈ intervals w →
  let query :=
    MorayFindObjects (name (morayBucket (publisher w))) "(published=no)" in
  let w' := run w [Tick h; FindError err] in
  history w' = history w ++ [query; Log Warn EmptyString [AErr err]] ∧
  publisher w' = publisher w ∧
  queries w' = queries w ∧
  intervals w' = intervals w ∧
  uncaught w' = None ∧
  done_by w' (Tick h) = [query].
Proof.
  intros Hun Hh query w'.
  assert (Hw' : w' =
    absorb (end_query (absorb w query)) (Log Warn EmptyString [AErr err])).
  { unfold w', run. simpl. unfold step at 2, reaction. rewrite Hun. simpl.
    rewrite decide_True by done. simpl. rewrite with_publisher_id.
    unfold step, reaction. simpl. rewrite Hun. simpl.
    by destruct w. }
  rewrite Hw'. simpl. split_and!; try done.
  - by rewrite <-app_assoc.
  - unfold done_by, reaction. simpl. rewrite Hun.
    by rewrite decide_True.
Qed.

End Tick.

(** ** Writes, publishing and starting *)

Lemma foldl_absorb_no_request w t :
  Forall no_request t →
  callbacks (foldl absorb w t) = callbacks w ∧
  queries (foldl absorb w t) = queries w ∧
  intervals (foldl absorb w t) = intervals w.
Proof.
  revert w. induction t as [|e t IH]; intros w Ht; [done|].
  apply Forall_cons in Ht as [He Ht]. simpl.
  destruct (IH (absorb w e) Ht) as (-> & -> & ->). by destruct e.
Qed.


Section Writes.
Context `{JSON} `{Watershed}.

(** A turn of the event loop whose handler returns. *)
Lemma step_returns w ev w1 handler p t :
  uncaught w = None →
  listener w ev = Some (w1, handler) →
  handler (publisher w1) = (Ok tt, p, t) →
  step w ev = foldl absorb (with_publisher p w1) t.
Proof.
  intros Hun Hl Hrun. unfold step, reaction. by rewrite Hun, Hl, Hrun.
Qed.



(** X12. [publish] hands the item to moray as it is, under the key it was
    given and in the configured bucket, without looking at it or changing
    the publisher; when moray completes the write, the caller's callback
    is called with moray's outcome, error or not. *)
Theorem publish_reports_outcome w item uuid cb err :
  uncaught w = None →
  let w1 := step w (CallPublish item uuid cb) in
  publisher w1 = publisher w ∧
  history w1 =
    history w ++
    [MorayPutObject (name (morayBucket (publisher w))) uuid item
       (λ err, tell (UserCallback cb err))] ∧
  done_by w1 (MorayReply (length (callbacks w)) err) = [UserCallback cb err] ∧
  history (step w1 (MorayReply (length (callbacks w)) err)) =
    history w1 ++ [UserCallback cb err] ∧
  callbacks (step w1 (MorayReply (length (callbacks w)) err)) = callbacks w.
Proof.
  intros Hun w1.
  assert (Hw1 : w1 =
    absorb w (MorayPutObject (name (morayBucket (publisher w))) uuid item
                (λ err, tell (UserCallback cb err)))).
  { unfold w1.
    rewrite (step_returns w _ w (publish item uuid cb) (publisher w)
               [MorayPutObject (name (morayBucket (publisher w))) uuid item
                  (λ err, tell (UserCallback cb err))]); [|done..].
    simpl. by rewrite with_publisher_id. }
  set (n := length (callbacks w)).
  assert (Hreply : step w1 (MorayReply n err) =
    absorb (take_callback n w1) (UserCallback cb err)).
  { rewrite (step_returns w1 _ (take_callback n w1)
               (tell (UserCallback cb err)) (publisher w1)
               [UserCallback cb err]).
    - simpl. by rewrite (with_publisher_id (take_callback _ w1)).
    - by rewrite Hw1.
    - rewrite Hw1. simpl. by rewrite list_lookup_middle.
    - done. }
  rewrite Hreply. rewrite Hw1. simpl. split_and!; try done.
  - unfold done_by, reaction. simpl. rewrite Hun.
    by rewrite list_lookup_middle.
  - by rewrite (delete_middle (callbacks w) []), app_nil_r.
Qed.

(** X13. [stop()] clears only the interval of the latest [start()].
    [start()] does not clear an interval that is already set: after two
    calls of [start()] and one of [stop()], the interval of the first call
    is still set and goes on querying the bucket. *)
Theorem stop_clears_latest_interval_only w :
  uncaught w = None →
  let first := handles w in
  let w' := run w [CallStart; CallStart; CallStop] in
  pollInterval (publisher w') = Some (S first) ∧
  first ∈ intervals w' ∧
  (S first ∉ intervals w') ∧
  done_by w' (Tick first) =
    [MorayFindObjects (name (morayBucket (publisher w))) "(published=no)"].
Proof.
  intros Hun first w'.
  assert (Hw' : w' =
    foldl absorb
      (with_publisher (set_pollInterval (Some (S first))
                         (set_pollInterval (Some first) (publisher w)))
         (take_handle (take_handle w)))
      [SetInterval first pollTime; SetInterval (S first) pollTime;
       ClearInterval (Some (S first)); MorayClose]).
  { unfold w', first. clear w' first. destruct w. simpl in Hun. subst.
    reflexivity. }
  assert (Hin : first ∈
    ({[S first]} ∪ ({[first]} ∪ intervals w)) ∖ ({[S first]} : gset nat)).
  { apply elem_of_difference. split.
    - apply elem_of_union_r, elem_of_union_l, elem_of_singleton. done.
    - rewrite elem_of_singleton. lia. }
  rewrite Hw'. simpl. split_and!; try done.
  - intros [_ Hn]%elem_of_difference. by apply Hn, elem_of_singleton.
  - unfold done_by, reaction. simpl. rewrite Hun.
    by rewrite decide_True.
Qed.

End Writes.

(** ** Before [start()] *)

Lemma known_dormant cb err : known cb → emits dormant (cb err).
Proof.
  assert (Hsetup : ∀ err, emits dormant (_bucketSetupError err)).
  { intros [e|] p; simpl.
    - by apply Forall_singleton.
    - apply Forall_cons. split; [done|]. apply Forall_singleton. by right. }
  intros [->|[->|[[k ->]|[n ->]]]]; try done.
  - destruct err as [e|]; [|apply (Hsetup None)].
    unfold _getBucketError.
    destruct (String.eqb _ _); [|apply (Hsetup (Some e))].
    apply emits_bind; [|intros _; apply (Hsetup (Some e))].
    intros p. by apply Forall_singleton.
  - intros p. by apply Forall_singleton.
  - intros p. by apply Forall_singleton.
Qed.

Lemma foldl_absorb_dormant w t :
  Forall dormant t → intervals w = ∅ → queries w = 0 →
  intervals (foldl absorb w t) = ∅ ∧ queries (foldl absorb w t) = 0.
Proof.
  revert w. induction t as [|e t IH]; intros w Ht Hi Hq; [done|].
  apply Forall_cons in Ht as [He Ht]. simpl. apply IH; [done| |].
  - destruct e as [| | | | |[h|]| | | | | |]; simpl; try done.
    rewrite Hi. apply set_eq. intros x. rewrite elem_of_difference.
    split; [by intros [? _] | by intros ?%elem_of_empty].
  - by destruct e.
Qed.

Section BeforeStart.
Context `{JSON} `{Watershed}.

(** The listeners that can run while no interval is set and no query is
    in flight, [start] apart. *)
Lemma listener_dormant w ev w1 handler :
  Forall known (callbacks w) → intervals w = ∅ → queries w = 0 →
  listener w ev = Some (w1, handler) → ev ≠ CallStart →
  emits dormant handler ∧ queries w1 = 0 ∧ history w1 = history w.
Proof.
  intros Hcbs Hi Hq Hl Hev.
  destruct ev as [[ex|]|id text|id|id| |n err| | |item uuid cb|handle
                 |record now|err|]; simpl in Hl; try done;
    repeat case_decide; try lia; try done;
    try (injection Hl as <- <-; split_and!; try done).
  - intros p. by repeat constructor.
  - intros p. by repeat constructor.
  - by apply emits_register.
  - apply emits_for_in. intros k. by apply emits_collect.
  - apply emits_for_in. intros k. by apply emits_collect.
  - intros p. simpl. apply Forall_cons. split; [done|].
    apply Forall_cons. split; [by left|]. by apply Forall_singleton.
  - destruct (callbacks w !! n) as [cb|] eqn:Hcb; [|done].
    injection Hl as <- <-. split_and!; try done.
    apply known_dormant. eapply Forall_lookup_1; eauto.
  - intros p. by repeat constructor.
  - intros p. by repeat constructor.
  - match goal with
    | Hin : _ ∈ intervals w |- _ =>
        rewrite Hi in Hin; by apply elem_of_empty in Hin
    end.
Qed.

Lemma step_asleep options w ev :
  world_ok options w → ev ≠ CallStart → asleep w → asleep (step w ev).
Proof.
  intros Hw Hev (Hi & Hq & Hp & Hh). unfold step, reaction.
  destruct (uncaught w); [done|].
  destruct (listener w ev) as [[w1 handler]|] eqn:Hl; [|done].
  pose proof (w_callbacks _ _ Hw) as Hcbs.
  destruct (listener_dormant w ev w1 handler Hcbs Hi Hq Hl Hev)
    as (Hemits & Hq1 & Hh1).
  destruct (listener_intervals w ev w1 handler Hcbs Hl Hev)
    as (_ & Hi1 & _ & Hkeep).
  pose proof (listener_publisher w ev w1 handler Hl) as Hpub.
  specialize (Hemits (publisher w1)). specialize (Hkeep (publisher w1)).
  destruct (handler (publisher w1)) as [[o p] t]. simpl in Hemits, Hkeep.
  assert (Hsleep : asleep (foldl absorb (with_publisher p w1) t)).
  { destruct (foldl_absorb_dormant (with_publisher p w1) t Hemits)
      as [Hi' Hq']; [simpl; congruence | done |].
    destruct (foldl_absorb_fixed (with_publisher p w1) t)
      as (Hp' & _ & _ & _ & _ & Hh').
    unfold asleep. rewrite Hi', Hq', Hp', Hh'. simpl.
    split_and!; try done; [congruence|].
    apply Forall_app. split; [by rewrite Hh1 | done]. }
  by destruct o.
Qed.

(** X14. Nothing is polled before [start()]. As long as [start()] has not
    been called, whatever else happens (connections, registrations,
    the bootstrap, [publish], even [stop]), no interval is set, the bucket is
    never queried, [self.pollInterval] is still [null], and the publisher
    emits no signal but those of the bootstrap: no [item-published] and no
    [no-items]. *)
Theorem nothing_polled_before_start options evs :
  Forall (λ ev, ev ≠ CallStart) evs →
  let w := run (boot options) evs in
  intervals w = ∅ ∧ queries w = 0 ∧ pollInterval (publisher w) = None ∧
  (∀ e, e ∈ history w → dormant e) ∧
  (∀ h, done_by w (Tick h) = []).
Proof.
  intros Hevs w.
  assert (Hsleep : asleep w).
  { unfold w, run.
    assert (Hboot : asleep (boot options)) by (by split_and!).
    generalize (world_ok_boot options) Hboot.
    generalize (boot options). clear Hboot w.
    induction evs as [|ev evs IH]; intros w Hw Hs; [done|].
    apply Forall_cons in Hevs as [Hev Hevs]. simpl.
    apply IH; [done | by apply step_ok | by apply (step_asleep options)]. }
  destruct Hsleep as (Hi & Hq & Hp & Hh). rewrite Forall_forall in Hh.
  split_and!; try done.
  intros h. unfold done_by, reaction. destruct (uncaught w); [done|].
  simpl. rewrite Hi. by rewrite decide_False by apply not_elem_of_empty.
Qed.

End BeforeStart.

(** ** The bootstrap, turn by turn *)

Section Bootstrap.
Context `{JSON} `{Watershed}.

Lemma with_publisher_take_callback n w :
  with_publisher (publisher w) (take_callback n w) = take_callback n w.
Proof. by destruct w. Qed.

Lemma step_connect w :
  uncaught w = None →
  step w MorayConnect =
    foldl absorb w
      [Log Info "moray: connected" []; Emit "moray-connected";
       MorayGetBucket (name (morayBucket (publisher w)))
         (_getBucketError _bucketSetupError)].
Proof.
  intros Hun.
  rewrite (step_returns w _ w _morayConnect (publisher w)
             [Log Info "moray: connected" []; Emit "moray-connected";
              MorayGetBucket (name (morayBucket (publisher w)))
                (_getBucketError _bucketSetupError)]); [|done..].
  by rewrite with_publisher_id.
Qed.

(** The bootstrap when the bucket is missing. *)
Lemma connect_then_create w e created :
  uncaught w = None →
  err_name e = "BucketNotFoundError" →
  let n := length (callbacks w) in
  let bucket := morayBucket (publisher w) in
  let w' := run w [MorayConnect; MorayReply n (Some e); MorayReply n created] in
  history w' =
    history w ++
    [Log Info "moray: connected" []; Emit "moray-connected";
     MorayGetBucket (name bucket) (_getBucketError _bucketSetupError);
     MorayCreateBucket (name bucket) (config bucket) _bucketSetupError;
     Log Error "Bucket was not loaded" [AErr e]] ++
    match created with
    | Some e' => [Log Error "Bucket was not loaded" [AErr e']]
    | None => [Log Info "Bucket successfully loaded" []; Emit "moray-ready"]
    end ∧
  callbacks w' = callbacks w ∧
  publisher w' = publisher w ∧
  intervals w' = intervals w ∧
  queries w' = queries w ∧
  uncaught w' = None.
Proof.
  intros Hun He n bucket w'.
  set (w1 := step w MorayConnect).
  assert (Hw1 : w1 =
    foldl absorb w
      [Log Info "moray: connected" []; Emit "moray-connected";
       MorayGetBucket (name bucket) (_getBucketError _bucketSetupError)])
    by (by apply step_connect).
  set (w2 := step w1 (MorayReply n (Some e))).
  assert (Hw2 : w2 =
    foldl absorb (take_callback n w1)
      [MorayCreateBucket (name bucket) (config bucket) _bucketSetupError;
       Log Error "Bucket was not loaded" [AErr e]]).
  { unfold w2.
    rewrite (step_returns w1 _ (take_callback n w1)
               (_getBucketError _bucketSetupError (Some e)) (publisher w1)
               [MorayCreateBucket (name bucket) (config bucket)
                  _bucketSetupError;
                Log Error "Bucket was not loaded" [AErr e]]).
    - by rewrite with_publisher_take_callback.
    - by rewrite Hw1.
    - rewrite Hw1. simpl. by rewrite list_lookup_middle.
    - rewrite Hw1. simpl. unfold _getBucketError. rewrite He. simpl.
      unfold _createBucket. by run_binds. }
  assert (Hcbs2 : callbacks w2 = callbacks w ++ [_bucketSetupError]).
  { rewrite Hw2, Hw1. simpl.
    by rewrite (delete_middle (callbacks w) []), app_nil_r. }
  assert (Hw' : w' =
    foldl absorb (take_callback n w2) (effects (_bucketSetupError created (publisher w2)))).
  { unfold w', run. simpl. fold w1. fold w2.
    rewrite (step_returns w2 _ (take_callback n w2)
               (_bucketSetupError created) (publisher w2)
               (effects (_bucketSetupError created (publisher w2)))).
    - by rewrite with_publisher_take_callback.
    - by rewrite Hw2, Hw1.
    - simpl. by rewrite Hcbs2, list_lookup_middle.
    - by destruct created. }
  destruct (foldl_absorb_fixed (take_callback n w2)
              (effects (_bucketSetupError created (publisher w2))))
    as (Hp & _ & _ & Hu & _ & Hh).
  destruct (foldl_absorb_no_request (take_callback n w2)
              (effects (_bucketSetupError created (publisher w2))))
    as (Hc & Hq & Hi).
  { destruct created; by repeat constructor. }
  rewrite Hw', Hp, Hu, Hh, Hc, Hq, Hi. simpl. rewrite Hcbs2.
  rewrite (delete_middle (callbacks w) []), app_nil_r.
  rewrite Hw2, Hw1. simpl. split_and!; try done.
  rewrite <-!app_assoc. simpl. by destruct created.
Qed.

(** The bootstrap when the fetch of the bucket is answered otherwise. *)
Lemma connect_then_report w fetched :
  uncaught w = None →
  (∀ e, fetched = Some e → err_name e ≠ "BucketNotFoundError") →
  let n := length (callbacks w) in
  let bucket := morayBucket (publisher w) in
  let w' := run w [MorayConnect; MorayReply n fetched] in
  history w' =
    history w ++
    [Log Info "moray: connected" []; Emit "moray-connected";
     MorayGetBucket (name bucket) (_getBucketError _bucketSetupError)] ++
    match fetched with
    | Some e => [Log Error "Bucket was not loaded" [AErr e]]
    | None => [Log Info "Bucket successfully loaded" []; Emit "moray-ready"]
    end ∧
  callbacks w' = callbacks w ∧
  publisher w' = publisher w ∧
  uncaught w' = None ∧
  intervals w' = intervals w ∧
  queries w' = queries w.
Proof.
  intros Hun Hother n bucket w'.
  set (w1 := step w MorayConnect).
  assert (Hw1 : w1 =
    foldl absorb w
      [Log Info "moray: connected" []; Emit "moray-connected";
       MorayGetBucket (name bucket) (_getBucketError _bucketSetupError)])
    by (by apply step_connect).
  assert (Hcb : _getBucketError _bucketSetupError fetched (publisher w1) =
                _bucketSetupError fetched (publisher w1)).
  { destruct fetched as [e|]; [|done]. unfold _getBucketError.
    specialize (Hother e eq_refl). apply String.eqb_neq in Hother.
    by rewrite Hother. }
  assert (Hw' : w' =
    foldl absorb (take_callback n w1)
      (effects (_bucketSetupError fetched (publisher w1)))).
  { unfold w', run. simpl. fold w1.
    rewrite (step_returns w1 _ (take_callback n w1)
               (_getBucketError _bucketSetupError fetched) (publisher w1)
               (effects (_bucketSetupError fetched (publisher w1)))).
    - by rewrite with_publisher_take_callback.
    - by rewrite Hw1.
    - rewrite Hw1. simpl. by rewrite list_lookup_middle.
    - change (publisher (take_callback n w1)) with (publisher w1).
      rewrite Hcb. by destruct fetched. }
  destruct (foldl_absorb_fixed (take_callback n w1)
              (effects (_bucketSetupError fetched (publisher w1))))
    as (Hp & _ & _ & Hu & _ & Hh).
  destruct (foldl_absorb_no_request (take_callback n w1)
              (effects (_bucketSetupError fetched (publisher w1))))
    as (Hc & Hq & Hi).
  { destruct fetched; by repeat constructor. }
  rewrite Hw', Hp, Hu, Hh, Hc, Hq, Hi. rewrite Hw1. simpl.
  rewrite (delete_middle (callbacks w) []), app_nil_r.
  split_and!; try done.
  rewrite <-!app_assoc. simpl. by destruct fetched.
Qed.

(** X15. The bootstrap when the bucket is missing, turn by turn. After
    the moray client has connected, the publisher asks for the bucket;
    when moray answers [BucketNotFoundError], the publisher asks moray to
    create the bucket with its configuration and, in the same turn, logs
    the fetch error as a failure to load; when the creation completes,
    [moray-ready] is emitted if it succeeded and the error is logged if it
    did not. Nothing is left in flight afterwards, and the publisher object
    is as it was: a failed creation is not tried again. *)
Theorem bootstrap_creates_missing_bucket w e created :
  uncaught w = None →
  err_name e = "BucketNotFoundError" →
  let n := length (callbacks w) in
  let bucket := morayBucket (publisher w) in
  let w' := run w [MorayConnect; MorayReply n (Some e); MorayReply n created] in
  history w' =
    history w ++
    [Log Info "moray: connected" []; Emit "moray-connected";
     MorayGetBucket (name bucket) (_getBucketError _bucketSetupError);
     MorayCreateBucket (name bucket) (config bucket) _bucketSetupError;
     Log Error "Bucket was not loaded" [AErr e]] ++
    match created with
    | Some e' => [Log Error "Bucket was not loaded" [AErr e']]
    | None => [Log Info "Bucket successfully loaded" []; Emit "moray-ready"]
    end ∧
  callbacks w' = callbacks w ∧
  publisher w' = publisher w ∧
  intervals w' = intervals w ∧
  queries w' = queries w ∧
  uncaught w' = None.
Proof.
  intros Hun He. by apply connect_then_create.
Qed.

(** X16. The bootstrap when the bucket is there, or cannot be fetched for
    another reason than its absence. The answer to the fetch goes to the
    bootstrap callback as it is: [moray-ready] is emitted when there was no
    error, the error is logged otherwise; the publisher does not ask moray
    to create the bucket, and nothing is left in flight. *)
Theorem bootstrap_without_create w fetched :
  uncaught w = None →
  (∀ e, fetched = Some e → err_name e ≠ "BucketNotFoundError") →
  let n := length (callbacks w) in
  let bucket := morayBucket (publisher w) in
  let w' := run w [MorayConnect; MorayReply n fetched] in
  history w' =
    history w ++
    [Log Info "moray: connected" []; Emit "moray-connected";
     MorayGetBucket (name bucket) (_getBucketError _bucketSetupError)] ++
    match fetched with
    | Some e => [Log Error "Bucket was not loaded" [AErr e]]
    | None => [Log Info "Bucket successfully loaded" []; Emit "moray-ready"]
    end ∧
  callbacks w' = callbacks w ∧
  publisher w' = publisher w ∧
  uncaught w' = None.
Proof.
  intros Hun Hother n bucket w'.
  destruct (connect_then_report w fetched Hun Hother)
    as (Hh & Hc & Hp & Hu & _).
  by split_and!.
Qed.

End Bootstrap.

(** ** Upgrades and routes *)

Section Routes.
Context `{JSON} `{Watershed}.

(** X17. An upgrade that Watershed refuses is caught. When [shed.accept]
    throws, the handler logs the message, ends the socket and returns: the
    exception does not leave it, no connection is accepted, no listener is
    attached, the publisher object is as it was, and a text frame for the
    connection that was not made reaches no handler. *)
Theorem refused_upgrade_accepts_nothing options evs ex text :
  let w := run (boot options) evs in
  uncaught w = None →
  let w' := step w (Upgrade (Some ex)) in
  history w' =
    history w ++
    [Log Info "websocket upgrade taking place" [];
     Log Error ("error: " +:+ exn_message ex) [];
     SocketEnd] ∧
  accepted w' = accepted w ∧
  listening w' = listening w ∧
  publisher w' = publisher w ∧
  uncaught w' = None ∧
  step w' (WsText (accepted w) text) = w'.
Proof.
  intros w Hun w'.
  destruct (run_ok options evs) as [_ Hlis _ _ _]. fold w in Hlis.
  assert (Hw' : w' =
    foldl absorb w
      [Log Info "websocket upgrade taking place" [];
       Log Error ("error: " +:+ exn_message ex) [];
       SocketEnd]).
  { unfold w'.
    rewrite (step_returns w _ w (_upgrade (Throw ex)) (publisher w)
               [Log Info "websocket upgrade taking place" [];
                Log Error ("error: " +:+ exn_message ex) [];
                SocketEnd]); [|done..].
    by rewrite with_publisher_id. }
  rewrite Hw'. simpl. split_and!; try done.
  - by rewrite <-!app_assoc.
  - unfold step, reaction. simpl. rewrite Hun. simpl.
    rewrite decide_False; [done|]. intros Hin%Hlis. lia.
Qed.

(** X18. [/change-feeds] always replies with the resources the publisher
    was configured with, and calls [next()]: nothing the event loop can do
    changes the list. *)
Theorem resources_route_is_constant options evs :
  _getResources (publisher (run (boot options) evs)) =
    [SendResources (options_resources options); Next].
Proof.
  unfold _getResources. by rewrite (w_resources _ _ (run_ok options evs)).
Qed.

(** X19. The listener count of [/change-feeds/stats] is the number of
    connections the registry holds: every instance it counts has its
    connection stored, no connection is counted twice, and the count never
    exceeds the number of connections that were accepted. The registrations
    it reports are the registry's own. *)
Theorem stats_route_counts_connections options evs :
  let w := run (boot options) evs in
  let ids : list nat :=
    (λ kws : string * WebSocket, _id kws.2) <$>
    map_to_list (websockets (publisher w)) in
  _getStats (publisher w) =
    [SendStats {| listeners := length ids;
                  stats_registrations := Some (registrations (publisher w)) |};
     Next] ∧
  NoDup ids ∧
  (length ids ≤ accepted w)%nat.
Proof.
  intros w ids.
  destruct (run_ok options evs) as [[Hwf Hids Hinj] _ _ _ _].
  fold w in Hwf, Hids, Hinj. pose proof (wf_dom _ Hwf) as Hdom.
  assert (Hnodup : NoDup ids).
  { unfold ids. apply NoDup_fmap_2_strong; [|apply NoDup_map_to_list].
    intros [k ws] [k' ws'] Hin%elem_of_map_to_list Hin'%elem_of_map_to_list.
    simpl. intros Heq%WebSocket_eq. subst ws'. f_equal.
    by apply (Hinj k k' ws). }
  split_and!; [|done|].
  - unfold _getStats. do 3 f_equal. unfold ids.
    rewrite length_fmap, length_map_to_list.
    by rewrite <-!size_dom, Hdom.
  - assert (Hsub : ids ⊆+ seq 0 (accepted w)).
    { apply NoDup_submseteq; [done|]. intros x. unfold ids.
      rewrite list_elem_of_fmap. intros ([k ws] & -> & Hin%elem_of_map_to_list).
      apply elem_of_seq. destruct (Hids k ws Hin) as [Hlt _]. simpl. lia. }
    apply submseteq_length in Hsub. by rewrite length_seq in Hsub.
Qed.

End Routes.

(** ** Registering a listener *)

Lemma js_set_twice {X} k (x y : X) o : js_set k x (js_set k y o) = js_set k x o.
Proof.
  unfold js_set. destruct (String.eqb k "__proto__"); simpl; [done|].
  by rewrite insert_insert_eq, lookup_insert_eq.
Qed.

Lemma store_twice ws1 ws2 f1 f2 p :
  frame_instance f1 = frame_instance f2 →
  store ws2 f2 (store ws1 f1 p) = store ws2 f2 p.
Proof.
  intros Hi. unfold store. destruct p. simpl. rewrite Hi.
  by rewrite !js_set_twice.
Qed.

Lemma Publisher_eq p q :
  pollInterval p = pollInterval q →
  self_registrations p = self_registrations q →
  self_websockets p = self_websockets q → settings p = settings q → p = q.
Proof.
  destruct p, q. unfold settings. simpl. by intros -> -> -> [= -> ->].
Qed.

Lemma JsObject_eq {X} (o o' : JsObject X) :
  own o = own o' → order o = order o' → proto o = proto o' → o = o'.
Proof. destruct o, o'. simpl. by intros -> -> ->. Qed.

Lemma filter_fresh (k : string) (l : list string) :
  k ∉ l → filter (λ k', k' ≠ k) l = l.
Proof.
  induction l as [|a l IH]; [done|]. intros Hk.
  apply not_elem_of_cons in Hk as [Hne Hk].
  rewrite filter_cons_True by done. by rewrite IH.
Qed.

Lemma filter_snoc_fresh (k : string) (l : list string) :
  k ∉ l → filter (λ k', k' ≠ k) (l ++ [k]) = l.
Proof.
  intros Hk. rewrite filter_app, filter_fresh by done.
  rewrite filter_cons_False; [by rewrite filter_nil, app_nil_r|].
  by intros Hne.
Qed.

Lemma filter_one (i : string) (l : list string) :
  NoDup l → i ∈ l → List.filter (λ k, bool_decide (k = i)) l = [i].
Proof.
  induction 1 as [|a l Ha Hnd IH]; [by intros ?%elem_of_nil|].
  intros Hi. simpl. case_bool_decide as Hai.
  - subst a. f_equal. clear IH Hi. induction l as [|b l IH]; [done|].
    apply not_elem_of_cons in Ha as [Hne Ha]. simpl.
    rewrite bool_decide_eq_false_2 by (by apply not_eq_sym).
    apply IH; [done | by apply NoDup_cons in Hnd as [_ ?]].
  - apply elem_of_cons in Hi as [->|Hi]; [done|]. by apply IH.
Qed.

Lemma js_delete_set_fresh {X} k (x : X) o :
  String.eqb k "__proto__" = false → own o !! k = None → k ∉ order o →
  js_delete k (js_set k x o) = o.
Proof.
  intros Hk Hown Hord. unfold js_delete, js_set. rewrite Hk, Hown. simpl.
  apply JsObject_eq; simpl.
  - rewrite delete_insert_eq. by apply delete_id.
  - by apply filter_snoc_fresh.
  - done.
Qed.

Lemma discard_store_fresh ws f p :
  String.eqb (frame_instance f) "__proto__" = false →
  registry_wf p → registrations p !! frame_instance f = None →
  discard (frame_instance f) (store ws f p) = p.
Proof.
  intros Hk Hwf Hfresh.
  assert (Hord : frame_instance f ∉ order (self_registrations p)).
  { rewrite (wf_order _ Hwf), Hfresh. by intros [? ?]. }
  assert (Hfresh' : websockets p !! frame_instance f = None).
  { apply (not_elem_of_dom (D := gset string)). rewrite <-(wf_dom _ Hwf).
    by apply not_elem_of_dom. }
  pose proof (wf_same _ Hwf) as Hsame.
  unfold discard, store. destruct p as [pi regs wss b rs].
  unfold registrations, websockets in *. simpl in *.
  rewrite !js_delete_set_fresh; try done. by rewrite Hsame.
Qed.

Section Registration.
Context `{JSON} `{Watershed}.

(** C9. In every world the event loop can reach from the constructor,
    hence after every registration, every [end] and every
    [connectionReset], [self.registrations] and [self.websockets] have the
    same keys: an instance has a stored registration exactly when it has a
    stored connection. *)
Theorem registry_keys_agree options evs :
  let p := publisher (run (boot options) evs) in
  dom (registrations p) = dom (websockets p) ∧
  ∀ instance,
    is_Some (registrations p !! instance) ↔ is_Some (websockets p !! instance).
Proof.
  intros p. pose proof (wf_dom _ (run_wf options evs)) as Hdom.
  fold p in Hdom. split; [done|].
  intros instance. by rewrite <-!elem_of_dom, Hdom.
Qed.

(** What [_register] does with a frame that decodes to a registration. *)
Lemma register_run websocket text registration p :
  JSON_parse text = Ok (Some (frame registration)) →
  let stored := store websocket (frame registration) p in
  let accepting :=
    replicate (length (matching (resources p) registration))
      (Log Info "Accepting valid registration response" []) in
  _register websocket text p =
    match last (matching (resources p) registration) with
    | Some r =>
        match JSON_stringify_resource r with
        | Ok s => (Ok tt, stored, accepting ++ [WsSend websocket (Some s)])
        | Throw ex => (Throw ex, stored, accepting)
        end
    | None =>
        (Ok tt, stored,
         [Log Warn "Invalid registration resource: %s"
            [AStr (resource (changeKind registration))]])
    end.
Proof.
  intros Hparse stored accepting. unfold _register. rewrite bind_run. simpl.
  rewrite Hparse. run_binds. rewrite scan_resources_run. simpl.
  destruct (last (matching (resources p) registration)) as [r|] eqn:Hlast;
    simpl.
  - rewrite bind_run. simpl.
    destruct (JSON_stringify_resource r); simpl; [done|].
    by rewrite app_nil_r.
  - assert (matching (resources p) registration = []) as ->.
    { by destruct (matching (resources p) registration) using rev_ind;
        [|rewrite last_snoc in Hlast]. }
    simpl. by run_binds.
Qed.

(** C2, as the code has it. A first frame that decodes to a registration
    whose resource matches none of the configured resources is stored all
    the same: the two assignments are made before the resources are looked
    at and are not undone, so that, unless the instance is [__proto__], the
    registry has the connection and the registration under the
    registration's instance afterwards. The handler then only logs a
    warning; it sends nothing and does not close the connection. *)
Theorem register_unknown_resource websocket text registration p :
  JSON_parse text = Ok (Some (frame registration)) →
  (∀ r, r ∈ resources p →
        resource_resource r ≠ resource (changeKind registration)) →
  let p' := store websocket (frame registration) p in
  _register websocket text p =
    (Ok tt, p',
     [Log Warn "Invalid registration resource: %s"
        [AStr (resource (changeKind registration))]]) ∧
  (instance registration ≠ "__proto__" →
     websockets p' !! instance registration = Some websocket ∧
     registrations p' !! instance registration = Some (frame registration)).
Proof.
  intros Hparse Hnone p'.
  assert (Hm : matching (resources p) registration = []).
  { unfold matching. induction (resources p) as [|r rs IH]; [done|].
    simpl. destruct (String.eqb_spec (resource_resource r)
                       (resource (changeKind registration))) as [Heq|Hne].
    - destruct (Hnone r); [left | done].
    - apply IH. intros r' Hr'. apply Hnone. by right. }
  split.
  - rewrite (register_run _ _ registration) by done. by rewrite Hm.
  - intros Hne%String.eqb_neq. unfold p'.
    rewrite websockets_store, registrations_store.
    destruct registration as [i c]. simpl in *. rewrite Hne.
    by rewrite !lookup_insert_eq.
Qed.

(** C5, as the code has it. A first frame that [JSON.parse] rejects makes
    the handler throw before it has touched the registry: no entry is
    created, nothing is sent and nothing is logged, the connection is not
    closed, and the exception leaves the handler uncaught. *)
Theorem register_undecodable w id text ex :
  uncaught w = None →
  id ∈ listening w →
  JSON_parse text = Throw ex →
  _register {| _id := id |} text (publisher w) = (Throw ex, publisher w, []) ∧
  step w (WsText id text) = crash ex (detach_text id w).
Proof.
  intros Hun Hid Hparse.
  assert (Hreg : _register {| _id := id |} text (publisher w) =
                 (Throw ex, publisher w, [])).
  { unfold _register. rewrite bind_run. simpl. by rewrite Hparse. }
  split; [done|].
  unfold step, reaction. rewrite Hun. simpl.
  rewrite decide_True by done. simpl. rewrite Hreg. simpl.
  by destruct w.
Qed.

(** X4. A first frame that decodes to a registration goes through the two
    assignments, whatever follows. Every configured resource with the
    registration's resource is logged as accepted, and the last of them is
    the response: its serialization is the one frame sent back. When
    [JSON.stringify] throws on it, nothing is sent and the exception leaves
    the handler, with the assignments already made. When no resource
    matches, only the warning is logged. *)
Theorem register_decoded websocket text registration p :
  JSON_parse text = Ok (Some (frame registration)) →
  let stored := store websocket (frame registration) p in
  let accepting :=
    replicate (length (matching (resources p) registration))
      (Log Info "Accepting valid registration response" []) in
  _register websocket text p =
    match last (matching (resources p) registration) with
    | Some r =>
        match JSON_stringify_resource r with
        | Ok s => (Ok tt, stored, accepting ++ [WsSend websocket (Some s)])
        | Throw ex => (Throw ex, stored, accepting)
        end
    | None =>
        (Ok tt, stored,
         [Log Warn "Invalid registration resource: %s"
            [AStr (resource (changeKind registration))]])
    end.
Proof. intros Hparse. by apply register_run. Qed.

(** X5. When a second connection registers an instance, other than
    [__proto__], that is already in the registry, it takes the entry over:
    the registry is as if only the second had registered, and the handler
    sends to no other connection and ends none. When the first connection
    then ends, the entry stays, with the second connection and its
    registration. *)
Theorem register_takes_over ws1 ws2 text1 text2 reg1 reg2 p :
  JSON_parse text1 = Ok (Some (frame reg1)) →
  JSON_parse text2 = Ok (Some (frame reg2)) →
  instance reg1 = instance reg2 →
  instance reg2 ≠ "__proto__" →
  _id ws1 ≠ _id ws2 →
  registry_wf p →
  let p1 := after (_register ws1 text1 p) in
  let p2 := after (_register ws2 text2 p1) in
  let p3 := after (_end ws1 p2) in
  p2 = after (_register ws2 text2 p) ∧
  websockets p2 !! instance reg2 = Some ws2 ∧
  registrations p2 !! instance reg2 = Some (frame reg2) ∧
  (∀ ws data, WsSend ws data ∈ effects (_register ws2 text2 p1) → ws = ws2) ∧
  (SocketEnd ∉ effects (_register ws2 text2 p1)) ∧
  websockets p3 !! instance reg2 = Some ws2 ∧
  registrations p3 !! instance reg2 = Some (frame reg2).
Proof.
  intros Hp1 Hp2 Hinst Hproto%String.eqb_neq Hne Hwf p1 p2 p3.
  assert (Hi : frame_instance (frame reg1) = frame_instance (frame reg2)).
  { by destruct reg1, reg2. }
  assert (Hi2 : frame_instance (frame reg2) = instance reg2)
    by (by destruct reg2).
  assert (Hp2' : p2 = store ws2 (frame reg2) p).
  { unfold p2, p1. rewrite !register_after, Hp1, Hp2.
    by apply store_twice. }
  assert (HQ : Forall (λ e, match e with
                            | WsSend ws _ => ws = ws2
                            | SocketEnd => False
                            | _ => True
                            end) (effects (_register ws2 text2 p1))).
  { by apply emits_register. }
  rewrite Forall_forall in HQ.
  assert (Hwf2 : registry_wf p2).
  { rewrite Hp2'. by apply registry_wf_store. }
  destruct (end_after ws1 p2 Hwf2) as (Hws & Hrs).
  assert (Hw2 : websockets p2 !! instance reg2 = Some ws2).
  { rewrite Hp2', websockets_store, Hi2, Hproto. apply lookup_insert_eq. }
  assert (Hr2 : registrations p2 !! instance reg2 = Some (frame reg2)).
  { rewrite Hp2', registrations_store, Hi2, Hproto. apply lookup_insert_eq. }
  assert (Hkeep : collects ws1 (websockets p2 !! instance reg2) = false).
  { rewrite Hw2. simpl. by apply Nat.eqb_neq. }
  split_and!; try done.
  - rewrite Hp2'. by rewrite register_after, Hp2.
  - intros ws data Hin. by apply HQ in Hin.
  - intros Hin. by apply HQ in Hin.
  - unfold p3. by rewrite Hws, Hkeep.
  - unfold p3. by rewrite Hrs, Hkeep.
Qed.

(** X20. A connection that registers, under an instance other than
    [__proto__], and then ends leaves no trace in the registry. When the
    registry is well formed and holds no entry for the connection, and its
    first frame decodes to a registration, the frame followed by the [end]
    of the connection leaves the registry without an entry for the
    instance; when the instance was not registered before, the publisher
    object is exactly as it was before the frame. When another connection
    held the instance, its entry is gone as well. *)
Theorem register_then_end websocket text registration p :
  JSON_parse text = Ok (Some (frame registration)) →
  instance registration ≠ "__proto__" →
  registry_wf p →
  unlisted (_id websocket) p →
  let p' := after (_end websocket (after (_register websocket text p))) in
  registrations p' = delete (instance registration) (registrations p) ∧
  websockets p' = delete (instance registration) (websockets p) ∧
  (registrations p !! instance registration = None → p' = p).
Proof.
  intros Hparse Hproto%String.eqb_neq Hwf Hun p'.
  set (i := instance registration) in *.
  set (p1 := after (_register websocket text p)).
  assert (Hi : frame_instance (frame registration) = i)
    by (by destruct registration).
  assert (Hp1 : p1 = store websocket (frame registration) p).
  { unfold p1. by rewrite register_after, Hparse. }
  assert (Hwf1 : registry_wf p1).
  { rewrite Hp1. by apply registry_wf_store. }
  destruct (end_after websocket p1 Hwf1) as (Hws & Hrs).
  destruct (end_frame websocket p1) as [Hpoll Hset].
  assert (Hw1 : websockets p1 = <[i := websocket]> (websockets p)).
  { by rewrite Hp1, websockets_store, Hi, Hproto. }
  assert (Hr1 : registrations p1 = <[i := frame registration]> (registrations p)).
  { by rewrite Hp1, registrations_store, Hi, Hproto. }
  assert (Hc : ∀ j, collects websocket (websockets p1 !! j) = bool_decide (j = i)).
  { intros j. rewrite Hw1. case_bool_decide as Hj.
    - subst j. rewrite lookup_insert_eq. simpl. apply Nat.eqb_refl.
    - rewrite lookup_insert_ne by done.
      destruct (websockets p !! j) as [ws|] eqn:Hlook; simpl; [|done].
      apply Nat.eqb_neq. intros Heq. by apply (Hun j ws Hlook). }
  assert (Hregs : registrations p' = delete i (registrations p)).
  { apply map_eq. intros j. unfold p'. fold p1. rewrite Hrs, Hc.
    case_bool_decide as Hj.
    - subst j. by rewrite lookup_delete_eq.
    - rewrite lookup_delete_ne by done. rewrite Hr1.
      by rewrite lookup_insert_ne. }
  assert (Hwebs : websockets p' = delete i (websockets p)).
  { apply map_eq. intros j. unfold p'. fold p1. rewrite Hws, Hc.
    case_bool_decide as Hj.
    - subst j. by rewrite lookup_delete_eq.
    - rewrite lookup_delete_ne by done. rewrite Hw1.
      by rewrite lookup_insert_ne. }
  split_and!; [done..|].
  intros Hfresh.
  assert (Hfresh' : websockets p !! i = None).
  { apply not_elem_of_dom. rewrite <-(wf_dom _ Hwf). by apply not_elem_of_dom. }
  assert (Hcol : collected websocket p1 = [i]).
  { unfold collected.
    rewrite (List.filter_ext _ (λ k, bool_decide (k = i)) Hc).
    apply filter_one.
    - apply NoDup_own_keys, (wf_nodup _ Hwf1).
    - rewrite elem_of_own_keys, (wf_order _ Hwf1), Hr1, lookup_insert_eq.
      eauto. }
  unfold p'. fold p1. rewrite end_run by done. simpl. rewrite Hcol. simpl.
  rewrite Hp1, <-Hi. apply discard_store_fresh; [by rewrite Hi | done |].
  by rewrite Hi.
Qed.

End Registration.

(** ** The bootstrap and the start of polling *)

Section Startup.
Context `{JSON} `{Watershed}.

(** C3, as the code has it. In a world the event loop can reach, once the
    moray client has connected the publisher asks for the bucket. When
    moray answers [BucketNotFoundError], the publisher asks moray to create
    the bucket under the configured name with an index on [published], and
    the callback of the creation emits [moray-ready] when the creation
    succeeded. When moray answers with any other error, that error goes to
    the bootstrap callback as it is, and the callback only logs it: this
    run of the bootstrap emits no [moray-ready], asks for no creation, sets
    no interval and makes no query, and leaves the publisher object as it
    was. Nothing in the publisher remembers the failure. *)
Theorem setupBucket_bootstrap options evs e created :
  let w := run (boot options) evs in
  uncaught w = None →
  let n := length (callbacks w) in
  let bucket := morayBucketName options in
  let connected :=
    [Log Info "moray: connected" []; Emit "moray-connected";
     MorayGetBucket bucket (_getBucketError _bucketSetupError)] in
  (err_name e = "BucketNotFoundError" →
     let w' :=
       run w [MorayConnect; MorayReply n (Some e); MorayReply n created] in
     history w' =
       history w ++ connected ++
       [MorayCreateBucket bucket {| index := [("published", "string")] |}
          _bucketSetupError;
        Log Error "Bucket was not loaded" [AErr e]] ++
       match created with
       | Some e' => [Log Error "Bucket was not loaded" [AErr e']]
       | None => [Log Info "Bucket successfully loaded" []; Emit "moray-ready"]
       end) ∧
  (err_name e ≠ "BucketNotFoundError" →
     let w' := run w [MorayConnect; MorayReply n (Some e)] in
     (∀ cb p, _getBucketError cb (Some e) p = cb (Some e) p) ∧
     history w' =
       history w ++ connected ++ [Log Error "Bucket was not loaded" [AErr e]] ∧
     publisher w' = publisher w ∧
     callbacks w' = callbacks w ∧
     intervals w' = intervals w ∧
     queries w' = queries w ∧
     uncaught w' = None).
Proof.
  intros w Hun n bucket connected.
  pose proof (w_bucket _ _ (run_ok options evs)) as Hbucket.
  fold w in Hbucket. simpl in Hbucket.
  split.
  - intros He w'.
    destruct (connect_then_create w e created Hun He) as (Hh & _).
    fold n w' in Hh. by rewrite Hh, Hbucket.
  - intros He w'.
    destruct (connect_then_report w (Some e) Hun) as (Hh & Hc & Hp & Hu & Hi & Hq).
    { by intros e' [= <-]. }
    fold n w' in Hh, Hc, Hp, Hu, Hi, Hq. split_and!; try done.
    + intros cb p. unfold _getBucketError.
      apply String.eqb_neq in He. by rewrite He.
    + by rewrite Hh, Hbucket.
Qed.

(** X21. [stop()] clears the interval whose handle is in
    [self.pollInterval], so that this interval never fires again, and
    closes the moray client. It does nothing else: the publisher object,
    the queries and the moray callbacks in flight are as they were, and no
    callback looks at whether the publisher was stopped. A [record],
    [end] or [error] event of a query in flight, or the callback of a write
    in flight, that arrives after [stop()] therefore does exactly what it
    would have done before. *)
Theorem stop_clears_interval_only options evs ev :
  let w := run (boot options) evs in
  uncaught w = None →
  let w' := step w CallStop in
  stop (publisher w) =
    (Ok tt, publisher w,
     [ClearInterval (pollInterval (publisher w)); MorayClose]) ∧
  publisher w' = publisher w ∧
  queries w' = queries w ∧
  callbacks w' = callbacks w ∧
  uncaught w' = None ∧
  history w' =
    history w ++ [ClearInterval (pollInterval (publisher w)); MorayClose] ∧
  (∀ h later, pollInterval (publisher w) = Some h →
     (h ∉ intervals (run w' later)) ∧ done_by (run w' later) (Tick h) = []) ∧
  (in_flight ev = true → snd <$> reaction w' ev = snd <$> reaction w ev).
Proof.
  intros w Hun w'.
  assert (Hw' : w' = absorb (absorb w (ClearInterval (pollInterval (publisher w))))
                       MorayClose).
  { unfold w', step, reaction. rewrite Hun. simpl. by destruct w. }
  split_and!; try done; try (by rewrite Hw').
  - rewrite Hw'. simpl. by rewrite <-app_assoc.
  - intros h later Hh.
    assert (Hcl : cleared h (run w' later)).
    { apply (run_cleared options); [apply step_ok, run_ok|].
      rewrite Hw'. split; simpl; [by apply run_pollInterval|].
      rewrite Hh. intros [_ Hn]%elem_of_difference.
      by apply Hn, elem_of_singleton. }
    destruct Hcl as [_ Hnot]. split; [done|].
    unfold done_by, reaction. destruct (uncaught (run w' later)); [done|].
    simpl. by rewrite decide_False.
  - rewrite Hw'. unfold reaction. simpl. rewrite Hun.
    destruct ev; try done; simpl.
    + by destruct (callbacks w !! n).
    + by repeat case_decide.
    + by repeat case_decide.
    + by repeat case_decide.
Qed.

End Startup.

(** ** The record callback on a tidy registry *)

Section Tidy.
Context `{JSON} `{Watershed}.

(** X22. In a world the event loop can reach and whose registry is tidy,
    the record callback for a value that serializes returns, and every
    registry entry with the item's resource and with a subResource in
    common with the item has its connection sent to exactly once; what is
    sent is the serialization of the stamped value; every send is matched
    by one [item-published] event; and the callback asks for the stamped
    value, whose [published] field is no longer ["no"], to be written back
    under the record's key. *)
Theorem record_delivered_once options evs bucketName record now instance
    registration :
  let w := run (boot options) evs in
  let v := set_published (Date_toString now) (value record) in
  let r := _record bucketName record now (publisher w) in
  tidy (publisher w) →
  is_Some (strValue_of v) →
  registrations (publisher w) !! instance = Some (frame registration) →
  resource (changeKind registration) =
    resource (value_changeKind (value record)) →
  (∃ sub, sub ∈ subResources (changeKind registration) ∧
          sub ∈ subResources (value_changeKind (value record))) →
  ∃ websocket s,
    websockets (publisher w) !! instance = Some websocket ∧
    JSON_stringify_value v = Ok s ∧
    outcome r = Ok tt ∧
    count (is_send_to websocket) (effects r) = 1 ∧
    WsSend websocket (Some s) ∈ effects r ∧
    count (is_emit "item-published") (effects r) = count is_send (effects r) ∧
    MorayPutObject bucketName (key record) v (_mark (key record)) ∈ effects r ∧
    published v ≠ "no".
Proof.
  intros w v r [Hreg Hinh] [s Hs] Hk Hres Hsub.
  destruct (run_ok options evs) as [[Hwf Hids Hinj] _ _ _ _].
  fold w in Hwf, Hids, Hinj.
  assert (Hdue : due v (frame registration) = true).
  { apply due_true. exists registration. by split_and!. }
  assert (is_Some (websockets (publisher w) !! instance)) as [ws Hws].
  { apply elem_of_dom. rewrite <-(wf_dom _ Hwf). apply elem_of_dom. eauto. }
  assert (Hstr : JSON_stringify_value v = Ok s).
  { unfold strValue_of in Hs. destruct (JSON_stringify_value v); [|done].
    by injection Hs as ->. }
  assert (Hrun : r =
    (Ok tt, publisher w,
     Log Info EmptyString [ARecord record] :: serialize_log v ++
     flat_map (deliver v (strValue_of v)) (entries (publisher w)) ++
     [MorayPutObject bucketName (key record) v (_mark (key record))])).
  { unfold r. rewrite record_run; [|done..|].
    - fold v. by rewrite Hinh.
    - fold v. intros _ _ _. by rewrite Hs. }
  assert (Hentry : (instance, frame registration, Some ws) ∈ entries (publisher w)).
  { apply elem_of_entries. split_and!; [|done..].
    apply (wf_order _ Hwf). eauto. }
  assert (Hsent : WsSend ws (Some s) ∈ effects r).
  { rewrite Hrun. simpl. right. rewrite !elem_of_app, elem_of_flat_map.
    right. left. eexists. split; [done|].
    rewrite deliver_due by done. rewrite Hs. left. }
  exists ws, s. split_and!; try done.
  - by rewrite Hrun.
  - rewrite Hrun. simpl. rewrite !count_app. simpl.
    rewrite count_serialize_log by done.
    rewrite (count_flat_map_one _ _ _ (instance, frame registration, Some ws));
      [done | apply NoDup_entries, (wf_nodup _ Hwf) | done | |].
    + rewrite deliver_due by done. simpl. by rewrite Nat.eqb_refl.
    + intros [[k f] o] (_ & Hf & ->)%elem_of_entries Hne.
      apply count_zero. intros e He. destruct e; try done.
      apply deliver_send in He as (Hws' & _). simpl in *.
      apply Nat.eqb_neq. intros Hid%WebSocket_eq. subst ws0.
      assert (k = instance) as -> by eauto.
      rewrite Hf in Hk. injection Hk as ->. by rewrite Hws in Hne.
  - rewrite Hrun. simpl. rewrite !count_app. simpl.
    rewrite !count_serialize_log by done.
    f_equal. f_equal. apply count_flat_map_ext, count_deliver_emit.
  - rewrite Hrun. simpl. right. rewrite !elem_of_app. do 2 right. left.
  - apply Date_toString_not_no.
Qed.


(** X24. A first frame that parses to something without a [changeKind]
    (an object with only an instance, a number, a string) goes through the
    two assignments like any other, and the handler then throws a
    [TypeError] when it reads [changeKind.resource]: nothing is logged or
    sent, and the exception leaves the handler with the assignments
    made. A frame that parses to [null] makes the handler throw before the
    assignments, when it reads [instance]. *)
Theorem register_without_changeKind websocket text f p :
  (JSON_parse text = Ok (Some f) → frame_changeKind f = None →
   _register websocket text p =
     (Throw (TypeError "Cannot read property of undefined: resource"),
      store websocket f p, [])) ∧
  (JSON_parse text = Ok None →
   _register websocket text p =
     (Throw (TypeError "Cannot read property of undefined: instance"), p, [])).
Proof.
  split.
  - intros Hparse Hf. unfold _register. rewrite bind_run. simpl.
    rewrite Hparse. run_binds.
    destruct (resources p) as [|r rs] eqn:Hrs.
    + simpl. by rewrite Hf.
    + by rewrite scan_resources_stray.
  - intros Hparse. unfold _register. rewrite bind_run. simpl.
    by rewrite Hparse.
Qed.


End Tidy.

(** * Worked examples *)

(** A decidable property of a concrete state, by evaluation. *)
Ltac decided := refine (bool_decide_unpack _ _); vm_compute; exact I.

Section Examples.
#[local] Existing Instance Demo.runtime.
#[local] Existing Instance Demo.shed.

Lemma record_stops_at_inherited_key_witness :
  let w := run (boot Demo.options) Demo.polluted in
  let v := set_published (Date_toString Demo.clock) (value Demo.item) in
  let r := _record "change_feed_bucket" Demo.item Demo.clock (publisher w) in
  registered (publisher w) ∧
  is_Some (strValue_of v) ∧
  inherited (self_registrations (publisher w)) ≠ [] ∧
  uncaught w = None ∧
  registrations (publisher w) !! "i1" = Some (frame Demo.vm_nics) ∧
  outcome r = Throw (TypeError "Cannot read property of undefined: resource") ∧
  (∀ bucket k v' cb, MorayPutObject bucket k v' cb ∉ effects r).
Proof.
  intros w v r.
  assert (H1 : registered (publisher w)) by decided.
  assert (H2 : is_Some (strValue_of v)) by (vm_compute; eauto).
  assert (H3 : inherited (self_registrations (publisher w)) ≠ [])
    by (vm_compute; discriminate).
  assert (H4 : uncaught w = None) by reflexivity.
  assert (H5 : registrations (publisher w) !! "i1" = Some (frame Demo.vm_nics))
    by (vm_compute; reflexivity).
  destruct (record_stops_at_inherited_key Demo.options Demo.polluted
              "change_feed_bucket" Demo.item Demo.clock H1 H2 H3)
    as (Hout & _ & Hput).
  split; [exact H1|]. split; [exact H2|]. split; [exact H3|].
  split; [exact H4|]. split; [exact H5|]. split; [exact Hout | exact Hput].
Defined.

Lemma unmatched_record_is_not_marked_witness :
  let w := run (boot Demo.options) Demo.polluted in
  let r := _record "change_feed_bucket" Demo.other Demo.clock (publisher w) in
  registered (publisher w) ∧
  (∀ instance registration,
     registrations (publisher w) !! instance = Some (frame registration) →
     ¬ (resource (changeKind registration) =
          resource (value_changeKind (value Demo.other)) ∧
        ∃ sub, sub ∈ subResources (changeKind registration) ∧
               sub ∈ subResources (value_changeKind (value Demo.other)))) ∧
  inherited (self_registrations (publisher w)) ≠ [] ∧
  outcome r = Throw (TypeError "Cannot read property of undefined: resource") ∧
  (∀ ws data, WsSend ws data ∉ effects r) ∧
  (∀ bucket k v' cb, MorayPutObject bucket k v' cb ∉ effects r).
Proof.
  intros w r.
  assert (H1 : registered (publisher w)) by decided.
  assert (Hp : registrations (publisher w) = {["i1" := frame Demo.vm_nics]})
    by (vm_compute; reflexivity).
  assert (H2 : ∀ instance registration,
     registrations (publisher w) !! instance = Some (frame registration) →
     ¬ (resource (changeKind registration) =
          resource (value_changeKind (value Demo.other)) ∧
        ∃ sub, sub ∈ subResources (changeKind registration) ∧
               sub ∈ subResources (value_changeKind (value Demo.other)))).
  { intros instance [i [res subs]]. rewrite Hp.
    intros [_ Heq]%lookup_singleton_Some [Hres _].
    injection Heq as _ <- _. discriminate Hres. }
  assert (H3 : inherited (self_registrations (publisher w)) ≠ [])
    by (vm_compute; discriminate).
  destruct (unmatched_record_is_not_marked Demo.options Demo.polluted
              "change_feed_bucket" Demo.other Demo.clock H1 H2 H3)
    as (Hout & _ & Hsend & Hput).
  split; [exact H1|]. split; [exact H2|]. split; [exact H3|].
  split; [exact Hout|]. split; [exact Hsend | exact Hput].
Defined.

Lemma unserializable_value_reaches_send_witness :
  let w := run (boot Demo.options) Demo.polling in
  let v := set_published (Date_toString Demo.clock) (value Demo.knot) in
  let r := _record "change_feed_bucket" Demo.knot Demo.clock (publisher w) in
  let ex := TypeError "Converting circular structure to JSON" in
  registered (publisher w) ∧
  JSON_stringify_value v = Throw ex ∧
  registrations (publisher w) !! "i1" = Some (frame Demo.vm_nics) ∧
  outcome r = Throw send_null ∧
  Log Error "Error serializing value: %s" [AStr (exn_message ex)] ∈ effects r ∧
  (∃ ws, last (effects r) = Some (WsSend ws None)) ∧
  (∀ ws s, WsSend ws (Some s) ∉ effects r) ∧
  (Emit "item-published" ∉ effects r) ∧
  (∀ bucket k v' cb, MorayPutObject bucket k v' cb ∉ effects r).
Proof.
  intros w v r ex.
  assert (H1 : registered (publisher w)) by decided.
  assert (H2 : JSON_stringify_value v = Throw ex) by reflexivity.
  assert (H3 : registrations (publisher w) !! "i1" = Some (frame Demo.vm_nics))
    by (vm_compute; reflexivity).
  assert (H4 : resource (changeKind Demo.vm_nics) =
               resource (value_changeKind (value Demo.knot))) by reflexivity.
  assert (H5 : ∃ sub, sub ∈ subResources (changeKind Demo.vm_nics) ∧
                      sub ∈ subResources (value_changeKind (value Demo.knot))).
  { exists "nics". split; simpl; left. }
  destruct (unserializable_value_reaches_send Demo.options Demo.polling
              "change_feed_bucket" Demo.knot Demo.clock ex "i1" Demo.vm_nics
              H1 H2 H3 H4 H5)
    as (Hout & _ & Hlog & Hlast & Hsend & Hemit & Hput).
  split; [exact H1|]. split; [exact H2|]. split; [exact H3|].
  split; [exact Hout|]. split; [exact Hlog|]. split; [exact Hlast|].
  split; [exact Hsend|]. split; [exact Hemit | exact Hput].
Defined.

Lemma register_unknown_resource_witness :
  let p := new_Publisher Demo.options in
  let p' := store Demo.ws0 (frame Demo.net_any) p in
  JSON_parse Demo.text_i3 = Ok (Some (frame Demo.net_any)) ∧
  (∀ r, r ∈ resources p →
        resource_resource r ≠ resource (changeKind Demo.net_any)) ∧
  instance Demo.net_any ≠ "__proto__" ∧
  _register Demo.ws0 Demo.text_i3 p =
    (Ok tt, p',
     [Log Warn "Invalid registration resource: %s" [AStr "network"]]) ∧
  websockets p' !! "i3" = Some Demo.ws0 ∧
  registrations p' !! "i3" = Some (frame Demo.net_any).
Proof.
  intros p p'.
  assert (H1 : JSON_parse Demo.text_i3 = Ok (Some (frame Demo.net_any)))
    by reflexivity.
  assert (H2 : ∀ r, r ∈ resources p →
             resource_resource r ≠ resource (changeKind Demo.net_any)).
  { intros r Hr. apply list_elem_of_singleton in Hr as ->. discriminate. }
  assert (H3 : instance Demo.net_any ≠ "__proto__") by discriminate.
  destruct (register_unknown_resource Demo.ws0 Demo.text_i3 Demo.net_any p
              H1 H2) as [Hrun Hstored].
  split; [exact H1|]. split; [exact H2|]. split; [exact H3|].
  split; [exact Hrun|]. exact (Hstored H3).
Defined.

Lemma register_undecodable_witness :
  let w := run (boot Demo.options) [Upgrade None] in
  let ex := SyntaxError "Unexpected token" in
  uncaught w = None ∧
  0 ∈ listening w ∧
  JSON_parse "garbage" = Throw ex ∧
  _register Demo.ws0 "garbage" (publisher w) = (Throw ex, publisher w, []) ∧
  step w (WsText 0 "garbage") = crash ex (detach_text 0 w).
Proof.
  intros w ex.
  assert (H1 : uncaught w = None) by reflexivity.
  assert (H2 : 0 ∈ listening w) by (vm_compute; reflexivity).
  assert (H3 : JSON_parse "garbage" = Throw ex) by reflexivity.
  split; [exact H1|]. split; [exact H2|]. split; [exact H3|].
  exact (register_undecodable w 0 "garbage" ex H1 H2 H3).
Defined.

Lemma setupBucket_bootstrap_witness :
  let w := boot Demo.options in
  let connected :=
    [Log Info "moray: connected" []; Emit "moray-connected";
     MorayGetBucket "change_feed_bucket" (_getBucketError _bucketSetupError)] in
  uncaught w = None ∧
  err_name Demo.missing = "BucketNotFoundError" ∧
  err_name Demo.refused ≠ "BucketNotFoundError" ∧
  history (run w [MorayConnect; MorayReply 0 (Some Demo.missing);
                  MorayReply 0 None]) =
    connected ++
    [MorayCreateBucket "change_feed_bucket"
       {| index := [("published", "string")] |} _bucketSetupError;
     Log Error "Bucket was not loaded" [AErr Demo.missing];
     Log Info "Bucket successfully loaded" []; Emit "moray-ready"] ∧
  history (run w [MorayConnect; MorayReply 0 (Some Demo.refused)]) =
    connected ++ [Log Error "Bucket was not loaded" [AErr Demo.refused]] ∧
  intervals (run w [MorayConnect; MorayReply 0 (Some Demo.refused)]) = ∅ ∧
  queries (run w [MorayConnect; MorayReply 0 (Some Demo.refused)]) = 0.
Proof.
  intros w connected.
  assert (H1 : uncaught w = None) by reflexivity.
  assert (H2 : err_name Demo.missing = "BucketNotFoundError") by reflexivity.
  assert (H3 : err_name Demo.refused ≠ "BucketNotFoundError") by discriminate.
  destruct (setupBucket_bootstrap Demo.options [] Demo.missing None H1)
    as [Hmissing _].
  destruct (setupBucket_bootstrap Demo.options [] Demo.refused None H1)
    as [_ Hother].
  destruct (Hother H3) as (_ & Hh & _ & _ & Hi & Hq & _).
  split; [exact H1|]. split; [exact H2|]. split; [exact H3|].
  split; [exact (Hmissing H2)|]. split; [exact Hh|]. split; [exact Hi | exact Hq].
Defined.

(** C2, as the spec has it, fails: listener [i3] asks for a resource that
    is not configured, and the registry has an entry for [i3] afterwards. *)
Lemma unknown_resource_is_registered :
  let before := run (boot Demo.options) [Upgrade None] in
  let later := step before (WsText 0 Demo.text_i3) in
  JSON_parse Demo.text_i3 = Ok (Some (frame Demo.net_any)) ∧
  existsb (λ r, String.eqb (resource_resource r)
                  (resource (changeKind Demo.net_any)))
    (resources (publisher before)) = false ∧
  registrations (publisher before) !! "i3" = None ∧
  registrations (publisher later) !! "i3" = Some (frame Demo.net_any) ∧
  websockets (publisher later) !! "i3" = Some Demo.ws0.
Proof. vm_compute. by split_and!. Qed.

(** C3, as the spec has it, fails: after a fetch of the bucket that moray
    refused, nothing keeps polling from beginning. [start()] sets the
    interval and its first firing queries the bucket, although
    [moray-ready] was never emitted; and when the moray client connects
    again, the bootstrap runs again and [moray-ready] is emitted after
    all. *)
Lemma polling_begins_after_failed_bootstrap :
  let w :=
    run (boot Demo.options) [MorayConnect; MorayReply 0 (Some Demo.refused)] in
  let w' := run w [CallStart; Tick 0] in
  String.eqb (err_name Demo.refused) "BucketNotFoundError" = false ∧
  uncaught w = None ∧
  count (is_emit "moray-ready") (history w') = 0 ∧
  done_by (step w CallStart) (Tick 0) =
    [MorayFindObjects "change_feed_bucket" "(published=no)"] ∧
  queries w' = 1 ∧
  count (is_emit "moray-ready")
    (history (run w [MorayConnect; MorayReply 0 None])) = 1.
Proof. vm_compute. by split_and!. Qed.

(** C5, as the spec has it, fails: a frame that does not parse is not
    logged, and the exception leaves the handler and ends the process. *)
Lemma undecodable_frame_escapes :
  let w := run (boot Demo.options) [Upgrade None] in
  JSON_parse "garbage" = Throw (SyntaxError "Unexpected token") ∧
  outcome (_register Demo.ws0 "garbage" (publisher w)) =
    Throw (SyntaxError "Unexpected token") ∧
  done_by w (WsText 0 "garbage") = [] ∧
  history (step w (WsText 0 "garbage")) = history w ∧
  uncaught (step w (WsText 0 "garbage")) =
    Some (SyntaxError "Unexpected token").
Proof. vm_compute. by split_and!. Qed.

(** C7. [stop()] does not halt the publishing. Listener [i1] has
    registered, [start()] was called twice, a query is in flight, and
    [stop()] has returned: the [end] event of the query still emits
    [no-items]; a [record] event still sends the item to the listener, emits
    [item-published] and asks for its write; and the interval of the first
    [start()], which [stop()] did not clear, still fires and queries the
    bucket. *)
Theorem callbacks_run_after_stop :
  let w := run (boot Demo.options) Demo.stopped in
  let v := set_published "1446000000000" (value Demo.item) in
  let s := "{changeKind:{resource:vm,subResources:[nics,tags]},published:1446000000000}" in
  last (history w) = Some MorayClose ∧
  uncaught w = None ∧
  done_by w FindEnd = [Emit "no-items"; Log Info "findObjects ended" []] ∧
  done_by w (FindRecord Demo.item Demo.clock) =
    [Log Info EmptyString [ARecord Demo.item];
     WsSend Demo.ws0 (Some s);
     Log Info "Published: %s" [AStr s];
     Emit "item-published";
     MorayPutObject "change_feed_bucket" "k1" v (_mark "k1")] ∧
  done_by w (Tick 0) =
    [MorayFindObjects "change_feed_bucket" "(published=no)"].
Proof. vm_compute. by split_and!. Qed.

Lemma end_removes_connection_witness :
  let p := publisher (run (boot Demo.options) [Upgrade None; WsText 0 Demo.text_i1]) in
  let p' := after (_end Demo.ws0 p) in
  registry_wf p ∧
  websockets p !! "i1" = Some Demo.ws0 ∧
  outcome (_end Demo.ws0 p) = Ok tt ∧
  unlisted 0 p' ∧
  dom (registrations p') = dom (websockets p') ∧
  pollInterval p' = pollInterval p.
Proof.
  intros p p'.
  assert (H1 : registry_wf p)
    by exact (run_wf Demo.options [Upgrade None; WsText 0 Demo.text_i1]).
  assert (H2 : websockets p !! "i1" = Some Demo.ws0)
    by (vm_compute; reflexivity).
  destruct (end_removes_connection Demo.ws0 p H1)
    as (Hout & _ & Hgone & _ & Hdom & _ & _ & Hpoll & _).
  split; [exact H1|]. split; [exact H2|]. split; [exact Hout|].
  split; [exact Hgone|]. split; [exact Hdom|]. exact Hpoll.
Defined.

Lemma end_unregisters_one_witness :
  let w := run (boot Demo.options) [Upgrade None; WsText 0 Demo.text_i1] in
  let w' := step w (WsEnd 0) in
  uncaught w = None ∧
  websockets (publisher w) !! "i1" = Some Demo.ws0 ∧
  registrations (publisher w') = delete "i1" (registrations (publisher w)) ∧
  websockets (publisher w') = delete "i1" (websockets (publisher w)) ∧
  step w (WsConnectionReset 0) = w'.
Proof.
  intros w w'.
  assert (H1 : uncaught w = None) by reflexivity.
  assert (H2 : websockets (publisher w) !! "i1" = Some Demo.ws0)
    by (vm_compute; reflexivity).
  destruct (end_unregisters_one Demo.options
              [Upgrade None; WsText 0 Demo.text_i1] 0 "i1" H1 H2)
    as (Hr & Hw & _ & Hreset).
  split; [exact H1|]. split; [exact H2|]. split; [exact Hr|].
  split; [exact Hw|]. exact Hreset.
Defined.

Lemma end_of_unlisted_connection_witness :
  let w := run (boot Demo.options) [Upgrade None] in
  0 < accepted w ∧
  unlisted 0 (publisher w) ∧
  inherited (self_registrations (publisher w)) = [] ∧
  step w (WsEnd 0) = w ∧
  step w (WsConnectionReset 0) = w.
Proof.
  intros w.
  assert (H1 : 0 < accepted w) by (vm_compute; lia).
  assert (H2 : unlisted 0 (publisher w)).
  { intros k ws Hk. vm_compute in Hk. discriminate Hk. }
  assert (H3 : inherited (self_registrations (publisher w)) = [])
    by (vm_compute; reflexivity).
  split; [exact H1|]. split; [exact H2|]. split; [exact H3|].
  exact (end_of_unlisted_connection Demo.options [Upgrade None] 0 H1 H2 H3).
Defined.

Lemma register_decoded_witness :
  let p := new_Publisher Demo.options in
  JSON_parse Demo.text_i1 = Ok (Some (frame Demo.vm_nics)) ∧
  _register Demo.ws0 Demo.text_i1 p =
    (Ok tt, store Demo.ws0 (frame Demo.vm_nics) p,
     [Log Info "Accepting valid registration response" [];
      WsSend Demo.ws0 (Some "{resource:vm}")]).
Proof.
  intros p.
  assert (H1 : JSON_parse Demo.text_i1 = Ok (Some (frame Demo.vm_nics)))
    by reflexivity.
  split; [exact H1|].
  exact (register_decoded Demo.ws0 Demo.text_i1 Demo.vm_nics p H1).
Defined.

Lemma register_takes_over_witness :
  let ws1 := {| _id := 1 |} in
  let p := new_Publisher Demo.options in
  let p1 := after (_register Demo.ws0 Demo.text_i1 p) in
  let p2 := after (_register ws1 Demo.text_i1 p1) in
  let p3 := after (_end Demo.ws0 p2) in
  JSON_parse Demo.text_i1 = Ok (Some (frame Demo.vm_nics)) ∧
  instance Demo.vm_nics ≠ "__proto__" ∧
  _id Demo.ws0 ≠ _id ws1 ∧
  registry_wf p ∧
  websockets p1 !! "i1" = Some Demo.ws0 ∧
  websockets p2 !! "i1" = Some ws1 ∧
  websockets p3 !! "i1" = Some ws1 ∧
  registrations p3 !! "i1" = Some (frame Demo.vm_nics).
Proof.
  intros ws1 p p1 p2 p3.
  assert (H1 : JSON_parse Demo.text_i1 = Ok (Some (frame Demo.vm_nics)))
    by reflexivity.
  assert (H2 : instance Demo.vm_nics = instance Demo.vm_nics) by reflexivity.
  assert (H3 : instance Demo.vm_nics ≠ "__proto__") by discriminate.
  assert (H4 : _id Demo.ws0 ≠ _id ws1) by (simpl; lia).
  assert (H5 : registry_wf p) by exact (registry_wf_empty Demo.options).
  assert (H6 : websockets p1 !! "i1" = Some Demo.ws0)
    by (vm_compute; reflexivity).
  destruct (register_takes_over Demo.ws0 ws1 Demo.text_i1 Demo.text_i1
              Demo.vm_nics Demo.vm_nics p H1 H1 H2 H3 H4 H5)
    as (_ & Hw2 & _ & _ & _ & Hw3 & Hr3).
  split; [exact H1|]. split; [exact H3|]. split; [exact H4|].
  split; [exact H5|]. split; [exact H6|]. split; [exact Hw2|].
  split; [exact Hw3|]. exact Hr3.
Defined.

Lemma text_frame_heard_once_witness :
  let w := run (boot Demo.options) [Upgrade None] in
  let w1 := run (step w (WsText 0 Demo.text_i1)) [CallStart; Tick 0] in
  0 ∈ listening w ∧
  step w1 (WsText 0 Demo.text_i2) = w1.
Proof.
  intros w w1.
  assert (H1 : 0 ∈ listening w) by (vm_compute; reflexivity).
  split; [exact H1|].
  exact (text_frame_heard_once Demo.options [Upgrade None] 0 Demo.text_i1
           [CallStart; Tick 0] Demo.text_i2 H1).
Defined.

Lemma record_sends_only_to_matching_witness :
  let w := run (boot Demo.options) Demo.polling in
  let v := set_published (Date_toString Demo.clock) (value Demo.item) in
  WsSend Demo.ws0 (strValue_of v) ∈
    effects (_record "change_feed_bucket" Demo.item Demo.clock (publisher w)) ∧
  ∃ instance registration,
    registrations (publisher w) !! instance = Some (frame registration) ∧
    websockets (publisher w) !! instance = Some Demo.ws0 ∧
    resource (changeKind registration) =
      resource (value_changeKind (value Demo.item)) ∧
    (∃ sub, sub ∈ subResources (changeKind registration) ∧
            sub ∈ subResources (value_changeKind (value Demo.item))) ∧
    strValue_of v = strValue_of v.
Proof.
  intros w v.
  assert (H1 : WsSend Demo.ws0 (strValue_of v) ∈
    effects (_record "change_feed_bucket" Demo.item Demo.clock (publisher w))).
  { vm_compute. apply list_elem_of_further, list_elem_of_here. }
  split; [exact H1|].
  exact (record_sends_only_to_matching Demo.options Demo.polling
           "change_feed_bucket" Demo.item Demo.clock Demo.ws0 (strValue_of v) H1).
Defined.

Lemma ended_connection_gets_nothing_witness :
  let w := run (boot Demo.options) Demo.polling in
  let w1 := run (step w (WsEnd 0)) [FindEnd; Tick 0] in
  uncaught w = None ∧
  heard 0 w ∧
  unlisted 0 (publisher w1) ∧
  WsSend Demo.ws0 (Some "anything") ∉ done_by w1 (FindRecord Demo.item Demo.clock).
Proof.
  intros w w1.
  assert (H1 : uncaught w = None) by reflexivity.
  assert (H2 : heard 0 w).
  { split; [vm_compute; lia|]. intros Hin. vm_compute in Hin. discriminate Hin. }
  split; [exact H1|]. split; [exact H2|].
  exact (ended_connection_gets_nothing Demo.options Demo.polling 0
           [FindEnd; Tick 0] Demo.item Demo.clock (Some "anything") H1 H2).
Defined.


Lemma failed_query_is_logged_witness :
  let w := run (boot Demo.options) [CallStart] in
  let err := {| err_name := "NoDatabasePeersError"; err_message := "no peers" |} in
  let query := MorayFindObjects "change_feed_bucket" "(published=no)" in
  let w' := run w [Tick 0; FindError err] in
  uncaught w = None ∧
  0 ∈ intervals w ∧
  history w' = history w ++ [query; Log Warn EmptyString [AErr err]] ∧
  publisher w' = publisher w ∧
  queries w' = queries w ∧
  intervals w' = intervals w ∧
  uncaught w' = None ∧
  done_by w' (Tick 0) = [query].
Proof.
  intros w err query w'.
  assert (H1 : uncaught w = None) by reflexivity.
  assert (H2 : 0 ∈ intervals w) by (vm_compute; reflexivity).
  split; [exact H1|]. split; [exact H2|].
  exact (failed_query_is_logged w 0 err H1 H2).
Defined.


Lemma publish_reports_outcome_witness :
  let w := boot Demo.options in
  let err := {| err_name := "ConnectionClosedError"; err_message := "closed" |} in
  let w1 := step w (CallPublish (value Demo.item) "uuid-1" 7) in
  uncaught w = None ∧
  publisher w1 = publisher w ∧
  history w1 =
    history w ++
    [MorayPutObject "change_feed_bucket" "uuid-1" (value Demo.item)
       (λ err, tell (UserCallback 7 err))] ∧
  done_by w1 (MorayReply 0 (Some err)) = [UserCallback 7 (Some err)] ∧
  history (step w1 (MorayReply 0 (Some err))) =
    history w1 ++ [UserCallback 7 (Some err)] ∧
  callbacks (step w1 (MorayReply 0 (Some err))) = callbacks w.
Proof.
  intros w err w1.
  assert (H1 : uncaught w = None) by reflexivity.
  split; [exact H1|].
  exact (publish_reports_outcome w (value Demo.item) "uuid-1" 7 (Some err) H1).
Defined.

Lemma stop_clears_latest_interval_only_witness :
  let w := boot Demo.options in
  let w' := run w [CallStart; CallStart; CallStop] in
  uncaught w = None ∧
  pollInterval (publisher w') = Some 1 ∧
  0 ∈ intervals w' ∧
  (1 ∉ intervals w') ∧
  done_by w' (Tick 0) =
    [MorayFindObjects "change_feed_bucket" "(published=no)"].
Proof.
  intros w w'.
  assert (H1 : uncaught w = None) by reflexivity.
  split; [exact H1|].
  exact (stop_clears_latest_interval_only w H1).
Defined.

Lemma nothing_polled_before_start_witness :
  let evs :=
    [MorayConnect; MorayReply 0 None; Upgrade None; WsText 0 Demo.text_i1;
     CallPublish (value Demo.item) "uuid-1" 7; CallStop; Tick 0; FindEnd] in
  let w := run (boot Demo.options) evs in
  Forall (λ ev, ev ≠ CallStart) evs ∧
  intervals w = ∅ ∧ queries w = 0 ∧ pollInterval (publisher w) = None ∧
  (∀ e, e ∈ history w → dormant e) ∧
  (∀ h, done_by w (Tick h) = []).
Proof.
  intros evs w.
  assert (H1 : Forall (λ ev, ev ≠ CallStart) evs)
    by (repeat constructor; discriminate).
  split; [exact H1|].
  exact (nothing_polled_before_start Demo.options evs H1).
Defined.

Lemma bootstrap_creates_missing_bucket_witness :
  let w := boot Demo.options in
  let w' :=
    run w [MorayConnect; MorayReply 0 (Some Demo.missing); MorayReply 0 None] in
  uncaught w = None ∧
  err_name Demo.missing = "BucketNotFoundError" ∧
  history w' =
    [Log Info "moray: connected" []; Emit "moray-connected";
     MorayGetBucket "change_feed_bucket" (_getBucketError _bucketSetupError);
     MorayCreateBucket "change_feed_bucket"
       {| index := [("published", "string")] |} _bucketSetupError;
     Log Error "Bucket was not loaded" [AErr Demo.missing];
     Log Info "Bucket successfully loaded" []; Emit "moray-ready"] ∧
  callbacks w' = [] ∧
  publisher w' = publisher w ∧
  intervals w' = ∅ ∧
  queries w' = 0 ∧
  uncaught w' = None.
Proof.
  intros w w'.
  assert (H1 : uncaught w = None) by reflexivity.
  assert (H2 : err_name Demo.missing = "BucketNotFoundError") by reflexivity.
  split; [exact H1|]. split; [exact H2|].
  exact (bootstrap_creates_missing_bucket w Demo.missing None H1 H2).
Defined.

Lemma bootstrap_without_create_witness :
  let w := boot Demo.options in
  let w' := run w [MorayConnect; MorayReply 0 (Some Demo.refused)] in
  uncaught w = None ∧
  (∀ e, Some Demo.refused = Some e → err_name e ≠ "BucketNotFoundError") ∧
  history w' =
    [Log Info "moray: connected" []; Emit "moray-connected";
     MorayGetBucket "change_feed_bucket" (_getBucketError _bucketSetupError);
     Log Error "Bucket was not loaded" [AErr Demo.refused]] ∧
  callbacks w' = [] ∧
  publisher w' = publisher w ∧
  uncaught w' = None.
Proof.
  intros w w'.
  assert (H1 : uncaught w = None) by reflexivity.
  assert (H2 : ∀ e, Some Demo.refused = Some e →
                    err_name e ≠ "BucketNotFoundError").
  { intros e [= <-]. discriminate. }
  split; [exact H1|]. split; [exact H2|].
  exact (bootstrap_without_create w (Some Demo.refused) H1 H2).
Defined.

Lemma refused_upgrade_accepts_nothing_witness :
  let w := run (boot Demo.options) [Upgrade None; WsText 0 Demo.text_i1] in
  let ex := JsError "not a websocket upgrade" in
  let w' := step w (Upgrade (Some ex)) in
  uncaught w = None ∧
  history w' =
    history w ++
    [Log Info "websocket upgrade taking place" [];
     Log Error "error: not a websocket upgrade" [];
     SocketEnd] ∧
  accepted w' = 1 ∧
  listening w' = listening w ∧
  publisher w' = publisher w ∧
  uncaught w' = None ∧
  step w' (WsText 1 Demo.text_i2) = w'.
Proof.
  intros w ex w'.
  assert (H1 : uncaught w = None) by reflexivity.
  split; [exact H1|].
  exact (refused_upgrade_accepts_nothing Demo.options
           [Upgrade None; WsText 0 Demo.text_i1] ex Demo.text_i2 H1).
Defined.

Lemma register_then_end_witness :
  let p := new_Publisher Demo.options in
  let p' := after (_end Demo.ws0 (after (_register Demo.ws0 Demo.text_i1 p))) in
  JSON_parse Demo.text_i1 = Ok (Some (frame Demo.vm_nics)) ∧
  instance Demo.vm_nics ≠ "__proto__" ∧
  registry_wf p ∧
  unlisted 0 p ∧
  registrations p !! "i1" = None ∧
  p' = p.
Proof.
  intros p p'.
  assert (H1 : JSON_parse Demo.text_i1 = Ok (Some (frame Demo.vm_nics)))
    by reflexivity.
  assert (H2 : instance Demo.vm_nics ≠ "__proto__") by discriminate.
  assert (H3 : registry_wf p) by exact (registry_wf_empty Demo.options).
  assert (H4 : unlisted 0 p).
  { intros k ws Hk. vm_compute in Hk. discriminate Hk. }
  assert (H5 : registrations p !! "i1" = None) by reflexivity.
  destruct (register_then_end Demo.ws0 Demo.text_i1 Demo.vm_nics p H1 H2 H3 H4)
    as (_ & _ & Hback).
  split; [exact H1|]. split; [exact H2|]. split; [exact H3|].
  split; [exact H4|]. split; [exact H5|]. exact (Hback H5).
Defined.

Lemma stop_clears_interval_only_witness :
  let w := run (boot Demo.options) Demo.polling in
  let w' := step w CallStop in
  let later := [FindRecord Demo.item Demo.clock; FindEnd; Tick 0] in
  uncaught w = None ∧
  pollInterval (publisher w) = Some 0 ∧
  in_flight FindEnd = true ∧
  publisher w' = publisher w ∧
  queries w' = queries w ∧
  (0 ∉ intervals (run w' later)) ∧
  done_by (run w' later) (Tick 0) = [] ∧
  snd <$> reaction w' FindEnd = snd <$> reaction w FindEnd.
Proof.
  intros w w' later.
  assert (H1 : uncaught w = None) by reflexivity.
  assert (H2 : pollInterval (publisher w) = Some 0) by reflexivity.
  assert (H3 : in_flight FindEnd = true) by reflexivity.
  destruct (stop_clears_interval_only Demo.options Demo.polling FindEnd H1)
    as (_ & Hp & Hq & _ & _ & _ & Htick & Hflight).
  destruct (Htick 0 later H2) as [Hclear Hquiet].
  split; [exact H1|]. split; [exact H2|]. split; [exact H3|].
  split; [exact Hp|]. split; [exact Hq|]. split; [exact Hclear|].
  split; [exact Hquiet|]. exact (Hflight H3).
Defined.

Lemma record_delivered_once_witness :
  let w := run (boot Demo.options) Demo.polling in
  let v := set_published (Date_toString Demo.clock) (value Demo.item) in
  let r := _record "change_feed_bucket" Demo.item Demo.clock (publisher w) in
  tidy (publisher w) ∧
  is_Some (strValue_of v) ∧
  registrations (publisher w) !! "i1" = Some (frame Demo.vm_nics) ∧
  ∃ websocket s,
    websockets (publisher w) !! "i1" = Some websocket ∧
    JSON_stringify_value v = Ok s ∧
    outcome r = Ok tt ∧
    count (is_send_to websocket) (effects r) = 1 ∧
    WsSend websocket (Some s) ∈ effects r ∧
    count (is_emit "item-published") (effects r) = count is_send (effects r) ∧
    MorayPutObject "change_feed_bucket" (key Demo.item) v
      (_mark (key Demo.item)) ∈ effects r ∧
    published v ≠ "no".
Proof.
  intros w v r.
  assert (H1 : tidy (publisher w)) by decided.
  assert (H2 : is_Some (strValue_of v)) by (vm_compute; eauto).
  assert (H3 : registrations (publisher w) !! "i1" = Some (frame Demo.vm_nics))
    by (vm_compute; reflexivity).
  assert (H4 : resource (changeKind Demo.vm_nics) =
               resource (value_changeKind (value Demo.item)))
    by reflexivity.
  assert (H5 : ∃ sub, sub ∈ subResources (changeKind Demo.vm_nics) ∧
                      sub ∈ subResources (value_changeKind (value Demo.item))).
  { exists "nics". split; simpl; left. }
  split; [exact H1|]. split; [exact H2|]. split; [exact H3|].
  exact (record_delivered_once Demo.options Demo.polling "change_feed_bucket"
           Demo.item Demo.clock "i1" Demo.vm_nics H1 H2 H3 H4 H5).
Defined.


Lemma register_without_changeKind_witness :
  let p := new_Publisher Demo.options in
  JSON_parse Demo.text_stray = Ok (Some Demo.stray) ∧
  frame_changeKind Demo.stray = None ∧
  JSON_parse Demo.text_null = Ok None ∧
  _register Demo.ws0 Demo.text_stray p =
    (Throw (TypeError "Cannot read property of undefined: resource"),
     store Demo.ws0 Demo.stray p, []) ∧
  registrations (store Demo.ws0 Demo.stray p) !! "i9" = Some Demo.stray ∧
  _register Demo.ws0 Demo.text_null p =
    (Throw (TypeError "Cannot read property of undefined: instance"), p, []).
Proof.
  intros p.
  assert (H1 : JSON_parse Demo.text_stray = Ok (Some Demo.stray)) by reflexivity.
  assert (H2 : frame_changeKind Demo.stray = None) by reflexivity.
  assert (H3 : JSON_parse Demo.text_null = Ok None) by reflexivity.
  split; [exact H1|]. split; [exact H2|]. split; [exact H3|].
  split; [|split; [vm_compute; reflexivity|]].
  - exact (proj1 (register_without_changeKind Demo.ws0 Demo.text_stray
                    Demo.stray p) H1 H2).
  - exact (proj2 (register_without_changeKind Demo.ws0 Demo.text_null
                    Demo.stray p) H3).
Defined.


End Examples.
